(** * Proofi agents: capability-token security core

    A shallow embedding of the token, key-store, key-unwrapping and
    audit-chain code of the Proofi agents repository
    ([lib/proofi-sdk.js], the agent's [keys.ts] and [crypto.ts]),
    together with the properties the design document states about it.

    Conventions of the embedding:
    - a JavaScript string is a Rocq [string]; its bytes stand for the UTF-8
      encoding that [TextEncoder] produces, so for ASCII text the two
      coincide character by character;
    - a [Uint8Array] is a [list Z] of values below 256;
    - a JavaScript number that the code uses as a counter, a length or a
      millisecond/second timestamp is a [Z];
    - an exception is a value of type [Exn]; a function that can throw
      returns an [Outcome];
    - calls into the platform are either implemented here after their
      published behaviour ([btoa], tweetnacl-util's [decodeBase64],
      SHA-256, [JSON.stringify], [Date.prototype.toISOString]) or are
      fields of an explicit environment record (clock, random generator,
      [fetch], [JSON.parse], the tweetnacl box and signature primitives,
      the file system).

    The first part of the file holds the definitions, module by module;
    the second part holds the lemmas and theorems. *)

From Stdlib Require Import ZArith String Ascii List Lia Bool.
From stdpp Require Import base strings gmap list pretty.

Set Warnings "-register-all".
Local Open Scope Z_scope.

(** ** Exceptions *)

Inductive Exn : Type :=
| TypeError (message : string)
| RangeError (message : string)
| SyntaxError (message : string)
| Error (message : string).

Inductive Outcome (A : Type) : Type :=
| Ok (a : A)
| Throw (e : Exn).

Arguments Ok {A} a.
Arguments Throw {A} e.

#[global] Instance Outcome_ret : MRet Outcome := λ A a, Ok a.

#[global] Instance Outcome_bind : MBind Outcome := λ A B k m,
  match m with
  | Ok a => k a
  | Throw e => Throw e
  end.

Definition is_ok {A : Type} (m : Outcome A) : bool :=
  match m with Ok _ => true | Throw _ => false end.

(** ** JavaScript string primitives used by the code *)

Module JsString.

(** [s.startsWith(p)] *)
Definition startsWith (s p : string) : bool := String.prefix p s.

(** [s.endsWith(p)] *)
Definition endsWith (s p : string) : bool :=
  let n := String.length s in
  let m := String.length p in
  (m <=? n)%nat && String.eqb (substring (n - m) m s) p.

(** [s.slice(0, -k)] for a positive [k]: all but the last [k] characters,
    the empty string when [s] is shorter than [k]. *)
Definition slice_to_neg (s : string) (k : nat) : string :=
  substring 0 (String.length s - k) s.

(** [s.slice(0, k)]: the first [k] characters (all of [s] when shorter). *)
Definition slice_to (s : string) (k : nat) : string :=
  substring 0 (Nat.min k (String.length s)) s.

(** [s.includes(p)]: [p] occurs in [s] at some position. *)
Fixpoint includes (s p : string) : bool :=
  String.prefix p s ||
  match s with
  | EmptyString => false
  | String _ s' => includes s' p
  end.

(** ['c'.repeat(n)] *)
Fixpoint repeat (c : ascii) (n : nat) : string :=
  match n with
  | O => EmptyString
  | S n' => String c (repeat c n')
  end.

(** [l.join(sep)] on an array of strings. *)
Definition join (sep : string) (l : list string) : string :=
  match l with
  | [] => EmptyString
  | x :: r => fold_left (λ acc y, acc +:+ sep +:+ y) r x
  end.

End JsString.

(** ** Byte arrays *)

Module Bytes.

(** [new TextEncoder().encode(s)] *)
Definition of_string (s : string) : list Z :=
  map (λ a, Z.of_N (N_of_ascii a)) (list_ascii_of_string s).


(** An element of a [Uint8Array]. *)
Definition byte_ok (x : Z) : Prop := 0 ≤ x < 256.

(** [b.slice(-k)]: the last [k] bytes (all of [b] when shorter). *)
Definition slice_last (k : nat) (b : list Z) : list Z :=
  skipn (length b - k) b.

(** [b.slice(0, -k)]: all but the last [k] bytes. *)
Definition slice_init (k : nat) (b : list Z) : list Z :=
  firstn (length b - k) b.

End Bytes.

(** ** SHA-256 (FIPS 180-4), the digest behind [crypto.subtle.digest] *)

Module Sha256.

Definition w32 (x : Z) : Z := x mod 2 ^ 32.
Definition add32 (x y : Z) : Z := w32 (x + y).
Definition rotr (n x : Z) : Z :=
  Z.lor (Z.shiftr x n) (w32 (Z.shiftl x (32 - n))).
Definition shr (n x : Z) : Z := Z.shiftr x n.
Definition not32 (x : Z) : Z := Z.lxor x (2 ^ 32 - 1).

Definition Ch (x y z : Z) : Z := Z.lxor (Z.land x y) (Z.land (not32 x) z).
Definition Maj (x y z : Z) : Z :=
  Z.lxor (Z.lxor (Z.land x y) (Z.land x z)) (Z.land y z).
Definition bsig0 (x : Z) : Z := Z.lxor (Z.lxor (rotr 2 x) (rotr 13 x)) (rotr 22 x).
Definition bsig1 (x : Z) : Z := Z.lxor (Z.lxor (rotr 6 x) (rotr 11 x)) (rotr 25 x).
Definition ssig0 (x : Z) : Z := Z.lxor (Z.lxor (rotr 7 x) (rotr 18 x)) (shr 3 x).
Definition ssig1 (x : Z) : Z := Z.lxor (Z.lxor (rotr 17 x) (rotr 19 x)) (shr 10 x).

(** The round constants are the first 32 fractional bits of the cube roots
    of the first 64 primes, the initial hash value those of the square
    roots of the first 8. *)

Definition is_prime (n : Z) : bool :=
  (1 <? n) &&
  forallb (λ d, negb (n mod d =? 0))
          (map Z.of_nat (seq 2 (Z.to_nat (Z.sqrt n) - 1))).

Definition primes64 : list Z := Eval vm_compute in
  firstn 64 (filter (λ n, is_prime n = true) (map Z.of_nat (seq 2 400))).

Fixpoint cbrt_bisect (fuel : nat) (lo hi n : Z) : Z :=
  match fuel with
  | O => lo
  | S f =>
      if hi - lo <=? 1 then lo
      else let mid := (lo + hi) / 2 in
           if mid * mid * mid <=? n then cbrt_bisect f mid hi n
           else cbrt_bisect f lo mid n
  end.

Definition icbrt (n : Z) : Z := cbrt_bisect 200 0 (n + 1) n.

Definition K : list Z := Eval vm_compute in
  map (λ p, w32 (icbrt (p * 2 ^ 96))) primes64.

Definition H0 : list Z := Eval vm_compute in
  map (λ p, w32 (Z.sqrt (p * 2 ^ 64))) (firstn 8 primes64).

(** Big-endian conversions. *)
Definition be_bytes (n : nat) (x : Z) : list Z :=
  map (λ i, (Z.shiftr x (8 * Z.of_nat i)) mod 256) (rev (seq 0 n)).

Definition be_word (bs : list Z) : Z :=
  fold_left (λ acc b, acc * 256 + b) bs 0.

Definition pad (msg : list Z) : list Z :=
  let len := Z.of_nat (length msg) in
  let zeros := Z.to_nat ((55 - len) mod 64) in
  msg ++ 128 :: List.repeat 0 zeros ++ be_bytes 8 (8 * len).

Fixpoint chunks {A : Type} (fuel n : nat) (l : list A) : list (list A) :=
  match fuel with
  | O => []
  | S f =>
      match l with
      | [] => []
      | _ => firstn n l :: chunks f n (skipn n l)
      end
  end.

Definition words_of_block (blk : list Z) : list Z :=
  map be_word (chunks 16 4 blk).

(** The message schedule, kept most recent word first while it grows. *)
Fixpoint extend (n : nat) (wrev : list Z) : list Z :=
  match n with
  | O => wrev
  | S n' =>
      let w := add32 (add32 (ssig1 (nth 1 wrev 0)) (nth 6 wrev 0))
                     (add32 (ssig0 (nth 14 wrev 0)) (nth 15 wrev 0)) in
      extend n' (w :: wrev)
  end.

Definition schedule (blk : list Z) : list Z :=
  rev (extend 48 (rev (words_of_block blk))).

Record regs : Type := Regs {
  ra : Z; rb : Z; rc : Z; rd : Z; re : Z; rf : Z; rg : Z; rh : Z
}.

Definition round (r : regs) (kw : Z * Z) : regs :=
  let t1 := add32 (add32 (add32 (rh r) (bsig1 (re r)))
                         (add32 (Ch (re r) (rf r) (rg r)) (fst kw)))
                  (snd kw) in
  let t2 := add32 (bsig0 (ra r)) (Maj (ra r) (rb r) (rc r)) in
  Regs (add32 t1 t2) (ra r) (rb r) (rc r)
       (add32 (rd r) t1) (re r) (rf r) (rg r).

Definition compress (h : regs) (blk : list Z) : regs :=
  let r := fold_left round (combine K (schedule blk)) h in
  Regs (add32 (ra h) (ra r)) (add32 (rb h) (rb r))
       (add32 (rc h) (rc r)) (add32 (rd h) (rd r))
       (add32 (re h) (re r)) (add32 (rf h) (rf r))
       (add32 (rg h) (rg r)) (add32 (rh h) (rh r)).

Definition init : regs :=
  Regs (nth 0 H0 0) (nth 1 H0 0) (nth 2 H0 0) (nth 3 H0 0)
       (nth 4 H0 0) (nth 5 H0 0) (nth 6 H0 0) (nth 7 H0 0).

Definition digest (msg : list Z) : list Z :=
  let p := pad msg in
  let r := fold_left compress (chunks (length p) 64 p) init in
  concat (map (be_bytes 4) [ra r; rb r; rc r; rd r; re r; rf r; rg r; rh r]).

Definition hex_digit (v : Z) : ascii :=
  match String.get (Z.to_nat v) "0123456789abcdef" with
  | Some c => c
  | None => "?"%char
  end.

(** [digest('hex')] of Node's [createHash]. *)
Definition hex (b : list Z) : string :=
  string_of_list_ascii
    (concat (map (λ x, [hex_digit (x / 16); hex_digit (x mod 16)]) b)).

End Sha256.

(** ** Base64: [btoa] and tweetnacl-util's [encodeBase64]/[decodeBase64] *)

Module Base64.

Definition alphabet : string :=
  "ABCDEFGHIJKLMNOPQRSTUVWXYZabcdefghijklmnopqrstuvwxyz0123456789+/".

Definition enc (i : Z) : ascii :=
  match String.get (Z.to_nat i) alphabet with
  | Some c => c
  | None => "="%char
  end.

Fixpoint encode_aux (fuel : nat) (b : list Z) : string :=
  match fuel with
  | O => EmptyString
  | S f =>
      match b with
      | [] => EmptyString
      | [x] =>
          String (enc (x / 4)) (String (enc ((x mod 4) * 16)) "==")
      | [x; y] =>
          String (enc (x / 4))
            (String (enc ((x mod 4) * 16 + y / 16))
               (String (enc ((y mod 16) * 4)) "="))
      | x :: y :: z :: r =>
          String (enc (x / 4))
            (String (enc ((x mod 4) * 16 + y / 16))
               (String (enc ((y mod 16) * 4 + z / 64))
                  (String (enc (z mod 64)) (encode_aux f r))))
      end
  end.

(** [btoa(String.fromCharCode(...b))], also [encodeBase64(b)]. *)
Definition encode (b : list Z) : string := encode_aux (S (length b)) b.

Fixpoint index_of (c : ascii) (s : string) (i : Z) : option Z :=
  match s with
  | EmptyString => None
  | String d s' => if Ascii.eqb c d then Some i else index_of c s' (i + 1)
  end.

Definition dec (c : ascii) : option Z := index_of c alphabet 0.

Definition is_pad (c : ascii) : bool := Ascii.eqb c "="%char.

(** Groups of four alphabet characters, the last one possibly padded with
    one or two [=]: the language of tweetnacl-util's [validateBase64]. *)
Fixpoint decode (s : list ascii) : option (list Z) :=
  match s with
  | [] => Some []
  | a :: b :: c :: d :: r =>
      match dec a, dec b with
      | Some x, Some y =>
          match dec c, dec d, r with
          | Some z, Some w, _ =>
              option_map
                (app [x * 4 + y / 16; (y mod 16) * 16 + z / 4; (z mod 4) * 64 + w])
                (decode r)
          | Some z, None, [] =>
              if is_pad d then Some [x * 4 + y / 16; (y mod 16) * 16 + z / 4]
              else None
          | None, None, [] =>
              if is_pad c && is_pad d then Some [x * 4 + y / 16] else None
          | _, _, _ => None
          end
      | _, _ => None
      end
  | _ => None
  end.

(** [decodeBase64(s)]: throws [TypeError('invalid encoding')] when [s] is
    not valid padded base64. *)
Definition decodeBase64 (s : string) : Outcome (list Z) :=
  match decode (list_ascii_of_string s) with
  | Some b => Ok b
  | None => Throw (TypeError "invalid encoding")
  end.

End Base64.

(** [btoa(String.fromCharCode(...new Uint8Array(await
    crypto.subtle.digest('SHA-256', new TextEncoder().encode(data)))))] *)
Definition sha256_b64 (data : string) : string :=
  Base64.encode (Sha256.digest (Bytes.of_string data)).

(** [createHash('sha256').update(str).digest('hex')] *)
Definition sha256_hex (data : string) : string :=
  Sha256.hex (Sha256.digest (Bytes.of_string data)).

(** The digests are computed by evaluation only; proof search never
    unfolds them. *)
#[global] Opaque sha256_b64 sha256_hex.

(** ** JavaScript values, [JSON.stringify] and the operators the code uses *)

Module Json.

(** The values that flow through the audit trail and the agent API:
    numbers are the integers the code produces (timestamps, counts, all
    far below 10^21, where JavaScript still prints plain decimals). An
    object is its list of own properties in insertion order. *)
Inductive val : Type :=
| VUndef
| VNull
| VBool (b : bool)
| VNum (n : Z)
| VStr (s : string)
| VArr (l : list val)
| VObj (fields : list (string * val)).

Definition dquote : ascii := ascii_of_nat 34.

Definition str1 (c : ascii) : string := String c EmptyString.

(** One code unit of [QuoteJSONString]. *)
Definition escape_char (c : ascii) : string :=
  let n := Z.of_N (N_of_ascii c) in
  if n =? 34 then "\" +:+ str1 dquote
  else if n =? 92 then "\\"
  else if n =? 8 then "\b"
  else if n =? 9 then "\t"
  else if n =? 10 then "\n"
  else if n =? 12 then "\f"
  else if n =? 13 then "\r"
  else if n <? 32 then
    "\u00" +:+ str1 (Sha256.hex_digit (n / 16)) +:+ str1 (Sha256.hex_digit (n mod 16))
  else str1 c.

Fixpoint escape (s : string) : string :=
  match s with
  | EmptyString => EmptyString
  | String c s' => escape_char c +:+ escape s'
  end.

Definition quote (s : string) : string :=
  str1 dquote +:+ escape s +:+ str1 dquote.

(** [JSON.stringify(v)]: [None] is the result [undefined]. A property
    whose value is [undefined] is left out of an object; an [undefined]
    array element is written [null]. *)
Fixpoint stringify (v : val) : option string :=
  match v with
  | VUndef => None
  | VNull => Some "null"
  | VBool b => Some (if b then "true" else "false")
  | VNum n => Some (pretty n)
  | VStr s => Some (quote s)
  | VArr l =>
      Some ("[" +:+ JsString.join ","
                      (map (λ x, default "null" (stringify x)) l) +:+ "]")
  | VObj fields =>
      Some ("{" +:+ JsString.join ","
                      (omap (λ kx, (λ s, quote (fst kx) +:+ ":" +:+ s)
                                     <$> stringify (snd kx)) fields) +:+ "}")
  end.

(** [JSON.stringify] of an object literal: always a string. *)
Definition stringify_obj (fields : list (string * val)) : string :=
  default "{}" (stringify (VObj fields)).

Fixpoint lookup_field (k : string) (fields : list (string * val)) : val :=
  match fields with
  | [] => VUndef
  | (k', x) :: r => if String.eqb k k' then x else lookup_field k r
  end.

(** [v?.k]: property access that yields [undefined] on a nullish
    receiver. Arrays and strings have a [length]. *)
Definition opt_get (v : val) (k : string) : val :=
  match v with
  | VObj fields => lookup_field k fields
  | VArr l => if String.eqb k "length" then VNum (Z.of_nat (length l)) else VUndef
  | VStr s => if String.eqb k "length" then VNum (Z.of_nat (String.length s)) else VUndef
  | _ => VUndef
  end.

(** [v.k]: property access, a [TypeError] on [null] and [undefined]. *)
Definition get (v : val) (k : string) : Outcome val :=
  match v with
  | VUndef => Throw (TypeError "Cannot read properties of undefined")
  | VNull => Throw (TypeError "Cannot read properties of null")
  | _ => Ok (opt_get v k)
  end.

(** [ToBoolean] *)
Definition truthy (v : val) : bool :=
  match v with
  | VUndef | VNull => false
  | VBool b => b
  | VNum n => negb (n =? 0)
  | VStr s => negb (String.eqb s EmptyString)
  | VArr _ | VObj _ => true
  end.

(** [a || b] *)
Definition or_else (a b : val) : val := if truthy a then a else b.

End Json.

(** ** Dates *)

Module JsDate.

(** A time value is the number of milliseconds since the epoch; a [Date]
    holds one only within 8.64e15 ms of the epoch. *)
Definition max_time : Z := 8640000000000000.

Definition valid_time (t : Z) : bool := (- max_time <=? t) && (t <=? max_time).

Definition ms_per_day : Z := 86400000.

(** Civil date of a day number (days since 1970-01-01), proleptic
    Gregorian calendar. *)
Definition civil_of_days (days : Z) : Z * Z * Z :=
  let z := days + 719468 in
  let era := z / 146097 in
  let doe := z - era * 146097 in
  let yoe := (doe - doe / 1460 + doe / 36524 - doe / 146096) / 365 in
  let doy := doe - (365 * yoe + yoe / 4 - yoe / 100) in
  let mp := (5 * doy + 2) / 153 in
  let d := doy - (153 * mp + 2) / 5 + 1 in
  let m := if mp <? 10 then mp + 3 else mp - 9 in
  let y := yoe + era * 400 + (if m <=? 2 then 1 else 0) in
  (y, m, d).

(** Decimal notation of a non-negative number, left-padded with zeros. *)
Definition pad_num (width : nat) (n : Z) : string :=
  let s := pretty n in
  JsString.repeat "0"%char (width - String.length s) +:+ s.

Definition format_year (y : Z) : string :=
  if (0 <=? y) && (y <=? 9999) then pad_num 4 y
  else if y <? 0 then "-" +:+ pad_num 6 (- y)
  else "+" +:+ pad_num 6 y.

(** [new Date(t).toISOString()]: a [RangeError] on an invalid date. *)
Definition toISOString (t : Z) : Outcome string :=
  if valid_time t then
    let days := t / ms_per_day in
    let ms := t mod ms_per_day in
    let '(y, m, d) := civil_of_days days in
    Ok (format_year y +:+ "-" +:+ pad_num 2 m +:+ "-" +:+ pad_num 2 d +:+ "T" +:+
        pad_num 2 (ms / 3600000) +:+ ":" +:+ pad_num 2 (ms / 60000 mod 60) +:+ ":" +:+
        pad_num 2 (ms / 1000 mod 60) +:+ "." +:+ pad_num 3 (ms mod 1000) +:+ "Z")
  else Throw (RangeError "Invalid time value").

End JsDate.

(** ** The syntax of serialized values

    Definitions for the statements about [JSON.stringify]: what plain
    JSON data is, and how the text of a value is laid out. *)

Module JsonSyntax.

Import Json.

Abbreviation chars := list_ascii_of_string.

(** A character of a number: a digit or the minus sign. *)
Definition num_char (c : ascii) : bool :=
  let n := nat_of_ascii c in ((48 <=? n)%nat && (n <=? 57)%nat) || (n =? 45)%nat.

(** A tail that cannot continue a number. *)
Definition delim (r : list ascii) : Prop :=
  match r with
  | [] => True
  | c :: _ => num_char c = false
  end.

(** The 256 characters, and two checks made on all of them: no escape is
    a prefix of another, and no escape begins with a double quote. *)
Definition all_ascii : list ascii := map ascii_of_nat (seq 0 256).

Definition escape_prefix_ok (c d : ascii) : bool :=
  if String.prefix (escape_char c) (escape_char d) then Ascii.eqb c d else true.

Definition escape_head_ok (c : ascii) : bool :=
  match escape_char c with
  | EmptyString => false
  | String a _ => negb (Ascii.eqb a dquote)
  end.

(** A value of plain JSON data: no [undefined] anywhere inside. *)
Fixpoint plain (v : val) : bool :=
  match v with
  | VUndef => false
  | VArr l => forallb plain l
  | VObj fields => forallb (λ kx, plain (snd kx)) fields
  | _ => true
  end.

(** The text of an array element or a property value. *)
Definition elem (v : val) : string := default "null" (stringify v).

(** The text of a property. *)
Definition member (kx : string * val) : string :=
  quote (fst kx) +:+ ":" +:+ elem (snd kx).

(** The characters of [l.join(",")] after its first item, with a closing
    bracket and a tail: every item is preceded by a comma. *)
Fixpoint items (l : list string) (close : ascii) (r : list ascii) : list ascii :=
  match l with
  | [] => close :: r
  | x :: l' => ","%char :: chars x ++ items l' close r
  end.

(** The first character of a serialized value tells its kind. *)
Definition head_ok (v : val) (c : ascii) : Prop :=
  match v with
  | VUndef => False
  | VNull => c = "n"%char
  | VBool b => c = if b then "t"%char else "f"%char
  | VNum _ => num_char c = true
  | VStr _ => c = dquote
  | VArr _ => c = "["%char
  | VObj _ => c = "{"%char
  end.

Definition same_kind (a b : val) : Prop :=
  match a, b with
  | VNull, VNull => True
  | VBool x, VBool y => x = y
  | VNum _, VNum _ | VStr _, VStr _ | VArr _, VArr _ | VObj _, VObj _ => True
  | _, _ => False
  end.

(** An item of a bracketed sequence is decoded in one way only: whatever
    follows it, provided that cannot continue a number. *)
Definition item_unique {A : Type} (f : A → string) (P : A → Prop) (x : A) : Prop :=
  ∀ y ta tb, P y → delim ta → delim tb →
    chars (f x) ++ ta = chars (f y) ++ tb → x = y ∧ ta = tb.

End JsonSyntax.

(** ** Scope matching *)

Module Scope.

Import JsString.

(** [matchScope] of [lib/proofi-sdk.js]: a scope is a path pattern. *)
Definition matchScope (pattern required : string) : bool :=
  if String.eqb pattern required then true
  else if endsWith pattern "/*" then
    let prefix := slice_to_neg pattern 2 in
    startsWith required prefix
  else false.

(** [token.scopes.some(s => matchScope(s, requiredScope))] *)
Definition someScope (scopes : list string) (required : string) : bool :=
  existsb (λ s, matchScope s required) scopes.

(** A scope entry of a capability token ([crypto.ts]). *)
Record ScopeEntry : Type := mkScope {
  path : string;
  permissions : list string
}.

(** [Array.prototype.includes] on an array of strings. *)
Definition array_includes (l : list string) (x : string) : bool :=
  existsb (String.eqb x) l.

(** [hasScope] of [crypto.ts], on the token's [scopes] array; the
    permission defaults to ['read'] at the call. *)
Definition hasScope (scopes : list ScopeEntry)
    (requiredPath permission : string) : bool :=
  existsb (λ scope,
    includes (path scope) requiredPath &&
    array_includes (permissions scope) permission) scopes.

End Scope.

(** ** The browser SDK: access tokens, audit trail, agent execution *)

Module Sdk.

Import Json.

(** A token as [createAccessToken] builds it. [createdAt] and [expiresAt]
    hold the time value of the ISO-8601 string the code stores:
    [new Date(t).toISOString()] read back by [new Date(...)] is [t]. *)
Record Token : Type := mkToken {
  tokenId : string;
  agentId : string;
  scopes : list string;
  createdAt : Z;
  expiresAt : Z;
  agentKey : string;
  revoked : bool
}.

Record AuditEntry : Type := mkEntry {
  timestamp : Z;
  action : string;
  details : val;
  prevHash : string;
  hash : string
}.

Record WalletState : Type := mkWallet {
  address : string;
  email : string
}.

(** The fields of a [ProofiSDK] instance ([decryptionKey] is never used). *)
Record ProofiSDK : Type := mkSDK {
  wallet : option WalletState;
  auditChain : list AuditEntry;
  tokens : gmap string Token
}.

(** [new ProofiSDK()] *)
Definition new_sdk : ProofiSDK := mkSDK None [] ∅.

(** [window.__proofi_extension__] *)
Record Extension : Type := mkExtension {
  connected : bool;
  ext_address : string;
  ext_email : string;
  signMessage : option (string → Outcome string)
}.

(** What one run reads from its surroundings: the injected extension, the
    [k]-th reading of the clock, the [k]-th draw of [n] random bytes, and
    the agent API ([fetch] followed by [res.json()]). *)
Record Env : Type := mkEnv {
  extension : option Extension;
  clock : nat → Z;
  random : nat → nat → list Z;
  fetch_json : string → string → Outcome val
}.

Definition getWalletState (env : Env) : option WalletState :=
  match extension env with
  | Some ext =>
      if connected ext then Some (mkWallet (ext_address ext) (ext_email ext))
      else None
  | None => None
  end.

(** *** Scoped access tokens *)

Definition createAccessToken (rnd_id rnd_key : list Z) (t_created t_now : Z)
    (agent : string) (scopes : list string) (durationMs : Z)
    (sdk : ProofiSDK) : Outcome Token * ProofiSDK :=
  let tokenId := Base64.encode rnd_id in
  let agentKey := Base64.encode rnd_key in
  match JsDate.toISOString t_created, JsDate.toISOString (t_now + durationMs) with
  | Ok _, Ok _ =>
      let token := mkToken tokenId agent scopes t_created (t_now + durationMs)
                           agentKey false in
      (Ok token, mkSDK (wallet sdk) (auditChain sdk) (<[tokenId := token]> (tokens sdk)))
  | Throw e, _ => (Throw e, sdk)
  | _, Throw e => (Throw e, sdk)
  end.

Inductive Verdict : Type :=
| Valid (token : Token)
| Invalid (reason : string).

(** [validateToken(tokenId, requiredScope)] at clock reading [now]; an
    omitted [requiredScope] is [None]. The instance is returned with the
    verdict, as every method of the mutable SDK object is modelled. *)
Definition validateToken (now : Z) (tokenId : string)
    (requiredScope : option string) (sdk : ProofiSDK) : Verdict * ProofiSDK :=
  match tokens sdk !! tokenId with
  | None => (Invalid "Token not found", sdk)
  | Some token =>
      if revoked token then (Invalid "Token revoked", sdk)
      else if expiresAt token <? now then (Invalid "Token expired", sdk)
      else
        match requiredScope with
        | Some required =>
            if negb (String.eqb required EmptyString) &&
               negb (Scope.someScope (scopes token) required)
            then (Invalid ("Scope " +:+ required +:+ " not granted"), sdk)
            else (Valid token, sdk)
        | None => (Valid token, sdk)
        end
  end.

Definition revoke (token : Token) : Token :=
  mkToken (tokenId token) (agentId token) (scopes token) (createdAt token)
          (expiresAt token) (agentKey token) true.

(** [revokeToken(tokenId)]: the stored token object is updated in place. *)
Definition revokeToken (tokenId : string) (sdk : ProofiSDK) : ProofiSDK :=
  match tokens sdk !! tokenId with
  | Some token =>
      mkSDK (wallet sdk) (auditChain sdk) (<[tokenId := revoke token]> (tokens sdk))
  | None => sdk
  end.

(** *** Audit trail *)

Definition genesis : string := JsString.repeat "0"%char 64.

(** [JSON.stringify] of an entry without its [hash] property. *)
Definition entry_json (ts : Z) (action : string) (details : val)
    (prevHash : string) : string :=
  stringify_obj [("timestamp", VNum ts); ("action", VStr action);
                 ("details", details); ("prevHash", VStr prevHash)].

Definition rest_json (entry : AuditEntry) : string :=
  entry_json (timestamp entry) (action entry) (details entry) (prevHash entry).

Definition addAuditEntry (now : Z) (action : string) (details : val)
    (sdk : ProofiSDK) : AuditEntry * ProofiSDK :=
  let prevHash :=
    match last (auditChain sdk) with
    | Some e => hash e
    | None => genesis
    end in
  let data := entry_json now action details prevHash in
  let entry := mkEntry now action details prevHash (sha256_b64 data) in
  (entry, mkSDK (wallet sdk) (auditChain sdk ++ [entry]) (tokens sdk)).

Inductive ChainVerdict : Type :=
| ChainValid (entries : nat)
| ChainBroken (brokenAt : nat) (reason : string).

(** The body of the loop of [verifyChain] at index [i]: the reason of a
    failure, if any. *)
Definition check_entry (chain : list AuditEntry) (i : nat) : option string :=
  match chain !! i with
  | None => None
  | Some entry =>
      let expectedPrev :=
        if (i =? 0)%nat then genesis
        else match chain !! (i - 1)%nat with
             | Some p => hash p
             | None => EmptyString
             end in
      if negb (String.eqb (prevHash entry) expectedPrev)
      then Some "prevHash mismatch"
      else if negb (String.eqb (sha256_b64 (rest_json entry)) (hash entry))
      then Some "Hash mismatch"
      else None
  end.

(** The loop from index [i] with [remaining] iterations to go. *)
Fixpoint verify_loop (chain : list AuditEntry) (remaining i : nat) : ChainVerdict :=
  match remaining with
  | O => ChainValid (length chain)
  | S r =>
      match check_entry chain i with
      | Some reason => ChainBroken i reason
      | None => verify_loop chain r (S i)
      end
  end.

Definition verifyChain (sdk : ProofiSDK) : ChainVerdict :=
  verify_loop (auditChain sdk) (length (auditChain sdk)) 0.

Definition chain_valid (v : ChainVerdict) : bool :=
  match v with ChainValid _ => true | ChainBroken _ _ => false end.

(** *** Agent execution *)

Record AgentMeta : Type := mkMeta {
  id : string;
  version : string;
  requiredData : list string;
  optionalData : list string;
  accessDuration : option string;
  apiRoute : string
}.

Definition is_digit (c : ascii) : bool :=
  let n := nat_of_ascii c in (48 <=? n)%nat && (n <=? 57)%nat.

Fixpoint all_digits (s : string) : bool :=
  match s with
  | EmptyString => true
  | String c s' => is_digit c && all_digits s'
  end.

(** [parseInt] of a string of decimal digits. *)
Fixpoint parse_digits (s : string) (acc : Z) : Z :=
  match s with
  | EmptyString => acc
  | String c s' => parse_digits s' (acc * 10 + (Z.of_nat (nat_of_ascii c) - 48))
  end.

(** [parseDuration]: the pattern is one or more digits and a unit letter.
    The product is exact below 2^53, and every larger duration already
    makes [createAccessToken] fail with an invalid date. *)
Definition parseDuration (str : option string) : Z :=
  match str with
  | None => 3600000
  | Some s =>
      let n := String.length s in
      let digits := substring 0 (n - 1) s in
      let unit := substring (n - 1) 1 s in
      if (2 <=? n)%nat && all_digits digits then
        if String.eqb unit "h" then parse_digits digits 0 * 3600000
        else if String.eqb unit "m" then parse_digits digits 0 * 60000
        else if String.eqb unit "s" then parse_digits digits 0 * 1000
        else 3600000
      else 3600000
  end.

(** The object [executeAgent] returns: the properties of [result] and an
    [audit] summary (the constant [sovereignty] block is left out). *)
Record ExecResult : Type := mkExec {
  result : val;
  audit_tokenId : string;
  audit_entries : nat;
  audit_chainValid : bool;
  audit_signed : bool
}.

Definition str_or (s fallback : string) : string :=
  if String.eqb s EmptyString then fallback else s.

Definition insight_count (result ins : val) : Outcome val :=
  analysis ← get result "analysis";
  brief ← get result "brief";
  Ok (or_else (or_else (or_else (opt_get (opt_get ins "insights") "length")
                                (opt_get (opt_get analysis "trends") "length"))
                       (opt_get (opt_get brief "wins") "length"))
              (VNum 0)).

Definition scores_of (result ins : val) : Outcome val :=
  brief ← get result "brief";
  Ok (or_else (or_else (opt_get ins "scores") (opt_get brief "scores")) VNull).

(** Step 7 of [executeAgent]: sign the tail of the chain when a connected
    wallet offers [signMessage]; a failure is only warned about. The
    second component is the [signature] variable afterwards. *)
Definition sign_chain (env : Env) (w : option WalletState)
    (sdk : ProofiSDK) : option string * ProofiSDK :=
  match w, extension env with
  | Some wallet, Some ext =>
      match signMessage ext with
      | Some sign =>
          let chainHash :=
            match last (auditChain sdk) with
            | Some e => hash e
            | None => EmptyString
            end in
          match sign chainHash with
          | Ok signature =>
              let '(_, sdk') :=
                addAuditEntry (clock env 7) "CHAIN_SIGNED"
                  (VObj [("signature", VStr (JsString.slice_to signature 20 +:+ "..."));
                         ("signer", VStr (address wallet))]) sdk in
              (Some signature, sdk')
          | Throw _ => (None, sdk)
          end
      | None => (None, sdk)
      end
  | _, _ => (None, sdk)
  end.

Definition executeAgent (env : Env) (agentMeta : AgentMeta)
    (healthData : list (string * list val)) (goals : val)
    (ollamaEndpoint : string) (sdk : ProofiSDK) : Outcome ExecResult * ProofiSDK :=
  let w := getWalletState env in
  (* 1. Log wallet connection *)
  let '(_, sdk) :=
    addAuditEntry (clock env 0) "WALLET_CONNECTED"
      (VObj [("walletAddress",
              VStr (match w with Some x => str_or (address x) "local" | None => "local" end));
             ("extensionConnected", VBool (bool_decide (is_Some w)))]) sdk in
  (* 2. Create scoped access token *)
  let scopes :=
    map (λ d, "health/" +:+ d +:+ "/*") (requiredData agentMeta) ++
    map (λ d, "health/" +:+ d +:+ "/*") (optionalData agentMeta) in
  let durationMs := parseDuration (accessDuration agentMeta) in
  match createAccessToken (random env 0 16) (random env 1 15)
          (clock env 1) (clock env 2) (id agentMeta) scopes durationMs sdk with
  | (Throw e, sdk) => (Throw e, sdk)
  | (Ok token, sdk) =>
      let '(_, sdk) :=
        addAuditEntry (clock env 3) "TOKEN_CREATED"
          (VObj [("tokenId", VStr (tokenId token));
                 ("agentId", VStr (id agentMeta));
                 ("scopes", VArr (map VStr (Sdk.scopes token)));
                 ("expiresAt",
                  match JsDate.toISOString (expiresAt token) with
                  | Ok s => VStr s
                  | Throw _ => VUndef
                  end);
                 ("agentKey", VStr (agentKey token))]) sdk in
      (* 3. Run agent via local Ollama *)
      let totalRecords :=
        fold_left (λ s a, s + Z.of_nat (length (snd a))) healthData 0 in
      let '(_, sdk) :=
        addAuditEntry (clock env 4) "AGENT_EXECUTED"
          (VObj [("tokenId", VStr (tokenId token));
                 ("agentId", VStr (id agentMeta));
                 ("agentVersion", VStr (version agentMeta));
                 ("recordsAnalyzed", VNum totalRecords);
                 ("processingLocation", VStr "local");
                 ("model", VStr "ollama/llama3.2")]) sdk in
      (* 4. Call the local agent API *)
      match fetch_json env (ollamaEndpoint +:+ "/api/agent/" +:+ apiRoute agentMeta)
                       (stringify_obj [("goals", goals)]) with
      | Throw e => (Throw e, sdk)
      | Ok result =>
          (* 5. Log analysis complete *)
          match (processingTime ← get result "processingTime";
                 ins ← get result "insights";
                 count ← insight_count result ins;
                 scores ← scores_of result ins;
                 Ok (VObj [("tokenId", VStr (tokenId token));
                           ("agentId", VStr (id agentMeta));
                           ("processingTime", processingTime);
                           ("insightCount", count);
                           ("scores", scores)])) with
          | Throw e => (Throw e, sdk)
          | Ok details =>
              let '(_, sdk) := addAuditEntry (clock env 5) "ANALYSIS_COMPLETE" details sdk in
              (* 6. Revoke token (access window closed) *)
              let sdk := revokeToken (tokenId token) sdk in
              let '(_, sdk) :=
                addAuditEntry (clock env 6) "TOKEN_REVOKED"
                  (VObj [("tokenId", VStr (tokenId token));
                         ("reason", VStr "analysis_complete")]) sdk in
              (* 7. Sign the audit chain if wallet available *)
              let '(signature, sdk) := sign_chain env w sdk in
              (Ok (mkExec result (tokenId token) (length (auditChain sdk))
                          (chain_valid (verifyChain sdk))
                          (match signature with
                           | Some s => negb (String.eqb s EmptyString)
                           | None => false
                           end)),
               sdk)
          end
      end
  end.

(** *** Export *)

(** An entry of the chain as the JavaScript object it is. *)
Definition entry_val (e : AuditEntry) : val :=
  VObj [("timestamp", VNum (timestamp e)); ("action", VStr (action e));
        ("details", details e); ("prevHash", VStr (prevHash e));
        ("hash", VStr (hash e))].

(** [exportAudit(meta)] at clock reading [now]. The object it returns is
    read property by property, so it is a map from property names to
    values: [version], [exportedAt] and [wallet] come first, the
    properties of [meta] are spread over them, and [entries] and
    [verification] are written last. *)
Definition exportAudit (now : Z) (meta : gmap string val)
    (sdk : ProofiSDK) : Outcome (gmap string val) :=
  exportedAt ← JsDate.toISOString now;
  let head : gmap string val :=
    <["wallet" := VStr (match wallet sdk with
                        | Some w => str_or (address w) "unknown"
                        | None => "unknown"
                        end)]>
      (<["exportedAt" := VStr exportedAt]> {["version" := VStr "1.0"]}) in
  Ok (<["verification" :=
          VObj [("algorithm", VStr "SHA-256");
                ("chainValid", VBool true);
                ("finalHash",
                 match last (auditChain sdk) with
                 | Some e => VStr (hash e)
                 | None => VNull
                 end)] ]>
        (<["entries" := VArr (map entry_val (auditChain sdk))]> (meta ∪ head))).

(** *** DDC data access *)

(** What [fetchFromDDC] reads of a [fetch] response: [res.ok] and the
    outcome of [res.text()]. *)
Record Response : Type := mkResponse {
  ok : bool;
  text : Outcome string
}.

(** Cere CDN first, DDC Dragon as the fallback. *)
Definition ddc_urls (bucketId cid : string) : list string :=
  ["https://cdn.cere.network/" +:+ bucketId +:+ "/" +:+ cid;
   "https://cdn.ddc-dragon.com/" +:+ bucketId +:+ "/" +:+ cid].

(** The loop over the addresses: a rejected [fetch] (the ten-second
    timeout included), a response that is not [ok] and a body that cannot
    be read all lead to the next address. *)
Fixpoint try_urls (fetch : string → Outcome Response) (urls : list string) : option string :=
  match urls with
  | [] => None
  | url :: rest =>
      match fetch url with
      | Ok res =>
          if ok res then
            match text res with
            | Ok body => Some body
            | Throw _ => try_urls fetch rest
            end
          else try_urls fetch rest
      | Throw _ => try_urls fetch rest
      end
  end.

Definition fetchFromDDC (fetch : string → Outcome Response)
    (bucketId cid : string) : Outcome string :=
  match try_urls fetch (ddc_urls bucketId cid) with
  | Some body => Ok body
  | None =>
      Throw (Error ("Failed to fetch from DDC: bucket=" +:+ bucketId +:+
                    ", cid=" +:+ cid))
  end.

End Sdk.

(** ** The agent's keypair store ([keys.ts]) *)

Module Keys.

Import Json.

(** Keypair in memory. *)
Record AgentKeypair : Type := mkKeypair {
  publicKey : list Z;
  privateKey : list Z
}.

(** The part of the file system the module touches: the [keys] directory
    and the file [keys/agent-keypair.json] with its permission bits. *)
Record FS : Type := mkFS {
  keys_dir : bool;
  keypair_file : option string;
  keypair_mode : option Z
}.

Inductive LogLine : Type :=
| Log (message : string)
| LogError (message : string) (error : Exn).

(** The state the module acts on: the disk and what was written to the
    console so far. *)
Record World : Type := mkWorld {
  fs : FS;
  console : list LogLine
}.

(** What a call reads from the platform: [JSON.parse], what
    [decodeBase64] does with an argument that is not a string (this
    depends on the branch of tweetnacl-util in use), the keypair that
    [nacl.box.keyPair()] draws, the clock, and whether [chmod] works. *)
Record Platform : Type := mkPlatform {
  JSON_parse : string → Outcome val;
  decode_non_string : val → Outcome (list Z);
  box_keyPair : AgentKeypair;
  date_now : Z;
  chmod_works : bool
}.

Definition say (line : LogLine) (w : World) : World :=
  mkWorld (fs w) (console w ++ [line]).

Definition KEYS_DIR : string := "keys".
Definition KEYPAIR_FILE : string := "keys/agent-keypair.json".

Definition ensureKeysDir (w : World) : World :=
  if keys_dir (fs w) then w
  else say (Log ("[keys] Created keys directory: " +:+ KEYS_DIR))
           (mkWorld (mkFS true (keypair_file (fs w)) (keypair_mode (fs w)))
                    (console w)).

(** [generateKeypair] *)
Definition generateKeypair (p : Platform) : AgentKeypair :=
  mkKeypair (publicKey (box_keyPair p)) (privateKey (box_keyPair p)).

Definition LF : string := String (ascii_of_nat 10) EmptyString.

(** [JSON.stringify(stored, null, 2)] of the stored record. *)
Definition stored_json (publicKey privateKey createdAt algorithm : string) : string :=
  "{" +:+ LF +:+
  "  " +:+ quote "publicKey" +:+ ": " +:+ quote publicKey +:+ "," +:+ LF +:+
  "  " +:+ quote "privateKey" +:+ ": " +:+ quote privateKey +:+ "," +:+ LF +:+
  "  " +:+ quote "createdAt" +:+ ": " +:+ quote createdAt +:+ "," +:+ LF +:+
  "  " +:+ quote "algorithm" +:+ ": " +:+ quote algorithm +:+ LF +:+
  "}".

(** [saveKeypair] *)
Definition saveKeypair (p : Platform) (keypair : AgentKeypair)
    (w : World) : Outcome unit * World :=
  let w := ensureKeysDir w in
  match JsDate.toISOString (date_now p) with
  | Throw e => (Throw e, w)
  | Ok createdAt =>
      let content :=
        stored_json (Base64.encode (publicKey keypair))
                    (Base64.encode (privateKey keypair)) createdAt "X25519" in
      let mode :=
        if chmod_works p then Some 384
        else match keypair_file (fs w) with
             | Some _ => keypair_mode (fs w)
             | None => None
             end in
      let w := mkWorld (mkFS (keys_dir (fs w)) (Some content) mode) (console w) in
      (Ok tt, say (Log ("[keys] Saved new keypair to: " +:+ KEYPAIR_FILE)) w)
  end.

(** [decodeBase64] applied to a property of the parsed record. *)
Definition decodeBase64 (p : Platform) (v : val) : Outcome (list Z) :=
  match v with
  | VStr s => Base64.decodeBase64 s
  | _ => decode_non_string p v
  end.

(** The body of the [try] block of [loadKeypair]. *)
Definition read_keypair (p : Platform) (content : string) : Outcome AgentKeypair :=
  stored ← JSON_parse p content;
  pk ← get stored "publicKey";
  publicKey ← decodeBase64 p pk;
  sk ← get stored "privateKey";
  privateKey ← decodeBase64 p sk;
  Ok (mkKeypair publicKey privateKey).

(** [loadKeypair]: [None] is the result [null]. *)
Definition loadKeypair (p : Platform) (w : World) : option AgentKeypair * World :=
  match keypair_file (fs w) with
  | None => (None, w)
  | Some content =>
      match read_keypair p content with
      | Ok keypair => (Some keypair, w)
      | Throw error =>
          (None, say (LogError "[keys] Failed to load keypair:" error) w)
      end
  end.

(** [getOrCreateKeypair] *)
Definition getOrCreateKeypair (p : Platform) (w : World) : Outcome AgentKeypair * World :=
  match loadKeypair p w with
  | (Some keypair, w) =>
      (Ok keypair, say (Log "[keys] Loaded existing keypair") w)
  | (None, w) =>
      let w := say (Log "[keys] Generating new X25519 keypair...") w in
      let keypair := generateKeypair p in
      match saveKeypair p keypair w with
      | (Ok _, w) => (Ok keypair, w)
      | (Throw e, w) => (Throw e, w)
      end
  end.

(** [deleteKeypair] *)
Definition deleteKeypair (w : World) : bool * World :=
  match keypair_file (fs w) with
  | Some _ =>
      (true, say (Log "[keys] Deleted keypair")
                 (mkWorld (mkFS (keys_dir (fs w)) None None) (console w)))
  | None => (false, w)
  end.

(** [getPublicKeyBase64] and [getPrivateKeyBase64] *)
Definition getPublicKeyBase64 (keypair : AgentKeypair) : string :=
  Base64.encode (publicKey keypair).

Definition getPrivateKeyBase64 (keypair : AgentKeypair) : string :=
  Base64.encode (privateKey keypair).

(** A platform for the examples: its [JSON.parse] knows the text [ "{}" ]
    and rejects the text [ "{ corrupted" ], as every [JSON.parse] does;
    all other texts are left as syntax errors, which the examples never
    reach. *)
Definition sample_platform : Platform :=
  mkPlatform
    (λ s, if String.eqb s "{}" then Ok (VObj []) else Throw (SyntaxError "Unexpected token"))
    (λ _, Throw (TypeError "invalid encoding"))
    (mkKeypair [1; 2; 3] [4; 5; 6])
    1700000000000
    true.

End Keys.

(** ** Capability-token crypto utilities ([crypto.ts]) *)

Module Crypto.

Import Json.

Record WrappedDEK : Type := mkWrapped {
  ciphertext : string;
  ephemeralPublicKey : string;
  nonce : string
}.

(** The primitives of tweetnacl and of Node's [crypto] the module calls.
    [box_open msg nonce publicKey secretKey] is [nacl.box.open]: it throws
    on a key or nonce of the wrong size and returns [None] (the result
    [null]) when authentication fails. [sign_verify] is
    [nacl.sign.detached.verify]. [aes_gcm_open key iv tag data] is
    [createDecipheriv('aes-256-gcm', key, iv)], [setAuthTag(tag)],
    [update(data)] and [final()]: it throws when the tag does not
    authenticate. [decode_non_string] is as in the key store. *)
Record Primitives : Type := mkPrimitives {
  box_open : list Z → list Z → list Z → list Z → Outcome (option (list Z));
  sign_verify : list Z → list Z → list Z → Outcome bool;
  aes_gcm_open : list Z → list Z → list Z → list Z → Outcome (list Z);
  decode_non_string : val → Outcome (list Z)
}.

Definition unwrap_failed : Exn :=
  Error "DEK unwrapping failed - invalid key or corrupted data".

(** [unwrapDEK] *)
Definition unwrapDEK (prim : Primitives) (wrappedDEK : WrappedDEK)
    (recipientPrivateKey : list Z) : Outcome (list Z) :=
  ciphertext ← Base64.decodeBase64 (ciphertext wrappedDEK);
  ephemeralPubKey ← Base64.decodeBase64 (ephemeralPublicKey wrappedDEK);
  nonce ← Base64.decodeBase64 (nonce wrappedDEK);
  dek ← box_open prim ciphertext nonce ephemeralPubKey recipientPrivateKey;
  match dek with
  | None => Throw unwrap_failed
  | Some dek => Ok dek
  end.


(** *** Token objects

    A received token is a mutable JavaScript object. The store maps a
    reference to the object's own properties in insertion order, so that
    copying ([{...token}]) and [delete] can be told apart from an update
    of the token itself: a store is a [gmap nat (list (string * val))]. *)

(** [delete o.k] *)
Definition delete_field (k : string) (o : list (string * val)) : list (string * val) :=
  filter (λ kx, fst kx ≠ k) o.

(** A reference no object of the store has. *)
Definition fresh_loc (h : gmap nat (list (string * val))) : nat := fresh (dom h).

Definition decodeBase64 (prim : Primitives) (v : val) : Outcome (list Z) :=
  match v with
  | VStr s => Base64.decodeBase64 s
  | _ => decode_non_string prim v
  end.

(** [verifyTokenSignature]: the statements of the source one by one, on
    the store. *)
Definition verifyTokenSignature (prim : Primitives) (token : nat)
    (issuerPublicKey : list Z) (h : gmap nat (list (string * val))) : Outcome bool * gmap nat (list (string * val)) :=
  match h !! token with
  | None => (Throw (TypeError "Cannot read properties of undefined"), h)
  | Some fields =>
      (* const payload = { ...token }; *)
      let payload := fresh_loc h in
      let h := <[payload := fields]> h in
      (* delete payload.sig; delete payload.sigAlg; *)
      let h := alter (delete_field "sig") payload h in
      let h := alter (delete_field "sigAlg") payload h in
      (* const message = JSON.stringify(payload); *)
      let message := stringify_obj (default [] (h !! payload)) in
      (* const signature = decodeBase64(token.sig); *)
      let sig := lookup_field "sig" (default [] (h !! token)) in
      (signature ← decodeBase64 prim sig;
       let messageBytes := Bytes.of_string message in
       sign_verify prim messageBytes signature issuerPublicKey,
       h)
  end.

(** [a < n] for a property typed [number]: any other value compares as
    [NaN] does. *)
Definition num_lt (a : val) (n : Z) : bool :=
  match a with
  | VNum x => x <? n
  | _ => false
  end.

(** [isTokenExpired], with the reading [date_now] of [Date.now()]. *)
Definition isTokenExpired (date_now : Z) (token : nat)
    (h : gmap nat (list (string * val))) : Outcome bool * gmap nat (list (string * val)) :=
  match h !! token with
  | None => (Throw (TypeError "Cannot read properties of undefined"), h)
  | Some fields =>
      let now := date_now / 1000 in
      (Ok (num_lt (lookup_field "exp" fields) now), h)
  end.

(** Primitives for the examples: a box that never authenticates and a
    signature check that accepts exactly the signature equal to the
    message. *)
Definition sample_primitives : Primitives :=
  mkPrimitives
    (λ _ _ _ _, Ok None)
    (λ msg sig _, Ok (bool_decide (msg = sig)))
    (λ _ _ _ _, Throw (Error "Unsupported state or unable to authenticate data"))
    (λ _, Throw (TypeError "invalid encoding")).

End Crypto.

(** ** The agent's audit log ([audit.ts]) *)

Module Audit.

Import Json.

(** The type [AuditAction]: the eleven actions an entry can carry. *)
Inductive AuditAction : Type :=
| token_received
| token_validated
| token_rejected
| dek_unwrapped
| data_fetched
| data_decrypted
| inference_started
| inference_completed
| output_encrypted
| output_stored
| error.

#[global] Instance AuditAction_eq_dec : EqDecision AuditAction.
Proof. solve_decision. Defined.

(** The string an action is at run time. *)
Definition action_name (a : AuditAction) : string :=
  match a with
  | token_received => "token_received"
  | token_validated => "token_validated"
  | token_rejected => "token_rejected"
  | dek_unwrapped => "dek_unwrapped"
  | data_fetched => "data_fetched"
  | data_decrypted => "data_decrypted"
  | inference_started => "inference_started"
  | inference_completed => "inference_completed"
  | output_encrypted => "output_encrypted"
  | output_stored => "output_stored"
  | error => "error"
  end.

Record Hashes : Type := mkHashes {
  input : option string;
  output : option string
}.

Record AuditEntry : Type := mkEntry {
  id : string;
  timestamp : string;
  action : AuditAction;
  details : list (string * val);
  hashes : Hashes;
  duration_ms : option Z
}.

(** The fields [entries] and [sessionId] of the [AuditLog] instance, and
    what was printed on the console. *)
Record World : Type := mkWorld {
  entries : list AuditEntry;
  sessionId : string;
  console : list string
}.

(** [`audit_${Date.now()}_${randomId()}`], with the clock reading and the
    eight characters [randomId] drew. *)
Definition new_session (now : Z) (rnd : string) : string :=
  "audit_" +:+ pretty now +:+ "_" +:+ rnd.

(** [new AuditLog()] *)
Definition new_log (now : Z) (rnd : string) : World :=
  mkWorld [] (new_session now rnd) [].

(** [log(action, details, hashes)] at clock reading [now]. *)
Definition log (now : Z) (action : AuditAction) (details : list (string * val))
    (hashes : Hashes) (w : World) : Outcome AuditEntry * World :=
  let id := sessionId w +:+ "_" +:+ pretty (length (entries w)) in
  match JsDate.toISOString now with
  | Throw e => (Throw e, w)
  | Ok timestamp =>
      let entry := mkEntry id timestamp action details hashes None in
      (Ok entry,
       mkWorld (entries w ++ [entry]) (sessionId w)
         (console w ++ ["[AUDIT] " +:+ timestamp +:+ " | " +:+ action_name action +:+
                        " | " +:+ stringify_obj details]))
  end.

Definition set_duration (d : Z) (e : AuditEntry) : AuditEntry :=
  mkEntry (id e) (timestamp e) (action e) (details e) (hashes e) (Some d).

(** [logWithTiming(action, startTime, details, hashes)]: the entry that
    [log] pushed is the object that then gets its [duration_ms], at the
    second clock reading [now']. *)
Definition logWithTiming (now now' : Z) (action : AuditAction) (startTime : Z)
    (details : list (string * val)) (hashes : Hashes)
    (w : World) : Outcome AuditEntry * World :=
  match log now action details hashes w with
  | (Ok entry, w') =>
      (Ok (set_duration (now' - startTime) entry),
       mkWorld (alter (set_duration (now' - startTime)) (length (entries w)) (entries w'))
               (sessionId w') (console w'))
  | (Throw e, w') => (Throw e, w')
  end.

(** [getEntries()]: a copy of the array. *)
Definition getEntries (w : World) : list AuditEntry := entries w.

(** [actions[k] = (actions[k] || 0) + 1] on the object [actions], whose
    properties are kept in insertion order. *)
Fixpoint bump (k : string) (actions : list (string * Z)) : list (string * Z) :=
  match actions with
  | [] => [(k, 0 + 1)]
  | (k', n) :: rest =>
      if String.eqb k k' then (k', (if n =? 0 then 0 else n) + 1) :: rest
      else (k', n) :: bump k rest
  end.

Record Summary : Type := mkSummary {
  summary_sessionId : string;
  totalOperations : nat;
  actions : list (string * Z);
  summary_entries : list AuditEntry
}.

(** [getSummary()] *)
Definition getSummary (w : World) : Summary :=
  mkSummary (sessionId w) (length (entries w))
    (fold_left (λ acc entry, bump (action_name (action entry)) acc) (entries w) [])
    (entries w).

(** [clear()] *)
Definition clear (now : Z) (rnd : string) (w : World) : World :=
  mkWorld [] (new_session now rnd) (console w).

(** *** Definitions used to state the properties of the log *)

(** [actions[k] || 0] *)
Fixpoint count_of (k : string) (actions : list (string * Z)) : Z :=
  match actions with
  | [] => 0
  | (k', n) :: rest => if String.eqb k k' then n else count_of k rest
  end.

(** Every entry carries the session name and its own index. *)
Definition numbered (w : World) : Prop :=
  ∀ i e, entries w !! i = Some e → id e = sessionId w +:+ "_" +:+ pretty i.

(** The calls that write to the log. *)
Inductive Call : Type :=
| CallLog (now : Z) (action : AuditAction) (details : list (string * val))
    (hashes : Hashes)
| CallLogWithTiming (now now' : Z) (action : AuditAction) (startTime : Z)
    (details : list (string * val)) (hashes : Hashes).

Definition run_call (c : Call) (w : World) : World :=
  match c with
  | CallLog now action details hashes => snd (log now action details hashes w)
  | CallLogWithTiming now now' action startTime details hashes =>
      snd (logWithTiming now now' action startTime details hashes w)
  end.

Definition run_calls (cs : list Call) (w : World) : World :=
  fold_left (λ w c, run_call c w) cs w.

End Audit.

(** ** Definitions used to state the properties *)

Module Props.

Import Json Sdk.

(** A sequence of [addAuditEntry] calls, each awaited before the next:
    the clock reading, the action and the details of every call. *)
Definition append_all (inputs : list (Z * string * val))
    (sdk : ProofiSDK) : ProofiSDK :=
  fold_left (λ s i, snd (addAuditEntry (fst (fst i)) (snd (fst i)) (snd i) s))
            inputs sdk.

(** [entry.details = d]: an edit of a stored entry. *)
Definition set_details (d : val) (e : AuditEntry) : AuditEntry :=
  mkEntry (timestamp e) (action e) d (prevHash e) (hash e).

(** The instance after [this.auditChain[i].details = d]. *)
Definition tamper (i : nat) (d : val) (sdk : ProofiSDK) : ProofiSDK :=
  mkSDK (wallet sdk) (alter (set_details d) i (auditChain sdk)) (tokens sdk).



Definition with_tokens (m : gmap string Token) (sdk : ProofiSDK) : ProofiSDK :=
  mkSDK (wallet sdk) (auditChain sdk) m.

(** The calls a page can make on an SDK instance after a run. *)
Inductive Call : Type :=
| CallCreate (rnd_id rnd_key : list Z) (t_created t_now : Z)
    (agent : string) (scopes : list string) (durationMs : Z)
| CallValidate (now : Z) (tokenId : string) (requiredScope : option string)
| CallRevoke (tokenId : string)
| CallAudit (now : Z) (action : string) (details : val)
| CallExecute (env : Env) (agentMeta : AgentMeta)
    (healthData : list (string * list val)) (goals : val) (ollamaEndpoint : string).

Definition run_call (c : Call) (sdk : ProofiSDK) : ProofiSDK :=
  match c with
  | CallCreate rnd_id rnd_key t_created t_now agent scopes durationMs =>
      snd (createAccessToken rnd_id rnd_key t_created t_now agent scopes durationMs sdk)
  | CallValidate now tokenId requiredScope =>
      snd (validateToken now tokenId requiredScope sdk)
  | CallRevoke tokenId => revokeToken tokenId sdk
  | CallAudit now action details => snd (addAuditEntry now action details sdk)
  | CallExecute env agentMeta healthData goals ollamaEndpoint =>
      snd (executeAgent env agentMeta healthData goals ollamaEndpoint sdk)
  end.

Definition run_calls (cs : list Call) (sdk : ProofiSDK) : ProofiSDK :=
  fold_left (λ s c, run_call c s) cs sdk.

(** The token identifier a call draws from the random generator, if it
    creates a token. *)
Definition drawn_id (c : Call) : option string :=
  match c with
  | CallCreate rnd_id _ _ _ _ _ _ => Some (Base64.encode rnd_id)
  | CallExecute env _ _ _ _ => Some (Base64.encode (random env 0 16))
  | _ => None
  end.

(** The hash expected in [prevHash] at index [i]. *)
Definition expected_prev (chain : list AuditEntry) (i : nat) : string :=
  if (i =? 0)%nat then genesis
  else match chain !! (i - 1)%nat with
       | Some p => hash p
       | None => EmptyString
       end.

(** Every entry carries the hash of its predecessor and its own digest. *)
Definition linked (chain : list AuditEntry) : Prop :=
  ∀ i e, chain !! i = Some e →
    prevHash e = expected_prev chain i ∧ hash e = sha256_b64 (rest_json e).

(** The token [tokenId] is held by the instance and revoked. *)
Definition revoked_in (tokenId : string) (sdk : ProofiSDK) : Prop :=
  ∃ t, tokens sdk !! tokenId = Some t ∧ revoked t = true.

(** The three base64 fields of a wrapped key decode to [c], [e], [n]. *)
Definition decodes (w : Crypto.WrappedDEK) (c e n : list Z) : Prop :=
  Base64.decodeBase64 (Crypto.ciphertext w) = Ok c ∧
  Base64.decodeBase64 (Crypto.ephemeralPublicKey w) = Ok e ∧
  Base64.decodeBase64 (Crypto.nonce w) = Ok n.

(** The properties of the copy that [verifyTokenSignature] serializes:
    those of the token without [sig] and [sigAlg]. *)
Definition signed_fields (fields : list (string * val)) : list (string * val) :=
  Crypto.delete_field "sigAlg" (Crypto.delete_field "sig" fields).

(** The instance with another array as its chain: what is left after
    entries were removed from [this.auditChain]. *)
Definition with_chain (chain : list AuditEntry) (sdk : ProofiSDK) : ProofiSDK :=
  mkSDK (wallet sdk) chain (tokens sdk).

(** [entry.hash = s] and [entry.prevHash = s]: edits of a stored entry. *)
Definition set_hash (s : string) (e : AuditEntry) : AuditEntry :=
  mkEntry (timestamp e) (action e) (details e) (prevHash e) s.

Definition set_prevHash (s : string) (e : AuditEntry) : AuditEntry :=
  mkEntry (timestamp e) (action e) (details e) s (hash e).

(** The instance after an edit [f] of the entry at index [i]. *)
Definition edit (f : AuditEntry → AuditEntry) (i : nat) (sdk : ProofiSDK) : ProofiSDK :=
  mkSDK (wallet sdk) (alter f i (auditChain sdk)) (tokens sdk).

(** The entry at index [i] passes both checks of [verifyChain]. *)
Definition passes (chain : list AuditEntry) (i : nat) : Prop :=
  ∀ e, chain !! i = Some e →
    prevHash e = expected_prev chain i ∧ hash e = sha256_b64 (rest_json e).

(** The actions of the entries appended to the chain of [sdk] on the way
    to [sdk']. *)
Definition appended_actions (sdk sdk' : ProofiSDK) : list string :=
  map action (drop (length (auditChain sdk)) (auditChain sdk')).

End Props.

(** ** Sample data for the examples *)

Module Samples.

Import Json Sdk.

(** A token for agent [agent-A], issued at time 0 for one hour. *)
Definition token_A : Token :=
  mkToken "tok" "agent-A" ["health/steps/*"] 0 3600000 "key-A" false.

Definition sdk_A : ProofiSDK := mkSDK None [] {[ "tok" := token_A ]}.

(** A received capability token whose [exp] is 3600000 seconds. *)
Definition capability : list (string * val) :=
  [("v", VNum 1); ("id", VStr "cap-1"); ("iss", VStr "did:user");
   ("sub", VStr "agent-pk"); ("iat", VNum 3596400); ("exp", VNum 3600000);
   ("sig", VStr "YWJj"); ("sigAlg", VStr "ed25519")].

Definition heap_A : gmap nat (list (string * val)) := {[ 0%nat := capability ]}.

(** Three awaited [addAuditEntry] calls. *)
Definition audit_inputs : list (Z * string * val) :=
  [(1700000000000, "WALLET_CONNECTED",
    VObj [("walletAddress", VStr "local"); ("extensionConnected", VBool false)]);
   (1700000000250, "TOKEN_CREATED",
    VObj [("tokenId", VStr "tok"); ("agentId", VStr "agent-A")]);
   (1700000009000, "TOKEN_REVOKED",
    VObj [("tokenId", VStr "tok"); ("reason", VStr "analysis_complete")])].

(** The details of the second entry with one byte changed ([tok] to
    [tol]). *)
Definition forged_details : val :=
  VObj [("tokenId", VStr "tol"); ("agentId", VStr "agent-A")].

(** A run of the health analyzer: a connected wallet that signs, a
    clock that advances one second per reading, and an agent API that
    answers with two insights. *)
Definition sample_env : Env :=
  mkEnv
    (Some (mkExtension true "5GrwvaEF5zXb26Fz9rcQpDWS57CtERHpNehXCPcNoHGKutQY"
             "user@example.org" (Some (λ h, Ok ("0xsig-" +:+ h)))))
    (λ k, 1700000000000 + 1000 * Z.of_nat k)
    (λ k n, List.repeat (Z.of_nat k + 7) n)
    (λ _ _, Ok (VObj [("processingTime", VNum 1234);
                      ("insights",
                       VObj [("insights", VArr [VStr "sleep debt"; VStr "more steps"]);
                             ("scores", VObj [("sleep", VNum 80)])])])).

Definition sample_meta : AgentMeta :=
  mkMeta "health-analyzer" "1.0.0" ["steps"; "sleep"] ["mood"] (Some "1h") "health".

Definition sample_health : list (string * list val) :=
  [("steps", [VNum 6000; VNum 7200]); ("sleep", [VNum 7])].

Definition sample_run : Outcome ExecResult * ProofiSDK :=
  executeAgent sample_env sample_meta sample_health
    (VArr [VStr "sleep better"]) "http://localhost:3000" new_sdk.

(** The same run against an agent API that cannot be reached. *)
Definition offline_env : Env :=
  mkEnv (extension sample_env) (clock sample_env) (random sample_env)
        (λ _ _, Throw (TypeError "Failed to fetch")).

Definition offline_run : Outcome ExecResult * ProofiSDK :=
  executeAgent offline_env sample_meta sample_health
    (VArr [VStr "sleep better"]) "http://localhost:3000" new_sdk.

(** What the run returned. *)
Definition sample_result : ExecResult :=
  match fst sample_run with
  | Ok r => r
  | Throw _ => mkExec VUndef EmptyString 0 false false
  end.

(** The instance after the three appends, and its second entry. *)
Definition chain_sdk : ProofiSDK := Props.append_all audit_inputs new_sdk.

Definition second_entry : AuditEntry :=
  default (mkEntry 0 EmptyString VNull EmptyString EmptyString)
          (auditChain chain_sdk !! 1%nat).

(** A token created on a fresh instance at 2023-11-14T22:13:20Z for one
    hour, from the random bytes 1, 2, 3 and 4, 5, 6. *)
Definition created : Outcome Token * ProofiSDK :=
  createAccessToken [1; 2; 3] [4; 5; 6] 1700000000000 1700000000000
    "agent-A" ["health/steps/*"] 3600000 new_sdk.

Definition created_token : Token :=
  mkToken "AQID" "agent-A" ["health/steps/*"] 1700000000000 1700003600000
          "BAUG" false.

(** The export of the chain whose second entry was edited. *)
Definition exported : gmap string val :=
  match exportAudit 1700000010000 ∅ (Props.tamper 1 forged_details chain_sdk) with
  | Ok out => out
  | Throw _ => ∅
  end.

(** A network in which only the Cere CDN serves the bucket. *)
Definition sample_fetch (url : string) : Outcome Response :=
  if String.eqb url "https://cdn.cere.network/bucket-1/cid-1"
  then Ok (mkResponse true (Ok "payload"))
  else Throw (TypeError "Failed to fetch").

(** An empty disk, and the platform of a later start of the agent: another
    clock reading, another keypair in the generator, and a [JSON.parse]
    that reads the file the first start wrote. *)
Definition empty_disk : Keys.World :=
  Keys.mkWorld (Keys.mkFS false None None) [].

Definition restarted_platform : Keys.Platform :=
  Keys.mkPlatform
    (λ s, if String.eqb s (Keys.stored_json "AQID" "BAUG" "2023-11-14T22:13:20.000Z" "X25519")
          then Ok (VObj [("publicKey", VStr "AQID"); ("privateKey", VStr "BAUG");
                         ("createdAt", VStr "2023-11-14T22:13:20.000Z");
                         ("algorithm", VStr "X25519")])
          else Throw (SyntaxError "Unexpected token"))
    (λ _, Throw (TypeError "invalid encoding"))
    (Keys.mkKeypair [9; 9; 9] [8; 8; 8])
    1800000000000
    true.

(** The capability token with a signature that is not base64. *)
Definition capability_bad_sig : list (string * val) :=
  [("v", VNum 1); ("id", VStr "cap-1"); ("exp", VNum 3600000);
   ("sig", VStr "not base64!"); ("sigAlg", VStr "ed25519")].

(** An audit log of the agent after three operations. *)
Definition logged : Audit.World :=
  Audit.run_calls
    [Audit.CallLog 1700000000000 Audit.token_received
       [("tokenId", VStr "cap-1")] (Audit.mkHashes None None);
     Audit.CallLogWithTiming 1700000000100 1700000000350 Audit.data_decrypted
       1700000000000 [("path", VStr "health/metrics")] (Audit.mkHashes None None);
     Audit.CallLog 1700000000400 Audit.token_received [] (Audit.mkHashes None None)]
    (Audit.clear 1700000000000 "k3j9x2ab" (Audit.new_log 1690000000000 "aaaaaaaa")).

End Samples.

(** * Properties *)

(** ** The platform functions against known values *)

Module PlatformChecks.

Import Json.

(** FIPS 180-4 test vectors, and the first and last round constants. *)
Example sha256_empty :
  sha256_hex EmptyString = "e3b0c44298fc1c149afbf4c8996fb92427ae41e4649b934ca495991b7852b855".
Proof. vm_compute. reflexivity. Qed.

Example sha256_abc :
  sha256_hex "abc" = "ba7816bf8f01cfea414140de5dae2223b00361a396177a9cb410ff61f20015ad".
Proof. vm_compute. reflexivity. Qed.

Example sha256_two_blocks :
  sha256_hex "abcdbcdecdefdefgefghfghighijhijkijkljklmklmnlmnomnopnopq" =
  "248d6a61d20638b8e5c026930c3e6039a33ce45964ff2167f6ecedd419db06c1".
Proof. vm_compute. reflexivity. Qed.

Example sha256_constants :
  nth 0 Sha256.K 0 = 0x428a2f98 ∧ nth 63 Sha256.K 0 = 0xc67178f2 ∧
  nth 0 Sha256.H0 0 = 0x6a09e667 ∧ nth 7 Sha256.H0 0 = 0x5be0cd19.
Proof. vm_compute. by repeat split. Qed.

Example base64_encode :
  map (λ s, Base64.encode (Bytes.of_string s)) ["a"; "ab"; "abc"; "abcd"] =
  ["YQ=="; "YWI="; "YWJj"; "YWJjZA=="].
Proof. vm_compute. reflexivity. Qed.

Example base64_decode :
  Base64.decodeBase64 "YWJjZA==" = Ok [97; 98; 99; 100] ∧
  Base64.decodeBase64 EmptyString = Ok [] ∧
  Base64.decodeBase64 "YWJj=" = Throw (TypeError "invalid encoding") ∧
  Base64.decodeBase64 "YW=j" = Throw (TypeError "invalid encoding") ∧
  Base64.decodeBase64 "YWJjZA==YWJj" = Throw (TypeError "invalid encoding").
Proof. vm_compute. by repeat split. Qed.

Example toISOString_values :
  JsDate.toISOString 0 = Ok "1970-01-01T00:00:00.000Z" ∧
  JsDate.toISOString 1700000000000 = Ok "2023-11-14T22:13:20.000Z" ∧
  JsDate.toISOString 1709164800123 = Ok "2024-02-29T00:00:00.123Z" ∧
  JsDate.toISOString (-1) = Ok "1969-12-31T23:59:59.999Z" ∧
  JsDate.toISOString 8640000000000000 = Ok "+275760-09-13T00:00:00.000Z" ∧
  JsDate.toISOString 8640000000000001 = Throw (RangeError "Invalid time value").
Proof. vm_compute. by repeat split. Qed.

Example stringify_values :
  stringify (VObj [("a", VNum 3); ("b", VUndef);
                   ("c", VArr [VUndef; VNull; VStr "x\y"; VBool true]);
                   ("d", VObj []); ("e", VNum (-12))]) =
  Some (String.concat (str1 dquote)
          ["{"; "a"; ":3,"; "c"; ":[null,null,"; "x\\y"; ",true],"; "d"; ":{},"; "e"; ":-12}"]).
Proof. vm_compute. reflexivity. Qed.

Example parseDuration_values :
  map Sdk.parseDuration
      [None; Some EmptyString; Some "1h"; Some "30m"; Some "45s"; Some "h"; Some "1d"; Some "1.5h"] =
  [3600000; 3600000; 3600000; 1800000; 45000; 3600000; 3600000; 3600000].
Proof. vm_compute. reflexivity. Qed.

End PlatformChecks.

(** ** String primitives *)

Module JsStringFacts.

Import JsString.

Lemma append_cons (a : ascii) (s t : string) :
  String a s +:+ t = String a (s +:+ t).
Proof. reflexivity. Qed.

Lemma append_nil_l (s : string) : EmptyString +:+ s = s.
Proof. reflexivity. Qed.

Lemma prefix_app (p r : string) : String.prefix p (p +:+ r) = true.
Proof.
  induction p as [|a p IH]; simpl.
  - by destruct r.
  - destruct (ascii_dec a a); [exact IH | congruence].
Qed.

Lemma prefix_split (p s : string) :
  String.prefix p s = true → ∃ r, s = p +:+ r.
Proof.
  revert s. induction p as [|a p IH]; intros s H.
  - by exists s.
  - destruct s as [|b s]; simpl in H; [discriminate|].
    destruct (ascii_dec a b) as [->|]; [|discriminate].
    destruct (IH _ H) as [r ->]. by exists r.
Qed.

Lemma startsWith_spec (s p : string) :
  startsWith s p = true ↔ ∃ r, s = p +:+ r.
Proof.
  split; [apply prefix_split|]. intros [r ->]. apply prefix_app.
Qed.

Lemma length_append (s t : string) :
  String.length (s +:+ t) = (String.length s + String.length t)%nat.
Proof. induction s; simpl; auto. Qed.

Lemma substring_all (s : string) : substring 0 (String.length s) s = s.
Proof. induction s; simpl; congruence. Qed.

Lemma substring_app_l (s t : string) :
  substring 0 (String.length s) (s +:+ t) = s.
Proof.
  induction s as [|a s IH]; simpl.
  - by destruct t.
  - by rewrite IH.
Qed.

Lemma substring_app_r (s t : string) :
  substring (String.length s) (String.length t) (s +:+ t) = t.
Proof.
  induction s as [|a s IH]; simpl; [apply substring_all | exact IH].
Qed.

Lemma substring_split (s : string) (n : nat) :
  (n ≤ String.length s)%nat →
  s = substring 0 n s +:+ substring n (String.length s - n) s.
Proof.
  revert n. induction s as [|a s IH]; intros n Hn; simpl in *.
  - by destruct n.
  - destruct n as [|n]; simpl.
    + by rewrite substring_all.
    + rewrite append_cons. f_equal. apply IH. lia.
Qed.

Lemma endsWith_spec (s p : string) :
  endsWith s p = true ↔ ∃ r, s = r +:+ p.
Proof.
  unfold endsWith. rewrite andb_true_iff, Nat.leb_le, String.eqb_eq. split.
  - intros [Hle Heq].
    exists (substring 0 (String.length s - String.length p) s).
    pose proof (substring_split s (String.length s - String.length p)) as Hs.
    replace (String.length s - (String.length s - String.length p))%nat
      with (String.length p) in Hs by lia.
    rewrite Heq in Hs. apply Hs. lia.
  - intros [r ->]. rewrite length_append. split; [lia|].
    replace (String.length r + String.length p - String.length p)%nat
      with (String.length r) by lia.
    apply substring_app_r.
Qed.

Lemma slice_to_neg_app (r p : string) :
  slice_to_neg (r +:+ p) (String.length p) = r.
Proof.
  unfold slice_to_neg. rewrite length_append.
  replace (String.length r + String.length p - String.length p)%nat
    with (String.length r) by lia.
  apply substring_app_l.
Qed.

Lemma includes_nil (p : string) :
  includes EmptyString p = String.prefix p EmptyString.
Proof. unfold includes. apply orb_false_r. Qed.

Lemma includes_cons (a : ascii) (s p : string) :
  includes (String a s) p = String.prefix p (String a s) || includes s p.
Proof. reflexivity. Qed.

Lemma includes_spec (s p : string) :
  includes s p = true ↔ ∃ l r, s = l +:+ p +:+ r.
Proof.
  induction s as [|a s IH].
  - rewrite includes_nil. split.
    + intros H. destruct (prefix_split _ _ H) as [r Hr]. by exists EmptyString, r.
    + intros (l & r & H). destruct l; [|discriminate].
      destruct p; [reflexivity | discriminate].
  - rewrite includes_cons, orb_true_iff, IH. split.
    + intros [H | (l & r & ->)].
      * destruct (prefix_split _ _ H) as [r Hr]. by exists EmptyString, r.
      * by exists (String a l), r.
    + intros (l & r & H). destruct l as [|b l].
      * left. rewrite append_nil_l in H. rewrite H. apply prefix_app.
      * right. rewrite append_cons in H. injection H as _ ->. by exists l, r.
Qed.

End JsStringFacts.

(** ** Scope matching *)

Module ScopeFacts.

Import JsString JsStringFacts Scope.

(** What [matchScope] computes: an exact match, or a pattern [q/*] and a
    required path that begins with the characters of [q]. *)
Lemma matchScope_spec (pattern required : string) :
  matchScope pattern required = true ↔
  pattern = required ∨
  ∃ q t, pattern = q +:+ "/*" ∧ required = q +:+ t.
Proof.
  unfold matchScope.
  destruct (String.eqb_spec pattern required) as [->|Hne].
  - split; auto.
  - destruct (endsWith pattern "/*") eqn:Hends.
    + apply endsWith_spec in Hends as [q ->].
      change 2%nat with (String.length "/*").
      rewrite slice_to_neg_app, startsWith_spec. split.
      * intros [t ->]. right. by exists q, t.
      * intros [? | (q' & t & Hq & ->)]; [done|].
        assert (q' = q) as ->; [|by exists t].
        assert (String.length q' = String.length q) as Hlen.
        { apply (f_equal String.length) in Hq.
          rewrite !length_append in Hq. simpl in Hq. lia. }
        rewrite <- (substring_app_l q "/*"), Hq, <- Hlen.
        by rewrite substring_app_l.
    + split; [done|]. intros [? | (q & t & -> & _)]; [done|].
      assert (endsWith (q +:+ "/*") "/*" = true) as Habs
        by (apply endsWith_spec; by exists q).
      congruence.
Qed.

(** The two examples of the design document that the code meets. *)
Lemma matchScope_wildcard_child :
  matchScope "health/*" "health/steps" = true.
Proof. reflexivity. Qed.

Lemma matchScope_sibling :
  matchScope "health/steps" "health/sleep" = false.
Proof. reflexivity. Qed.

(** The wildcard pattern covers every path that merely begins with the
    same characters: the ['/'] of the pattern is dropped with the star. *)
Lemma matchScope_wildcard_prefix (q t : string) :
  matchScope (q +:+ "/*") (q +:+ t) = true.
Proof. apply matchScope_spec. right. by exists q, t. Qed.

(** [hasScope] looks for the required path inside the scope path. *)
Lemma hasScope_spec (scopes : list ScopeEntry) (requiredPath permission : string) :
  hasScope scopes requiredPath permission = true ↔
  ∃ scope, In scope scopes ∧
    (∃ l r, path scope = l +:+ requiredPath +:+ r) ∧
    In permission (permissions scope).
Proof.
  unfold hasScope. rewrite existsb_exists. split.
  - intros (scope & Hin & H). apply andb_true_iff in H as [Hp Hperm].
    exists scope. split; [done|]. split; [by apply includes_spec|].
    unfold array_includes in Hperm. apply existsb_exists in Hperm as (x & Hx & He).
    apply String.eqb_eq in He. by subst.
  - intros (scope & Hin & Hp & Hperm). exists scope. split; [done|].
    apply andb_true_iff. split; [by apply includes_spec|].
    unfold array_includes. apply existsb_exists. exists permission.
    split; [done | apply String.eqb_refl].
Qed.

(** C1. The scope matcher is specified to grant a path under a wildcard
    scope only at a ['/']-bounded boundary: [matches("health/*",
    "health/steps")] true, [matches("health/*", "health")] false, never a
    bare substring. The code does otherwise at these inputs: [matchScope]
    grants [health] and [healthcare/records] under [health/*], and
    [hasScope] refuses [health/steps] under [health/*] while it grants
    [health] under the scope [health/steps]. *)
Theorem scope_matcher_boundary_divergence :
  matchScope "health/*" "health" = true ∧
  matchScope "health/*" "healthcare/records" = true ∧
  hasScope [mkScope "health/*" ["read"]] "health/steps" "read" = false ∧
  hasScope [mkScope "health/steps" ["read"]] "health" "read" = true.
Proof. repeat split; reflexivity. Qed.

End ScopeFacts.

(** ** Access tokens *)

Module TokenFacts.

Import Json Sdk Props Samples.

Lemma validateToken_frame (now : Z) (tokenId : string)
    (requiredScope : option string) (sdk : ProofiSDK) :
  snd (validateToken now tokenId requiredScope sdk) = sdk.
Proof.
  unfold validateToken. destruct (tokens sdk !! tokenId) as [t|]; [|done].
  destruct (revoked t); [done|]. destruct (expiresAt t <? now); [done|].
  destruct requiredScope as [r|]; [|done].
  by destruct (negb (String.eqb r EmptyString) && negb (Scope.someScope (scopes t) r)).
Qed.


Lemma validateToken_revoked now tokenId requiredScope sdk t :
  tokens sdk !! tokenId = Some t → revoked t = true →
  fst (validateToken now tokenId requiredScope sdk) = Invalid "Token revoked".
Proof. intros H Hr. unfold validateToken. by rewrite H, Hr. Qed.

Lemma validateToken_expired now tokenId requiredScope sdk t :
  tokens sdk !! tokenId = Some t → revoked t = false → expiresAt t < now →
  fst (validateToken now tokenId requiredScope sdk) = Invalid "Token expired".
Proof.
  intros H Hr He. unfold validateToken. rewrite H, Hr.
  apply Z.ltb_lt in He. by rewrite He.
Qed.

Lemma validateToken_scope_denied now tokenId required sdk t :
  tokens sdk !! tokenId = Some t → revoked t = false → now ≤ expiresAt t →
  required ≠ EmptyString → Scope.someScope (scopes t) required = false →
  fst (validateToken now tokenId (Some required) sdk) =
    Invalid ("Scope " +:+ required +:+ " not granted").
Proof.
  intros H Hr He Hne Hs. unfold validateToken. rewrite H, Hr, Hs.
  apply Z.ltb_ge in He. rewrite He.
  apply String.eqb_neq in Hne. by rewrite Hne.
Qed.

Lemma validateToken_valid now tokenId requiredScope sdk t :
  tokens sdk !! tokenId = Some t → revoked t = false → now ≤ expiresAt t →
  match requiredScope with
  | Some required =>
      required = EmptyString ∨ Scope.someScope (scopes t) required = true
  | None => True
  end →
  fst (validateToken now tokenId requiredScope sdk) = Valid t.
Proof.
  intros H Hr He Hs. unfold validateToken. rewrite H, Hr.
  apply Z.ltb_ge in He. rewrite He.
  destruct requiredScope as [r|]; [|done].
  destruct Hs as [-> | ->]; [done|]. by rewrite andb_false_r.
Qed.


Lemma isTokenExpired_frame (date_now : Z) (token : nat)
    (h : gmap nat (list (string * val))) :
  snd (Crypto.isTokenExpired date_now token h) = h.
Proof. unfold Crypto.isTokenExpired. destruct (h !! token); reflexivity. Qed.

Lemma isTokenExpired_spec (date_now : Z) (token : nat)
    (h : gmap nat (list (string * val))) (fields : list (string * val)) (e : Z) :
  h !! token = Some fields → lookup_field "exp" fields = VNum e →
  fst (Crypto.isTokenExpired date_now token h) = Ok (bool_decide (e < date_now / 1000)).
Proof.
  intros Hh He. unfold Crypto.isTokenExpired. rewrite Hh. simpl. rewrite He. simpl.
  f_equal. destruct (Z.ltb_spec e (date_now / 1000)).
  - by rewrite bool_decide_eq_true_2.
  - rewrite bool_decide_eq_false_2; [done | lia].
Qed.




(** C6, as the design document states it: a grant with [expiresAt <= now]
    is rejected as expired, whatever its other fields. At
    [expiresAt = now] the code still accepts, on both paths; and a revoked
    token that has also expired is reported as revoked. *)
Lemma expiry_boundary_accepted :
  expiresAt token_A ≤ 3600000 ∧
  fst (validateToken 3600000 "tok" None sdk_A) = Valid token_A ∧
  lookup_field "exp" capability = VNum 3600000 ∧
  fst (Crypto.isTokenExpired 3600000000 0 heap_A) = Ok false ∧
  fst (validateToken 7200000 "tok" None (revokeToken "tok" sdk_A)) =
    Invalid "Token revoked".
Proof. repeat split; vm_compute; congruence. Qed.

(** C6, amended. A grant is expired exactly when its expiry lies strictly
    before the current time: [validateToken] answers [Token expired] if
    and only if the token is known, not revoked and [expiresAt < now], and
    [isTokenExpired] answers [exp < floor(now / 1000)]. A grant that
    expires at the current instant still passes the time check. *)
Theorem expiry_is_strict :
  (∀ now tokenId requiredScope sdk,
     fst (validateToken now tokenId requiredScope sdk) = Invalid "Token expired" ↔
     ∃ t, tokens sdk !! tokenId = Some t ∧ revoked t = false ∧ expiresAt t < now) ∧
  (∀ date_now token (h : gmap nat (list (string * val))) fields e,
     h !! token = Some fields → lookup_field "exp" fields = VNum e →
     fst (Crypto.isTokenExpired date_now token h) =
       Ok (bool_decide (e < date_now / 1000))) ∧
  (∀ now tokenId requiredScope sdk t,
     tokens sdk !! tokenId = Some t → revoked t = false → expiresAt t = now →
     fst (validateToken now tokenId requiredScope sdk) ≠ Invalid "Token expired").
Proof.
  assert (∀ now tokenId requiredScope sdk,
     fst (validateToken now tokenId requiredScope sdk) = Invalid "Token expired" ↔
     ∃ t, tokens sdk !! tokenId = Some t ∧ revoked t = false ∧ expiresAt t < now)
    as Hiff.
  { intros now tokenId requiredScope sdk. split.
    - unfold validateToken. destruct (tokens sdk !! tokenId) as [t|]; [|done].
      destruct (revoked t) eqn:Hr; [done|].
      destruct (Z.ltb_spec (expiresAt t) now) as [Hlt|Hge].
      + intros _. by exists t.
      + destruct requiredScope as [r|]; [|done].
        destruct (negb (String.eqb r EmptyString) && negb (Scope.someScope (scopes t) r));
          [|done].
        simpl. intros H. discriminate H.
    - intros (t & Ht & Hr & He). by eapply validateToken_expired. }
  split; [exact Hiff|]. split; [apply isTokenExpired_spec|].
  intros now tokenId requiredScope sdk t Ht Hr He Habs.
  apply Hiff in Habs as (t' & Ht' & _ & Hlt).
  rewrite Ht in Ht'. injection Ht' as <-. lia.
Qed.

Lemma expiry_is_strict_witness :
  fst (validateToken 3600000 "tok" None sdk_A) ≠ Invalid "Token expired" ∧
  fst (Crypto.isTokenExpired 3600000000 0 heap_A) =
    Ok (bool_decide (3600000 < 3600000000 / 1000)).
Proof.
  destruct expiry_is_strict as (_ & Hexp & Hstrict). split.
  - apply (Hstrict 3600000 "tok" None sdk_A token_A); reflexivity.
  - apply (Hexp 3600000000 0%nat heap_A capability 3600000); reflexivity.
Defined.

End TokenFacts.

(** ** [JSON.stringify] *)

Module JsonFacts.

Import Json JsonSyntax.

Lemma chars_app (s t : string) : chars (s +:+ t) = chars s ++ chars t.
Proof. induction s as [|a s IH]; simpl; [done | by rewrite IH]. Qed.

Lemma chars_inj (s t : string) : chars s = chars t → s = t.
Proof.
  intros H. rewrite <- (string_of_list_ascii_of_string s),
    <- (string_of_list_ascii_of_string t). by rewrite H.
Qed.

(** *** Numbers *)

Lemma pretty_N_char_num (x : N) : num_char (pretty_N_char x) = true.
Proof. unfold pretty_N_char. by repeat case_match. Qed.

Lemma pretty_N_go_num (x : N) (s : string) :
  forallb num_char (chars s) = true →
  forallb num_char (chars (pretty_N_go x s)) = true.
Proof.
  revert s. induction (N.lt_wf_0 x) as [x _ IH]. intros s Hs.
  destruct (decide (x = 0)%N) as [->|Hx]; [by rewrite pretty_N_go_0|].
  rewrite pretty_N_go_step by lia. apply IH.
  - apply N.div_lt; lia.
  - simpl. by rewrite pretty_N_char_num, Hs.
Qed.

Lemma pretty_N_go_nonempty (x : N) (s : string) :
  s ≠ EmptyString → pretty_N_go x s ≠ EmptyString.
Proof.
  revert s. induction (N.lt_wf_0 x) as [x _ IH]. intros s Hs.
  destruct (decide (x = 0)%N) as [->|Hx]; [by rewrite pretty_N_go_0|].
  rewrite pretty_N_go_step by lia. apply IH; [apply N.div_lt; lia | done].
Qed.

Lemma pretty_N_num (x : N) :
  forallb num_char (chars (pretty x)) = true ∧ pretty x ≠ EmptyString.
Proof.
  unfold pretty, pretty_N. case_decide; [done|]. split.
  - by apply pretty_N_go_num.
  - rewrite pretty_N_go_step by lia. by apply pretty_N_go_nonempty.
Qed.

Lemma pretty_Z_num (n : Z) :
  forallb num_char (chars (pretty n)) = true ∧ pretty n ≠ EmptyString.
Proof.
  destruct n as [|p|p]; unfold pretty, pretty_Z; [done| |].
  - apply (pretty_N_num (N.pos p)).
  - split; [|done]. rewrite chars_app. simpl. apply (pretty_N_num (N.pos p)).
Qed.

Lemma num_span_unique (s1 s2 r1 r2 : list ascii) :
  forallb num_char s1 = true → forallb num_char s2 = true →
  delim r1 → delim r2 → s1 ++ r1 = s2 ++ r2 → s1 = s2 ∧ r1 = r2.
Proof.
  revert s2. induction s1 as [|c s1 IH]; intros [|d s2] H1 H2 D1 D2 Heq; simpl in *.
  - done.
  - subst r1. simpl in D1. apply andb_true_iff in H2 as [H2 _]. congruence.
  - subst r2. simpl in D2. apply andb_true_iff in H1 as [H1 _]. congruence.
  - injection Heq as -> Heq.
    apply andb_true_iff in H1 as [_ H1]. apply andb_true_iff in H2 as [_ H2].
    destruct (IH s2 H1 H2 D1 D2 Heq) as [-> ->]. done.
Qed.

(** *** Strings: the escapes form a prefix code *)

Lemma in_all_ascii (c : ascii) : In c all_ascii.
Proof.
  unfold all_ascii. apply in_map_iff. exists (nat_of_ascii c).
  split; [apply ascii_nat_embedding|].
  apply in_seq. pose proof (nat_ascii_bounded c). lia.
Qed.

Lemma forall_ascii (P : ascii → bool) :
  forallb P all_ascii = true → ∀ c, P c = true.
Proof. intros H c. rewrite forallb_forall in H. apply H, in_all_ascii. Qed.

Lemma escape_char_prefix (c d : ascii) :
  String.prefix (escape_char c) (escape_char d) = true → c = d.
Proof.
  assert (forallb (λ c, forallb (escape_prefix_ok c) all_ascii) all_ascii = true)
    as H by (vm_compute; reflexivity).
  pose proof (forall_ascii _ (forall_ascii _ H c) d) as Hcd.
  unfold escape_prefix_ok in Hcd. intros Hp. rewrite Hp in Hcd.
  by apply Ascii.eqb_eq.
Qed.

Lemma escape_char_head (c : ascii) :
  ∃ a rest, chars (escape_char c) = a :: rest ∧ a ≠ dquote.
Proof.
  assert (forallb escape_head_ok all_ascii = true) as H by (vm_compute; reflexivity).
  pose proof (forall_ascii _ H c) as Hc. unfold escape_head_ok in Hc.
  destruct (escape_char c) as [|a rest]; [done|].
  exists a, (chars rest). split; [done|].
  apply negb_true_iff, Ascii.eqb_neq in Hc. done.
Qed.

Lemma prefix_chars (p s : string) :
  String.prefix p s = true ↔ ∃ r, chars s = chars p ++ r.
Proof.
  split.
  - intros H. apply JsStringFacts.prefix_split in H as [r ->].
    exists (chars r). apply chars_app.
  - intros [r H]. assert (s = p +:+ string_of_list_ascii r) as ->.
    { apply chars_inj. by rewrite chars_app, list_ascii_of_string_of_list_ascii. }
    apply JsStringFacts.prefix_app.
Qed.

Lemma escape_char_unique (c d : ascii) (x y : list ascii) :
  chars (escape_char c) ++ x = chars (escape_char d) ++ y → c = d ∧ x = y.
Proof.
  intros H.
  assert (c = d) as ->.
  { apply app_eq_inv in H as [(k & Hk & _) | (k & Hk & _)].
    - symmetry. apply escape_char_prefix, prefix_chars. by exists k.
    - apply escape_char_prefix, prefix_chars. by exists k. }
  split; [done|]. by apply app_inv_head in H.
Qed.

Lemma escape_unique (s t : string) (x y : list ascii) :
  chars (escape s) ++ dquote :: x = chars (escape t) ++ dquote :: y →
  s = t ∧ x = y.
Proof.
  revert t. induction s as [|c s IH]; intros [|d t] H; simpl in H.
  - by injection H as ->.
  - rewrite chars_app in H.
    destruct (escape_char_head d) as (a & rest & Ha & Hne).
    rewrite Ha in H. simpl in H. injection H as H _. by symmetry in H.
  - rewrite chars_app in H.
    destruct (escape_char_head c) as (a & rest & Ha & Hne).
    rewrite Ha in H. simpl in H. by injection H as H _.
  - rewrite !chars_app, <- !app_assoc in H.
    apply escape_char_unique in H as [-> H].
    by destruct (IH t H) as [-> ->].
Qed.

Lemma quote_chars (s : string) :
  chars (quote s) = dquote :: chars (escape s) ++ [dquote].
Proof. unfold quote. by rewrite !chars_app. Qed.

Lemma quote_unique (s t : string) (x y : list ascii) :
  chars (quote s) ++ x = chars (quote t) ++ y → s = t ∧ x = y.
Proof.
  rewrite !quote_chars. simpl. rewrite <- !app_assoc. simpl.
  intros H. injection H as H. by apply escape_unique.
Qed.



(** *** Values *)

(** Induction on values through the lists they nest. *)
Lemma val_nested_ind (P : val → Prop) :
  P VUndef → P VNull → (∀ b, P (VBool b)) → (∀ n, P (VNum n)) → (∀ s, P (VStr s)) →
  (∀ l, Forall P l → P (VArr l)) →
  (∀ fields, Forall (λ kx, P (snd kx)) fields → P (VObj fields)) →
  ∀ v, P v.
Proof.
  intros Hu Hn Hb Hz Hs Ha Ho.
  fix IH 1. intros [| |b|n|s|l|fields]; [done..| |].
  - apply Ha. induction l as [|x l IHl]; constructor; [apply IH | exact IHl].
  - apply Ho. induction fields as [|[k x] fields IHf]; constructor;
      [apply IH | exact IHf].
Qed.

Lemma plain_stringify (v : val) : plain v = true → stringify v = Some (elem v).
Proof. unfold elem. by destruct v. Qed.

Lemma omap_cons_Some {A B : Type} (f : A → option B) (x : A) (l : list A) (y : B) :
  f x = Some y → omap f (x :: l) = y :: omap f l.
Proof. intros H. simpl. by rewrite H. Qed.

Lemma omap_members (fields : list (string * val)) :
  forallb (λ kx, plain (snd kx)) fields = true →
  omap (λ kx, (λ s, quote (fst kx) +:+ ":" +:+ s) <$> stringify (snd kx)) fields =
  map member fields.
Proof.
  induction fields as [|[k x] fields IH]; [done|].
  intros H. apply andb_true_iff in H as [Hx Hf].
  rewrite (omap_cons_Some _ _ _ (member (k, x))).
  - by rewrite IH.
  - simpl. by rewrite (plain_stringify x Hx).
Qed.

Lemma fold_join_chars (l : list string) (acc : string) :
  chars (fold_left (λ acc y, acc +:+ "," +:+ y) l acc) =
  chars acc ++ concat (map (λ y, ","%char :: chars y) l).
Proof.
  revert acc. induction l as [|y l IH]; intros acc; simpl.
  - by rewrite app_nil_r.
  - rewrite IH, !chars_app. simpl. by rewrite <- app_assoc.
Qed.

Lemma concat_items (l : list string) (close : ascii) (r : list ascii) :
  concat (map (λ y, ","%char :: chars y) l) ++ close :: r = items l close r.
Proof.
  induction l as [|y l IH]; simpl; [done|]. by rewrite <- app_assoc, IH.
Qed.

Lemma bracket_chars (open close : ascii) (l : list string) (r : list ascii) :
  chars (str1 open +:+ JsString.join "," l +:+ str1 close) ++ r =
  open :: match l with
          | [] => close :: r
          | x :: l' => chars x ++ items l' close r
          end.
Proof.
  rewrite !chars_app. simpl. f_equal. destruct l as [|x l]; simpl; [done|].
  rewrite fold_join_chars, <- !app_assoc. f_equal. simpl. apply concat_items.
Qed.

Lemma elem_arr (l : list val) (r : list ascii) :
  chars (elem (VArr l)) ++ r =
  "["%char :: match map elem l with
              | [] => "]"%char :: r
              | x :: l' => chars x ++ items l' "]" r
              end.
Proof. unfold elem at 1. simpl. apply (bracket_chars "[" "]"). Qed.

Lemma elem_obj (fields : list (string * val)) (r : list ascii) :
  forallb (λ kx, plain (snd kx)) fields = true →
  chars (elem (VObj fields)) ++ r =
  "{"%char :: match map member fields with
              | [] => "}"%char :: r
              | x :: l' => chars x ++ items l' "}" r
              end.
Proof.
  intros H. unfold elem at 1. simpl. rewrite (omap_members _ H).
  apply (bracket_chars "{" "}").
Qed.

Lemma elem_str (s : string) : elem (VStr s) = quote s.
Proof. reflexivity. Qed.

Lemma elem_num (n : Z) : elem (VNum n) = pretty n.
Proof. reflexivity. Qed.

Lemma elem_head (v : val) :
  plain v = true → ∃ c rest, chars (elem v) = c :: rest ∧ head_ok v c.
Proof.
  destruct v as [| |b|n|s|l|fields]; intros Hp; try done.
  - by exists "n"%char, (chars "ull").
  - destruct b; [by exists "t"%char, (chars "rue") | by exists "f"%char, (chars "alse")].
  - rewrite elem_num. destruct (pretty_Z_num n) as [Hall Hne].
    destruct (pretty n) as [|c rest]; [done|]. simpl in Hall.
    apply andb_true_iff in Hall as [Hc _]. by exists c, (chars rest).
  - rewrite elem_str, quote_chars. by eexists _, _.
  - pose proof (elem_arr l []) as H. rewrite app_nil_r in H. rewrite H. by eexists _, _.
  - pose proof (elem_obj fields [] Hp) as H. rewrite app_nil_r in H. rewrite H.
    by eexists _, _.
Qed.

Lemma head_ok_not_punct (v : val) (c : ascii) :
  head_ok v c → c ≠ "]"%char ∧ c ≠ "}"%char ∧ c ≠ ","%char.
Proof.
  destruct v as [| |[]|n|s|l|fields]; simpl; intros H; subst; try done.
  repeat split; intros ->; vm_compute in H; discriminate H.
Qed.

Lemma head_same_kind (a b : val) (c : ascii) :
  head_ok a c → head_ok b c → same_kind a b.
Proof.
  destruct a as [| |[]|n|s|l|fields], b as [| |[]|n'|s'|l'|fields'];
    simpl; intros Ha Hb; subst; try done;
    try (vm_compute in Hb; discriminate Hb);
    try (vm_compute in Ha; discriminate Ha).
Qed.

Lemma elem_same_kind (a b : val) (ra rb : list ascii) :
  plain a = true → plain b = true →
  chars (elem a) ++ ra = chars (elem b) ++ rb → same_kind a b.
Proof.
  intros Ha Hb H.
  destruct (elem_head a Ha) as (c & rest & Hc & Hok).
  destruct (elem_head b Hb) as (c' & rest' & Hc' & Hok').
  rewrite Hc, Hc' in H. simpl in H. injection H as <- _.
  by apply (head_same_kind a b c).
Qed.

Lemma delim_items (l : list string) (close : ascii) (r : list ascii) :
  num_char close = false → delim (items l close r).
Proof. intros H. by destruct l. Qed.

Lemma items_unique {A : Type} (f : A → string) (P : A → Prop) (close : ascii)
    (l1 l2 : list A) (ra rb : list ascii) :
  num_char close = false → close ≠ ","%char →
  Forall (item_unique f P) l1 → Forall P l2 →
  items (map f l1) close ra = items (map f l2) close rb →
  l1 = l2 ∧ ra = rb.
Proof.
  intros Hclose Hcomma. revert l2.
  induction l1 as [|x l1 IH]; intros [|y l2] H1 H2 Heq; simpl in Heq.
  - by injection Heq as ->.
  - by injection Heq as ->.
  - by injection Heq as <-.
  - injection Heq as Heq.
    inversion H1 as [|? ? Hx H1']; subst. inversion H2 as [|? ? Hy H2']; subst.
    apply Hx in Heq as [-> Heq]; [|done|by apply delim_items..].
    by destruct (IH l2 H1' H2' Heq) as [-> ->].
Qed.

Lemma seq_unique {A : Type} (f : A → string) (P : A → Prop) (close : ascii)
    (l1 l2 : list A) (ra rb : list ascii) :
  num_char close = false → close ≠ ","%char →
  (∀ y, P y → ∃ c rest, chars (f y) = c :: rest ∧ c ≠ close) →
  Forall (item_unique f P) l1 → Forall P l1 → Forall P l2 →
  match map f l1 with
  | [] => close :: ra
  | x :: l' => chars x ++ items l' close ra
  end =
  match map f l2 with
  | [] => close :: rb
  | x :: l' => chars x ++ items l' close rb
  end →
  l1 = l2 ∧ ra = rb.
Proof.
  intros Hclose Hcomma Hhead H1 P1 P2 Heq.
  destruct l1 as [|x l1], l2 as [|y l2]; simpl in Heq.
  - by injection Heq as ->.
  - inversion P2 as [|? ? Hy _]; subst.
    destruct (Hhead y Hy) as (c & rest & Hc & Hne). rewrite Hc in Heq.
    simpl in Heq. by injection Heq as <- _.
  - inversion P1 as [|? ? Hx _]; subst.
    destruct (Hhead x Hx) as (c & rest & Hc & Hne). rewrite Hc in Heq.
    simpl in Heq. by injection Heq as -> _.
  - inversion H1 as [|? ? Hx H1']; subst. inversion P2 as [|? ? Hy P2']; subst.
    apply Hx in Heq as [-> Heq]; [|done|by apply delim_items..].
    by destruct (items_unique f P close l1 l2 ra rb Hclose Hcomma H1' P2' Heq)
      as [-> ->].
Qed.

Lemma member_chars (kx : string * val) :
  chars (member kx) = chars (quote (fst kx)) ++ ":"%char :: chars (elem (snd kx)).
Proof.
  unfold member. by rewrite (chars_app (quote _)), (chars_app ":").
Qed.

(** A serialized value followed by a tail that cannot continue a number
    is read back in one way only. *)
Lemma elem_unique (a : val) :
  plain a = true → item_unique elem (λ b, plain b = true) a.
Proof.
  induction a as [| |x|n|s|l IHl|fields IHf] using val_nested_ind;
    intros Ha b ra rb Hb Da Db Heq; [done|..];
    pose proof (elem_same_kind _ _ _ _ Ha Hb Heq) as Hk;
    destruct b as [| |y|m|t|l'|fields']; try done; simpl in Hk.
  - by apply app_inv_head in Heq.
  - subst y. by apply app_inv_head in Heq.
  - rewrite !elem_num in Heq.
    destruct (pretty_Z_num n) as [Hn _]. destruct (pretty_Z_num m) as [Hm _].
    destruct (num_span_unique _ _ _ _ Hn Hm Da Db Heq) as [Hnm ->].
    apply chars_inj, (inj pretty) in Hnm. by subst.
  - rewrite !elem_str in Heq. by destruct (quote_unique _ _ _ _ Heq) as [-> ->].
  - rewrite !elem_arr in Heq. injection Heq as Heq.
    simpl in Ha, Hb. rewrite forallb_forall in Ha, Hb.
    destruct (seq_unique elem (λ b, plain b = true) "]" l l' ra rb) as [-> ->];
      try done.
    + intros y Hy. destruct (elem_head y Hy) as (c & rest & Hc & Hok).
      exists c, rest. split; [done|]. by apply head_ok_not_punct in Hok as (? & _).
    + rewrite Forall_forall in IHl |- *. intros x Hx. apply IHl; [done|].
      apply Ha. by apply list_elem_of_In.
    + rewrite Forall_forall. intros x Hx. apply Ha. by apply list_elem_of_In.
    + rewrite Forall_forall. intros x Hx. apply Hb. by apply list_elem_of_In.
  - simpl in Ha, Hb. rewrite !elem_obj in Heq by done. injection Heq as Heq.
    rewrite forallb_forall in Ha, Hb.
    destruct (seq_unique member (λ kx, plain (snd kx) = true) "}" fields fields' ra rb)
      as [-> ->]; try done.
    + intros [k y] _. rewrite member_chars, quote_chars. simpl.
      by eexists _, _.
    + rewrite Forall_forall in IHf |- *. intros [k x] Hx [k' y] ta tb Hy Dta Dtb.
      rewrite !member_chars, <- !app_assoc. simpl. intros H.
      apply quote_unique in H as [-> H]. injection H as H.
      assert (plain x = true) as Hpx
        by (apply (Ha (k', x)); by apply list_elem_of_In).
      destruct (IHf (k', x) Hx Hpx y ta tb Hy Dta Dtb H) as [Hxy ->].
      simpl in Hxy. by subst.
    + rewrite Forall_forall. intros x Hx. apply Ha. by apply list_elem_of_In.
    + rewrite Forall_forall. intros x Hx. apply Hb. by apply list_elem_of_In.
Qed.

(** [JSON.stringify] is injective on plain JSON data. *)
Theorem stringify_inj (a b : val) :
  plain a = true → plain b = true → stringify a = stringify b → a = b.
Proof.
  intros Ha Hb H. rewrite (plain_stringify a Ha), (plain_stringify b Hb) in H.
  injection H as H.
  destruct (elem_unique a Ha b [] [] Hb) as [-> _]; try done.
  by rewrite H.
Qed.

End JsonFacts.

(** ** The audit chain *)

Module AuditFacts.

Import Json Sdk Props.

Lemma check_entry_none (chain : list AuditEntry) (i : nat) (e : AuditEntry) :
  chain !! i = Some e →
  (check_entry chain i = None ↔
   prevHash e = expected_prev chain i ∧ hash e = sha256_b64 (rest_json e)).
Proof.
  intros He. unfold check_entry. rewrite He. fold (expected_prev chain i).
  destruct (String.eqb_spec (prevHash e) (expected_prev chain i)) as [Hp|Hp]; simpl.
  - destruct (String.eqb_spec (sha256_b64 (rest_json e)) (hash e)) as [Hh|Hh]; simpl.
    + split; [auto | done].
    + split; [done | intros [_ ?]; congruence].
  - split; [done | intros [? _]; congruence].
Qed.


Lemma verify_loop_valid (chain : list AuditEntry) (n i : nat) :
  (∀ j, (i ≤ j < i + n)%nat → check_entry chain j = None) →
  verify_loop chain n i = ChainValid (length chain).
Proof.
  revert i. induction n as [|n IH]; intros i H; simpl; [done|].
  rewrite H by lia. apply IH. intros j Hj. apply H. lia.
Qed.

Lemma verify_loop_broken (chain : list AuditEntry) (n i k : nat) (reason : string) :
  (i ≤ k < i + n)%nat →
  (∀ j, (i ≤ j < k)%nat → check_entry chain j = None) →
  check_entry chain k = Some reason →
  verify_loop chain n i = ChainBroken k reason.
Proof.
  revert i. induction n as [|n IH]; intros i Hk Hbefore Hat; [lia|]. simpl.
  destruct (decide (i = k)) as [->|Hne].
  - by rewrite Hat.
  - rewrite Hbefore by lia. apply IH; [lia | | done].
    intros j Hj. apply Hbefore. lia.
Qed.

Lemma linked_verify (sdk : ProofiSDK) :
  linked (auditChain sdk) →
  verifyChain sdk = ChainValid (length (auditChain sdk)).
Proof.
  intros Hl. apply verify_loop_valid. intros j [_ Hj]. simpl in Hj.
  destruct (lookup_lt_is_Some_2 (auditChain sdk) j Hj) as [e He].
  apply (check_entry_none _ _ _ He). by apply Hl.
Qed.

Lemma expected_prev_app (chain : list AuditEntry) (e : AuditEntry) (i : nat) :
  (i < length chain)%nat →
  expected_prev (chain ++ [e]) i = expected_prev chain i.
Proof.
  intros Hi. unfold expected_prev. destruct (i =? 0)%nat; [done|].
  by rewrite lookup_app_l by lia.
Qed.

Lemma expected_prev_end (chain : list AuditEntry) (e : AuditEntry) :
  expected_prev (chain ++ [e]) (length chain) =
  match last chain with
  | Some p => hash p
  | None => genesis
  end.
Proof.
  unfold expected_prev. rewrite last_lookup.
  destruct chain as [|a chain]; [done|].
  replace (length (a :: chain) =? 0)%nat with false by done.
  replace (length (a :: chain) - 1)%nat with (pred (length (a :: chain))) by lia.
  rewrite lookup_app_l by (simpl; lia).
  destruct ((a :: chain) !! pred (length (a :: chain))) eqn:Hlast; [done|].
  apply lookup_ge_None in Hlast. simpl in Hlast. lia.
Qed.

Lemma addAuditEntry_chain (now : Z) (action : string) (details : val) (sdk : ProofiSDK) :
  auditChain (snd (addAuditEntry now action details sdk)) =
  auditChain sdk ++ [fst (addAuditEntry now action details sdk)].
Proof. reflexivity. Qed.

Lemma addAuditEntry_tokens (now : Z) (action : string) (details : val) (sdk : ProofiSDK) :
  tokens (snd (addAuditEntry now action details sdk)) = tokens sdk.
Proof. reflexivity. Qed.

Lemma addAuditEntry_tokens_eq (now : Z) (action : string) (details : val)
    (sdk sdk' : ProofiSDK) (e : AuditEntry) :
  addAuditEntry now action details sdk = (e, sdk') → tokens sdk' = tokens sdk.
Proof. intros H. by injection H as _ <-. Qed.

Lemma addAuditEntry_linked (now : Z) (action : string) (details : val) (sdk : ProofiSDK) :
  linked (auditChain sdk) →
  linked (auditChain (snd (addAuditEntry now action details sdk))).
Proof.
  intros Hl i e. rewrite addAuditEntry_chain.
  destruct (decide (i < length (auditChain sdk))%nat) as [Hi|Hi].
  - rewrite lookup_app_l by done. rewrite expected_prev_app by done. apply Hl.
  - intros He. assert (i = length (auditChain sdk)) as ->.
    { apply lookup_lt_Some in He. rewrite length_app in He. simpl in He. lia. }
    rewrite list_lookup_middle in He by done. injection He as <-.
    rewrite expected_prev_end. done.
Qed.

Lemma addAuditEntry_linked_eq (now : Z) (action : string) (details : val)
    (sdk sdk' : ProofiSDK) (e : AuditEntry) :
  addAuditEntry now action details sdk = (e, sdk') →
  linked (auditChain sdk) → linked (auditChain sdk').
Proof.
  intros H Hl. replace sdk' with (snd (addAuditEntry now action details sdk))
    by (by rewrite H).
  by apply addAuditEntry_linked.
Qed.

Lemma append_all_linked (inputs : list (Z * string * val)) (sdk : ProofiSDK) :
  linked (auditChain sdk) → linked (auditChain (append_all inputs sdk)).
Proof.
  revert sdk. induction inputs as [|[[now action] details] inputs IH];
    intros sdk Hl; [done|].
  apply IH. by apply addAuditEntry_linked.
Qed.

Lemma append_all_length (inputs : list (Z * string * val)) (sdk : ProofiSDK) :
  length (auditChain (append_all inputs sdk)) =
  (length (auditChain sdk) + length inputs)%nat.
Proof.
  revert sdk. induction inputs as [|[[now action] details] inputs IH];
    intros sdk; simpl; [lia|].
  unfold append_all in *. simpl. rewrite IH. simpl. rewrite length_app. simpl. lia.
Qed.

Lemma linked_nil : linked [].
Proof. intros i e H. by rewrite lookup_nil in H. Qed.

(** C4. For every audit chain built purely through sequential append
    calls, starting from the empty chain, [verifyChain] returns valid; and
    in that chain the first entry's [prevHash] is 64 zero digits, every
    later entry's [prevHash] is the hash of the entry before it, and every
    entry's [hash] is the SHA-256 digest (in base64) of the JSON
    serialization of the entry without its [hash] property. *)
Theorem appended_chain_verifies (inputs : list (Z * string * val)) :
  let sdk := append_all inputs new_sdk in
  verifyChain sdk = ChainValid (length inputs) ∧
  genesis = "0000000000000000000000000000000000000000000000000000000000000000" ∧
  (∀ e, auditChain sdk !! 0%nat = Some e → prevHash e = genesis) ∧
  (∀ i e p, auditChain sdk !! S i = Some e → auditChain sdk !! i = Some p →
            prevHash e = hash p) ∧
  (∀ i e, auditChain sdk !! i = Some e →
          hash e = sha256_b64 (entry_json (timestamp e) (action e) (details e) (prevHash e))).
Proof.
  intros sdk.
  assert (linked (auditChain sdk)) as Hl by (apply append_all_linked, linked_nil).
  split; [|split; [reflexivity|split; [|split]]].
  - rewrite (linked_verify _ Hl). unfold sdk. by rewrite append_all_length.
  - intros e He. by destruct (Hl _ _ He) as [-> _].
  - intros i e p He Hp. destruct (Hl _ _ He) as [-> _].
    unfold expected_prev. simpl. by rewrite Nat.sub_0_r, Hp.
  - intros i e He. by destruct (Hl _ _ He) as [_ ->].
Qed.







Lemma appended_chain_verifies_witness :
  verifyChain (append_all Samples.audit_inputs new_sdk) = ChainValid 3 ∧
  ∀ e, auditChain (append_all Samples.audit_inputs new_sdk) !! 2%nat = Some e →
       prevHash e = "gibXElx7w+dvhFcCzb//noRc/O+6CX5v5u5WQZEzEsY=".
Proof.
  destruct (appended_chain_verifies Samples.audit_inputs) as (Hv & _ & _ & Hprev & _).
  split; [exact Hv|]. intros e He.
  apply (Hprev 1%nat e (mkEntry 1700000000250 "TOKEN_CREATED"
           (VObj [("tokenId", VStr "tok"); ("agentId", VStr "agent-A")])
           "NxHPQMQW4wJlsUW+Wow7CsUBEUkY8VvVqE/NuPktzHU="
           "gibXElx7w+dvhFcCzb//noRc/O+6CX5v5u5WQZEzEsY=") He).
  vm_compute. reflexivity.
Defined.

End AuditFacts.

(** ** Agent execution and revocation *)

Module AgentFacts.

Import Json Sdk Props.

Lemma revoked_in_validate (tokenId : string) (sdk : ProofiSDK) :
  revoked_in tokenId sdk →
  ∀ now requiredScope,
    fst (validateToken now tokenId requiredScope sdk) = Invalid "Token revoked".
Proof.
  intros (t & Ht & Hr) now requiredScope.
  by apply (TokenFacts.validateToken_revoked _ _ _ _ t).
Qed.

Lemma createAccessToken_cases rnd_id rnd_key t_created t_now agent scopes
    durationMs (sdk : ProofiSDK) :
  let out := createAccessToken rnd_id rnd_key t_created t_now agent scopes durationMs sdk in
  (is_ok (fst out) = false ∧ snd out = sdk) ∨
  (∃ tok, fst out = Ok tok ∧ tokenId tok = Base64.encode rnd_id ∧
          revoked tok = false ∧
          snd out = with_tokens (<[Base64.encode rnd_id := tok]> (tokens sdk)) sdk).
Proof.
  unfold createAccessToken.
  destruct (JsDate.toISOString t_created); [|by left].
  destruct (JsDate.toISOString (t_now + durationMs)); [|by left].
  right. by eexists.
Qed.

Lemma revokeToken_insert (tokenId : string) (tok : Token) (sdk : ProofiSDK) :
  tokens (revokeToken tokenId (with_tokens (<[tokenId := tok]> (tokens sdk)) sdk)) =
  <[tokenId := revoke tok]> (tokens sdk).
Proof.
  unfold revokeToken, with_tokens. simpl.
  rewrite lookup_insert_eq. simpl. apply insert_insert_eq.
Qed.

Lemma sign_chain_tokens (env : Env) (w : option WalletState) (sdk : ProofiSDK) :
  tokens (snd (sign_chain env w sdk)) = tokens sdk.
Proof.
  unfold sign_chain. destruct w as [wallet|]; [|done].
  destruct (extension env) as [ext|]; [|done].
  destruct (signMessage ext) as [sign|]; [|done].
  by destruct (sign _).
Qed.

(** The effect of a run on the token store, whatever its outcome: nothing
    (the token could not be created), a fresh live token (the run threw
    after creating it), or a fresh revoked token (the run completed). *)
Lemma executeAgent_tokens (env : Env) (agentMeta : AgentMeta)
    (healthData : list (string * list val)) (goals : val)
    (ollamaEndpoint : string) (sdk : ProofiSDK) :
  let out := executeAgent env agentMeta healthData goals ollamaEndpoint sdk in
  let drawn := Base64.encode (random env 0 16) in
  (is_ok (fst out) = false ∧ tokens (snd out) = tokens sdk) ∨
  (∃ tok, is_ok (fst out) = false ∧ revoked tok = false ∧
          tokens (snd out) = <[drawn := tok]> (tokens sdk)) ∨
  (∃ tok r, fst out = Ok r ∧ audit_tokenId r = drawn ∧
            tokens (snd out) = <[drawn := revoke tok]> (tokens sdk)).
Proof.
  unfold executeAgent.
  destruct (addAuditEntry (clock env 0) _ _ sdk) as [e0 sdk0] eqn:H0.
  assert (tokens sdk0 = tokens sdk) as T0
    by (rewrite <- (AuditFacts.addAuditEntry_tokens_eq _ _ _ _ _ _ H0); done).
  set (scopes := _ ++ _).
  pose proof (createAccessToken_cases (random env 0 16) (random env 1 15)
    (clock env 1) (clock env 2) (id agentMeta) scopes
    (parseDuration (accessDuration agentMeta)) sdk0) as Hc.
  destruct (createAccessToken _ _ _ _ _ _ _ sdk0) as [[tok|err] sdk1].
  2:{ simpl in *. left. destruct Hc as [[_ ->] | (? & ? & _)]; [|done].
      by rewrite T0. }
  simpl in Hc. destruct Hc as [[? _] | (tok' & [= <-] & Hid & Hlive & ->)]; [done|].
  destruct (addAuditEntry (clock env 3) _ _ _) as [e3 sdk3] eqn:H3.
  apply AuditFacts.addAuditEntry_tokens_eq in H3. simpl in H3.
  destruct (addAuditEntry (clock env 4) _ _ sdk3) as [e4 sdk4] eqn:H4.
  apply AuditFacts.addAuditEntry_tokens_eq in H4.
  destruct (fetch_json env _ _) as [result|err].
  2:{ simpl. right. left. exists tok. rewrite H4, H3, T0. done. }
  match goal with |- context [mbind ?f ?m] => destruct (mbind f m) as [details|err] end.
  2:{ simpl. right. left. exists tok. rewrite H4, H3, T0. done. }
  destruct (addAuditEntry (clock env 5) _ _ sdk4) as [e5 sdk5] eqn:H5.
  apply AuditFacts.addAuditEntry_tokens_eq in H5.
  destruct (addAuditEntry (clock env 6) _ _ _) as [e6 sdk6] eqn:H6.
  apply AuditFacts.addAuditEntry_tokens_eq in H6.
  pose proof (sign_chain_tokens env (getWalletState env) sdk6) as H7.
  destruct (sign_chain env (getWalletState env) sdk6) as [signature sdk7].
  simpl in *. right. right. exists tok. eexists. split; [reflexivity|].
  split; [exact Hid|].
  rewrite H7, H6.
  assert (sdk5 = with_tokens (tokens sdk5) sdk5) as -> by (by destruct sdk5).
  rewrite H5, H4, H3, Hid, <- T0.
  replace (with_tokens (<[Base64.encode (random env 0 16):=tok]> (tokens sdk0)) sdk5)
    with (with_tokens (<[Base64.encode (random env 0 16):=tok]> (tokens sdk0))
            (with_tokens (tokens sdk0) sdk5)) by done.
  apply (revokeToken_insert _ tok (with_tokens (tokens sdk0) sdk5)).
Qed.

Lemma executeAgent_revokes (env : Env) (agentMeta : AgentMeta)
    (healthData : list (string * list val)) (goals : val)
    (ollamaEndpoint : string) (sdk sdk' : ProofiSDK) (r : ExecResult) :
  executeAgent env agentMeta healthData goals ollamaEndpoint sdk = (Ok r, sdk') →
  audit_tokenId r = Base64.encode (random env 0 16) ∧
  revoked_in (audit_tokenId r) sdk'.
Proof.
  intros H.
  pose proof (executeAgent_tokens env agentMeta healthData goals ollamaEndpoint sdk) as Ht.
  cbv zeta in Ht. rewrite H in Ht. simpl in Ht.
  destruct Ht as [[? _] | [(tok & ? & _) | (tok & r' & [= <-] & Hid & Htok)]];
    [done | done |].
  split; [exact Hid|]. exists (revoke tok). rewrite Hid, Htok.
  by rewrite lookup_insert_eq.
Qed.

(** A revoked token stays revoked under every later call, unless a later
    call draws the very same identifier for a new token. *)
Lemma revoked_in_run_call (tokenId : string) (c : Call) (sdk : ProofiSDK) :
  drawn_id c ≠ Some tokenId →
  revoked_in tokenId sdk → revoked_in tokenId (run_call c sdk).
Proof.
  intros Hfresh (t & Ht & Hr).
  destruct c as [rnd_id rnd_key t_created t_now agent scopes durationMs
                |now tokenId' requiredScope|tokenId'|now action details
                |env agentMeta healthData goals ollamaEndpoint];
    cbn [run_call drawn_id] in *.
  - pose proof (createAccessToken_cases rnd_id rnd_key t_created t_now agent
      scopes durationMs sdk) as Hc. simpl in Hc.
    destruct Hc as [[_ ->] | (tok & _ & _ & _ & ->)]; [by exists t|].
    exists t. simpl. rewrite lookup_insert_ne; [done | congruence].
  - rewrite TokenFacts.validateToken_frame. by exists t.
  - unfold revokeToken. destruct (tokens sdk !! tokenId') as [t'|] eqn:Ht';
      [|by exists t].
    simpl. destruct (decide (tokenId' = tokenId)) as [->|Hne].
    + exists (revoke t'). simpl. by rewrite lookup_insert_eq.
    + exists t. simpl. by rewrite lookup_insert_ne.
  - by exists t.
  - pose proof (executeAgent_tokens env agentMeta healthData goals
      ollamaEndpoint sdk) as He. cbv zeta in He.
    assert (Base64.encode (random env 0 16) ≠ tokenId) as Hne by congruence.
    unfold revoked_in.
    destruct He as [[_ ->] | [(tok & _ & _ & ->) | (tok & r & _ & _ & ->)]].
    + by exists t.
    + exists t. by rewrite lookup_insert_ne.
    + exists t. by rewrite lookup_insert_ne.
Qed.

Lemma revoked_in_run_calls (tokenId : string) (cs : list Call) (sdk : ProofiSDK) :
  Forall (λ c, drawn_id c ≠ Some tokenId) cs →
  revoked_in tokenId sdk → revoked_in tokenId (run_calls cs sdk).
Proof.
  revert sdk. induction cs as [|c cs IH]; intros sdk Hcs Hr; [done|].
  inversion Hcs as [|? ? Hc Hcs']; subst.
  apply IH; [done|]. by apply revoked_in_run_call.
Qed.

(** Every step of a run appends to the chain through [addAuditEntry]
    only, so a run keeps a linked chain linked, and the [chainValid] it
    reports is [true]. *)
Lemma createAccessToken_chain rnd_id rnd_key t_created t_now agent scopes
    durationMs (sdk : ProofiSDK) :
  auditChain (snd (createAccessToken rnd_id rnd_key t_created t_now agent scopes
                     durationMs sdk)) = auditChain sdk.
Proof.
  unfold createAccessToken.
  destruct (JsDate.toISOString t_created); [|done].
  by destruct (JsDate.toISOString (t_now + durationMs)).
Qed.

Lemma revokeToken_chain (tokenId : string) (sdk : ProofiSDK) :
  auditChain (revokeToken tokenId sdk) = auditChain sdk.
Proof. unfold revokeToken. by destruct (tokens sdk !! tokenId). Qed.

Lemma sign_chain_linked (env : Env) (w : option WalletState) (sdk : ProofiSDK) :
  linked (auditChain sdk) →
  linked (auditChain (snd (sign_chain env w sdk))).
Proof.
  intros Hl. unfold sign_chain. destruct w as [wallet|]; [|done].
  destruct (extension env) as [ext|]; [|done].
  destruct (signMessage ext) as [sign|]; [|done].
  destruct (sign _) as [signature|err]; [|done].
  by apply AuditFacts.addAuditEntry_linked.
Qed.

Lemma executeAgent_linked (env : Env) (agentMeta : AgentMeta)
    (healthData : list (string * list val)) (goals : val)
    (ollamaEndpoint : string) (sdk : ProofiSDK) :
  linked (auditChain sdk) →
  let out := executeAgent env agentMeta healthData goals ollamaEndpoint sdk in
  linked (auditChain (snd out)) ∧
  ∀ r, fst out = Ok r → audit_chainValid r = true.
Proof.
  intros Hl. unfold executeAgent.
  destruct (addAuditEntry (clock env 0) _ _ sdk) as [e0 sdk0] eqn:H0.
  apply AuditFacts.addAuditEntry_linked_eq in H0; [|done].
  match goal with |- context [createAccessToken ?a ?b ?c ?d ?e ?f ?g sdk0] =>
    pose proof (createAccessToken_chain a b c d e f g sdk0) as Hc;
    destruct (createAccessToken a b c d e f g sdk0) as [[tok|err] sdk1]
  end; simpl in Hc.
  2:{ simpl. split; [|done]. by rewrite Hc. }
  assert (linked (auditChain sdk1)) as L1 by (by rewrite Hc).
  destruct (addAuditEntry (clock env 3) _ _ sdk1) as [e3 sdk3] eqn:H3.
  apply AuditFacts.addAuditEntry_linked_eq in H3; [|done].
  destruct (addAuditEntry (clock env 4) _ _ sdk3) as [e4 sdk4] eqn:H4.
  apply AuditFacts.addAuditEntry_linked_eq in H4; [|done].
  destruct (fetch_json env _ _) as [result|err]; [|by split].
  match goal with |- context [mbind ?f ?m] => destruct (mbind f m) as [details|err] end;
    [|by split].
  destruct (addAuditEntry (clock env 5) _ _ sdk4) as [e5 sdk5] eqn:H5.
  apply AuditFacts.addAuditEntry_linked_eq in H5; [|done].
  destruct (addAuditEntry (clock env 6) _ _ (revokeToken (tokenId tok) sdk5))
    as [e6 sdk6] eqn:H6.
  apply AuditFacts.addAuditEntry_linked_eq in H6; [|by rewrite revokeToken_chain].
  pose proof (sign_chain_linked env (getWalletState env) sdk6 H6) as L7.
  destruct (sign_chain env (getWalletState env) sdk6) as [signature sdk7].
  simpl in *. split; [done|]. intros r [= <-]. simpl.
  by rewrite (AuditFacts.linked_verify sdk7 L7).
Qed.

(** A run that throws after the token was created leaves that token
    live: it was never revoked, and it validates until it expires. *)
Example offline_run_leaves_token_live :
  fst Samples.offline_run = Throw (TypeError "Failed to fetch") ∧
  ∃ t, fst (validateToken 1700000008000 "BwcHBwcHBwcHBwcHBwcHBw=="
              (Some "health/steps/2023-11") (snd Samples.offline_run)) = Valid t.
Proof. split; [vm_compute; reflexivity|]. eexists. vm_compute. reflexivity. Qed.

(** C10. Every normally-completing run of [executeAgent] revokes the
    access token it created before it returns: afterwards [validateToken]
    on that token's id answers [Token revoked] at every time and for
    every scope, and it keeps doing so after any further calls on the
    instance, as long as none of them draws the same 128-bit identifier
    for a new token. *)
Theorem executed_token_is_revoked (env : Env) (agentMeta : AgentMeta)
    (healthData : list (string * list val)) (goals : val)
    (ollamaEndpoint : string) (sdk sdk' : ProofiSDK) (r : ExecResult) :
  executeAgent env agentMeta healthData goals ollamaEndpoint sdk = (Ok r, sdk') →
  (∀ now requiredScope,
     fst (validateToken now (audit_tokenId r) requiredScope sdk') =
       Invalid "Token revoked") ∧
  (∀ calls, Forall (λ c, drawn_id c ≠ Some (audit_tokenId r)) calls →
     ∀ now requiredScope,
       fst (validateToken now (audit_tokenId r) requiredScope (run_calls calls sdk')) =
         Invalid "Token revoked").
Proof.
  intros H. apply executeAgent_revokes in H as [_ Hr]. split.
  - by apply revoked_in_validate.
  - intros calls Hcalls. by apply revoked_in_validate, revoked_in_run_calls.
Qed.

Lemma executed_token_is_revoked_witness :
  fst (validateToken 1700000008000 (audit_tokenId Samples.sample_result)
         (Some "health/steps/2023-11") (snd Samples.sample_run)) =
    Invalid "Token revoked".
Proof.
  assert (executeAgent Samples.sample_env Samples.sample_meta Samples.sample_health
            (VArr [VStr "sleep better"]) "http://localhost:3000" new_sdk =
          (Ok Samples.sample_result, snd Samples.sample_run)) as Hrun
    by (vm_compute; reflexivity).
  exact (proj1 (executed_token_is_revoked _ _ _ _ _ _ _ _ Hrun)
               1700000008000 (Some "health/steps/2023-11")).
Defined.

(** The run of the example completes, and the token it names is the one
    drawn from the random generator. *)
Example sample_run_completes :
  is_ok (fst Samples.sample_run) = true ∧
  audit_tokenId Samples.sample_result = "BwcHBwcHBwcHBwcHBwcHBw==" ∧
  audit_chainValid Samples.sample_result = true.
Proof. vm_compute. by repeat split. Qed.

End AgentFacts.

(** ** Base64 *)

Module Base64Facts.

Import Base64 JsonSyntax.

Lemma dec_enc (i : Z) : 0 ≤ i < 64 → dec (enc i) = Some i.
Proof.
  intros Hi.
  assert (forallb (λ n, match dec (enc (Z.of_nat n)) with
                        | Some j => j =? Z.of_nat n
                        | None => false
                        end) (seq 0 64) = true) as H by (vm_compute; reflexivity).
  rewrite forallb_forall in H. specialize (H (Z.to_nat i)).
  rewrite Z2Nat.id in H by lia.
  destruct (dec (enc i)) as [j|].
  - f_equal. apply Z.eqb_eq, H, in_seq. lia.
  - discriminate H. apply in_seq. lia.
Qed.

Lemma dec_pad : dec "="%char = None.
Proof. reflexivity. Qed.

Lemma encode_aux_decode (fuel : nat) (b : list Z) :
  (length b < fuel)%nat → Forall Bytes.byte_ok b →
  decode (chars (encode_aux fuel b)) = Some b.
Proof.
  revert b. induction fuel as [|fuel IH]; intros b Hlen Hb; [lia|].
  destruct b as [|x [|y [|z r]]]; simpl encode_aux.
  - reflexivity.
  - inversion Hb as [|? ? Hx _]; subst. unfold Bytes.byte_ok in Hx.
    simpl chars. unfold decode.
    rewrite !dec_enc by (Z.div_mod_to_equations; lia). rewrite dec_pad. simpl.
    do 2 f_equal. Z.div_mod_to_equations; lia.
  - inversion Hb as [|? ? Hx Hb']; subst. inversion Hb' as [|? ? Hy _]; subst.
    unfold Bytes.byte_ok in *. simpl chars. unfold decode.
    rewrite !dec_enc by (Z.div_mod_to_equations; lia). rewrite dec_pad. simpl.
    f_equal. f_equal; [|f_equal]; Z.div_mod_to_equations; lia.
  - inversion Hb as [|? ? Hx Hb']; subst. inversion Hb' as [|? ? Hy Hb'']; subst.
    inversion Hb'' as [|? ? Hz Hr]; subst. unfold Bytes.byte_ok in *.
    simpl chars. cbn [decode].
    rewrite !dec_enc by (Z.div_mod_to_equations; lia).
    rewrite IH by (simpl in Hlen; lia || done).
    simpl. f_equal. f_equal; [|f_equal; [|f_equal]]; Z.div_mod_to_equations; lia.
Qed.

(** Decoding what [encodeBase64] wrote gives the bytes back. *)
Lemma decodeBase64_encode (b : list Z) :
  Forall Bytes.byte_ok b → decodeBase64 (encode b) = Ok b.
Proof.
  intros Hb. unfold decodeBase64, encode.
  by rewrite encode_aux_decode by (lia || done).
Qed.

End Base64Facts.

(** ** The keypair store *)

Module KeysFacts.

Import Json Keys.

Lemma say_fs (line : LogLine) (w : World) : fs (say line w) = fs w.
Proof. reflexivity. Qed.

Lemma loadKeypair_absent (p : Platform) (w : World) :
  keypair_file (fs w) = None → loadKeypair p w = (None, w).
Proof. intros H. unfold loadKeypair. by rewrite H. Qed.

Lemma loadKeypair_decoded (p : Platform) (w : World) (content : string)
    (keypair : AgentKeypair) :
  keypair_file (fs w) = Some content → read_keypair p content = Ok keypair →
  loadKeypair p w = (Some keypair, w).
Proof. intros H Hr. unfold loadKeypair. by rewrite H, Hr. Qed.

(** An undecodable file is reported on the error console and then treated
    exactly as a missing one. *)
Lemma loadKeypair_corrupt (p : Platform) (w : World) (content : string) (error : Exn) :
  keypair_file (fs w) = Some content → read_keypair p content = Throw error →
  loadKeypair p w = (None, say (LogError "[keys] Failed to load keypair:" error) w).
Proof. intros H Hr. unfold loadKeypair. by rewrite H, Hr. Qed.

Lemma saveKeypair_writes (p : Platform) (keypair : AgentKeypair) (w : World)
    (createdAt : string) :
  JsDate.toISOString (date_now p) = Ok createdAt →
  fst (saveKeypair p keypair w) = Ok tt ∧
  keypair_file (fs (snd (saveKeypair p keypair w))) =
    Some (stored_json (Base64.encode (publicKey keypair))
                      (Base64.encode (privateKey keypair)) createdAt "X25519") ∧
  ∃ lines, console (snd (saveKeypair p keypair w)) = console w ++ lines.
Proof.
  intros Ht. unfold saveKeypair. rewrite Ht. simpl. split; [done|]. split; [done|].
  unfold ensureKeysDir. destruct (keys_dir (fs w)); simpl.
  - by eexists.
  - rewrite <- app_assoc. by eexists.
Qed.

Lemma toISOString_valid (t : Z) :
  JsDate.valid_time t = true → ∃ s, JsDate.toISOString t = Ok s.
Proof.
  intros H. unfold JsDate.toISOString. rewrite H.
  destruct (JsDate.civil_of_days _) as [[y m] d]. by eexists.
Qed.

(** What [getOrCreateKeypair] does when nothing can be loaded. *)
Lemma getOrCreateKeypair_generates (p : Platform) (w w1 : World) :
  loadKeypair p w = (None, w1) →
  JsDate.valid_time (date_now p) = true →
  ∃ createdAt,
    JsDate.toISOString (date_now p) = Ok createdAt ∧
    fst (getOrCreateKeypair p w) = Ok (generateKeypair p) ∧
    keypair_file (fs (snd (getOrCreateKeypair p w))) =
      Some (stored_json (Base64.encode (publicKey (generateKeypair p)))
                        (Base64.encode (privateKey (generateKeypair p)))
                        createdAt "X25519") ∧
    ∃ lines, console (snd (getOrCreateKeypair p w)) = console w1 ++ lines.
Proof.
  intros Hload Hvalid. destruct (toISOString_valid _ Hvalid) as [createdAt Ht].
  exists createdAt. split; [done|].
  unfold getOrCreateKeypair. rewrite Hload.
  set (w2 := say _ w1).
  destruct (saveKeypair_writes p (generateKeypair p) w2 createdAt Ht)
    as (Hok & Hfile & lines & Hlines).
  destruct (saveKeypair p (generateKeypair p) w2) as [[[]|e] w3]; [|done].
  simpl in *. split; [done|]. split; [done|].
  exists (Log "[keys] Generating new X25519 keypair..." :: lines).
  rewrite Hlines. unfold w2. simpl. by rewrite <- app_assoc.
Qed.

(** C3, as the design document states it: when the keypair file exists
    but cannot be decoded, [getOrCreate] fails with a corruption error and
    never generates and saves a fresh keypair. Here the file holds the
    text [{ corrupted]: the call returns the freshly drawn keypair and
    has replaced the file with it. *)
Lemma corrupt_file_is_replaced :
  let w := mkWorld (mkFS true (Some "{ corrupted") (Some 384)) [] in
  read_keypair sample_platform "{ corrupted" = Throw (SyntaxError "Unexpected token") ∧
  fst (getOrCreateKeypair sample_platform w) = Ok (mkKeypair [1; 2; 3] [4; 5; 6]) ∧
  keypair_file (fs (snd (getOrCreateKeypair sample_platform w))) =
    Some (stored_json "AQID" "BAUG" "2023-11-14T22:13:20.000Z" "X25519").
Proof. vm_compute. by repeat split. Qed.

(** C3, amended. When a persisted keypair file exists but cannot be
    decoded, [getOrCreateKeypair] raises no error: the failure is written
    to the error console, a fresh keypair is generated, saved over the
    file and returned. A keypair is generated when no file exists and when
    the file cannot be decoded; a file that decodes is returned as it is
    and the disk is left alone. *)
Theorem undecodable_keypair_is_regenerated (p : Platform) (w : World) :
  JsDate.valid_time (date_now p) = true →
  (∀ content error,
     keypair_file (fs w) = Some content → read_keypair p content = Throw error →
     fst (getOrCreateKeypair p w) = Ok (generateKeypair p) ∧
     (∃ createdAt,
        JsDate.toISOString (date_now p) = Ok createdAt ∧
        keypair_file (fs (snd (getOrCreateKeypair p w))) =
          Some (stored_json (Base64.encode (publicKey (generateKeypair p)))
                            (Base64.encode (privateKey (generateKeypair p)))
                            createdAt "X25519")) ∧
     ∃ lines, console (snd (getOrCreateKeypair p w)) =
       console w ++ LogError "[keys] Failed to load keypair:" error :: lines) ∧
  (keypair_file (fs w) = None →
   fst (getOrCreateKeypair p w) = Ok (generateKeypair p)) ∧
  (∀ content keypair,
     keypair_file (fs w) = Some content → read_keypair p content = Ok keypair →
     fst (getOrCreateKeypair p w) = Ok keypair ∧
     fs (snd (getOrCreateKeypair p w)) = fs w).
Proof.
  intros Hvalid. split; [|split].
  - intros content error Hfile Hread.
    pose proof (loadKeypair_corrupt p w content error Hfile Hread) as Hload.
    destruct (getOrCreateKeypair_generates p w _ Hload Hvalid)
      as (createdAt & Ht & Hok & Hsaved & lines & Hlines).
    split; [done|]. split; [by exists createdAt|].
    exists lines. rewrite Hlines. simpl. by rewrite <- app_assoc.
  - intros Hfile.
    destruct (getOrCreateKeypair_generates p w _ (loadKeypair_absent p w Hfile) Hvalid)
      as (_ & _ & Hok & _). done.
  - intros content keypair Hfile Hread. unfold getOrCreateKeypair.
    by rewrite (loadKeypair_decoded p w content keypair Hfile Hread).
Qed.

Lemma undecodable_keypair_is_regenerated_witness :
  fst (getOrCreateKeypair sample_platform
         (mkWorld (mkFS true (Some "{ corrupted") (Some 384)) [])) =
    Ok (generateKeypair sample_platform).
Proof.
  apply (proj1 (undecodable_keypair_is_regenerated sample_platform
                  (mkWorld (mkFS true (Some "{ corrupted") (Some 384)) [])
                  ltac:(reflexivity))
               "{ corrupted" (SyntaxError "Unexpected token")).
  - reflexivity.
  - reflexivity.
Defined.

End KeysFacts.

(** ** Key unwrapping and token signatures *)

Module CryptoFacts.

Import Json Crypto Props.

Lemma decodeBase64_cases (s : string) :
  (∃ b, Base64.decodeBase64 s = Ok b) ∨
  Base64.decodeBase64 s = Throw (TypeError "invalid encoding").
Proof.
  unfold Base64.decodeBase64. destruct (Base64.decode _); [left; by eexists | by right].
Qed.

Lemma unwrapDEK_decoded (prim : Primitives) (w : WrappedDEK) (sk c e n : list Z) :
  decodes w c e n →
  unwrapDEK prim w sk =
    match box_open prim c n e sk with
    | Ok (Some dek) => Ok dek
    | Ok None => Throw unwrap_failed
    | Throw err => Throw err
    end.
Proof.
  intros (Hc & He & Hn). unfold unwrapDEK. rewrite Hc, He, Hn. simpl.
  by destruct (box_open prim c n e sk) as [[dek|]|err].
Qed.

Lemma unwrapDEK_undecoded (prim : Primitives) (w : WrappedDEK) (sk : list Z) :
  (¬ ∃ c e n, decodes w c e n) →
  unwrapDEK prim w sk = Throw (TypeError "invalid encoding").
Proof.
  intros Hno. unfold unwrapDEK.
  destruct (decodeBase64_cases (ciphertext w)) as [[c Hc] | ->]; [|done].
  destruct (decodeBase64_cases (ephemeralPublicKey w)) as [[e He] | He].
  2:{ rewrite Hc, He. done. }
  destruct (decodeBase64_cases (nonce w)) as [[n Hn] | Hn].
  2:{ rewrite Hc, He, Hn. done. }
  exfalso. apply Hno. by exists c, e, n.
Qed.

(** C8, as the design document states it: [unwrap] has exactly one error
    condition, the authentication failure of the decryption primitive,
    and otherwise returns the key. Here the ciphertext field is not
    base64: the call neither returns a key nor throws the
    authentication-failure error, and the primitive is never reached. *)
Lemma unwrap_rejects_bad_encoding :
  let w := mkWrapped "!!!" "AAAA" "AAAA" in
  unwrapDEK sample_primitives w [1; 2; 3] = Throw (TypeError "invalid encoding") ∧
  unwrapDEK sample_primitives w [1; 2; 3] ≠ Throw unwrap_failed ∧
  (∀ prim sk, unwrapDEK prim w sk = Throw (TypeError "invalid encoding")).
Proof.
  split; [reflexivity|]. split; [intros H; discriminate H|].
  intros prim sk. reflexivity.
Qed.

(** C8, amended. [unwrapDEK] returns a key exactly when its three base64
    fields decode and the box primitive opens the ciphertext, and the key
    returned is the whole output of the primitive. It throws the
    authentication-failure error when the fields decode and the primitive
    returns [null]. That is not its only error: a field that is not valid
    base64 raises the decoder's [TypeError('invalid encoding')], and an
    exception of the primitive itself propagates unchanged. *)
Theorem unwrapDEK_outcomes (prim : Primitives) (w : WrappedDEK) (sk : list Z) :
  (∀ dek, unwrapDEK prim w sk = Ok dek ↔
          ∃ c e n, decodes w c e n ∧ box_open prim c n e sk = Ok (Some dek)) ∧
  (∀ c e n, decodes w c e n → box_open prim c n e sk = Ok None →
            unwrapDEK prim w sk = Throw unwrap_failed) ∧
  (∀ c e n err, decodes w c e n → box_open prim c n e sk = Throw err →
                unwrapDEK prim w sk = Throw err) ∧
  ((¬ ∃ c e n, decodes w c e n) →
   unwrapDEK prim w sk = Throw (TypeError "invalid encoding")).
Proof.
  split; [|split; [|split]].
  - intros dek. split.
    + intros H.
      destruct (decodeBase64_cases (ciphertext w)) as [[c Hc] | Hc];
        [|unfold unwrapDEK in H; rewrite Hc in H; discriminate H].
      destruct (decodeBase64_cases (ephemeralPublicKey w)) as [[e He] | He];
        [|unfold unwrapDEK in H; rewrite Hc, He in H; discriminate H].
      destruct (decodeBase64_cases (nonce w)) as [[n Hn] | Hn];
        [|unfold unwrapDEK in H; rewrite Hc, He, Hn in H; discriminate H].
      exists c, e, n. split; [done|].
      rewrite (unwrapDEK_decoded prim w sk c e n) in H by done.
      destruct (box_open prim c n e sk) as [[dek'|]|err]; congruence.
    + intros (c & e & n & Hd & Hopen).
      by rewrite (unwrapDEK_decoded prim w sk c e n Hd), Hopen.
  - intros c e n Hd Hopen. by rewrite (unwrapDEK_decoded prim w sk c e n Hd), Hopen.
  - intros c e n err Hd Hopen.
    by rewrite (unwrapDEK_decoded prim w sk c e n Hd), Hopen.
  - apply unwrapDEK_undecoded.
Qed.

Lemma unwrapDEK_outcomes_witness :
  unwrapDEK sample_primitives (mkWrapped "YWJjZA==" "AAAA" "AAEC") [1; 2; 3] =
    Throw unwrap_failed.
Proof.
  apply (proj1 (proj2 (unwrapDEK_outcomes sample_primitives
                         (mkWrapped "YWJjZA==" "AAAA" "AAEC") [1; 2; 3]))
               [97; 98; 99; 100] [0; 0; 0] [0; 1; 2]).
  - repeat split; reflexivity.
  - reflexivity.
Defined.

(** The ciphertext that [decryptAES] hands to the cipher and the tag it
    sets make up the decoded input again. *)
Lemma decryptAES_tag_split (ciphertext : list Z) :
  Bytes.slice_init 16 ciphertext ++ Bytes.slice_last 16 ciphertext = ciphertext ∧
  ((16 ≤ length ciphertext)%nat → length (Bytes.slice_last 16 ciphertext) = 16%nat).
Proof.
  unfold Bytes.slice_init, Bytes.slice_last. split; [apply firstn_skipn|].
  intros H. rewrite length_skipn. lia.
Qed.


(** *** The token object under validation *)

Lemma fresh_loc_fresh (h : gmap nat (list (string * val))) :
  h !! fresh_loc h = None.
Proof. apply not_elem_of_dom. unfold fresh_loc. apply is_fresh. Qed.

(** What [verifyTokenSignature] leaves in the store: the old objects as
    they were, and one new object, the copy without its signature. *)
Lemma verifyTokenSignature_store (prim : Primitives) (token : nat)
    (issuerPublicKey : list Z) (h : gmap nat (list (string * val)))
    (fields : list (string * val)) :
  h !! token = Some fields →
  snd (verifyTokenSignature prim token issuerPublicKey h) =
    <[fresh_loc h := delete_field "sigAlg" (delete_field "sig" fields)]> h.
Proof.
  intros Ht. unfold verifyTokenSignature. rewrite Ht. simpl.
  apply map_eq. intros l. destruct (decide (l = fresh_loc h)) as [->|Hne].
  - by rewrite !lookup_alter_eq, !lookup_insert_eq.
  - by rewrite !lookup_alter_ne, !lookup_insert_ne.
Qed.

Lemma verifyTokenSignature_frame (prim : Primitives) (token : nat)
    (issuerPublicKey : list Z) (h : gmap nat (list (string * val)))
    (l : nat) (o : list (string * val)) :
  h !! l = Some o →
  snd (verifyTokenSignature prim token issuerPublicKey h) !! l = Some o.
Proof.
  intros Hl. destruct (h !! token) as [fields|] eqn:Ht.
  - rewrite (verifyTokenSignature_store prim token issuerPublicKey h fields Ht).
    rewrite lookup_insert_ne; [done|].
    intros <-. rewrite fresh_loc_fresh in Hl. discriminate Hl.
  - unfold verifyTokenSignature. by rewrite Ht.
Qed.

(** C9. Validation never mutates a token: after [verifyTokenSignature],
    [isTokenExpired] or [validateToken] every object of the store, the
    token among them, has the properties it had before; in particular
    [sig] and [sigAlg] are still there after a signature check, whose
    deletions hit a copy. The verdict is a separate value. *)
Theorem validation_never_mutates_token :
  (∀ prim token issuerPublicKey (h : gmap nat (list (string * val))) l o,
     h !! l = Some o →
     snd (verifyTokenSignature prim token issuerPublicKey h) !! l = Some o) ∧
  (∀ prim token issuerPublicKey (h : gmap nat (list (string * val))) fields,
     h !! token = Some fields →
     let h' := snd (verifyTokenSignature prim token issuerPublicKey h) in
     lookup_field "sig" (default [] (h' !! token)) = lookup_field "sig" fields ∧
     lookup_field "sigAlg" (default [] (h' !! token)) = lookup_field "sigAlg" fields) ∧
  (∀ date_now token (h : gmap nat (list (string * val))),
     snd (isTokenExpired date_now token h) = h) ∧
  (∀ now tokenId requiredScope sdk,
     snd (Sdk.validateToken now tokenId requiredScope sdk) = sdk).
Proof.
  split; [|split; [|split]].
  - intros. by apply verifyTokenSignature_frame.
  - intros prim token pk h fields Ht h'. unfold h'.
    by rewrite (verifyTokenSignature_frame prim token pk h token fields Ht).
  - apply TokenFacts.isTokenExpired_frame.
  - apply TokenFacts.validateToken_frame.
Qed.

Lemma validation_never_mutates_token_witness :
  snd (verifyTokenSignature sample_primitives 0 [7; 7] Samples.heap_A) !! 0%nat =
    Some Samples.capability.
Proof.
  apply (proj1 validation_never_mutates_token sample_primitives 0%nat [7; 7]
               Samples.heap_A 0%nat Samples.capability).
  reflexivity.
Defined.

(** The signature is checked over the serialization of the copy, which
    has lost [sig] and [sigAlg], while the token keeps them. *)
Example signature_check_on_sample :
  verifyTokenSignature sample_primitives 0 [7; 7] Samples.heap_A =
    (Ok false,
     <[1%nat := delete_field "sigAlg" (delete_field "sig" Samples.capability)]>
       Samples.heap_A) ∧
  lookup_field "sig" Samples.capability = VStr "YWJj" ∧
  lookup_field "sig" (delete_field "sigAlg" (delete_field "sig" Samples.capability)) =
    VUndef.
Proof. vm_compute. by repeat split. Qed.

End CryptoFacts.

(** ** The life of an access token *)

Module LifecycleFacts.

Import Json Sdk Props.

Lemma createAccessToken_ok rnd_id rnd_key t_created t_now agent scopes durationMs
    (sdk sdk' : ProofiSDK) (tok : Token) :
  createAccessToken rnd_id rnd_key t_created t_now agent scopes durationMs sdk =
    (Ok tok, sdk') →
  tok = mkToken (Base64.encode rnd_id) agent scopes t_created (t_now + durationMs)
                (Base64.encode rnd_key) false ∧
  sdk' = with_tokens (<[Base64.encode rnd_id := tok]> (tokens sdk)) sdk.
Proof.
  unfold createAccessToken.
  destruct (JsDate.toISOString t_created); [|done].
  destruct (JsDate.toISOString (t_now + durationMs)); [|done].
  intros [= <- <-]. done.
Qed.

(** X1. A token that [createAccessToken] returned is stored under its
    identifier, the base64 of the random bytes drawn for it, and expires
    at the clock reading plus the duration. Until that instant (included)
    [validateToken] accepts it, without a scope and for every scope one
    of its patterns matches; after it the answer is [Token expired]. *)
Theorem created_token_validates_until_expiry rnd_id rnd_key t_created t_now
    agent scopes durationMs (sdk sdk' : ProofiSDK) (tok : Token) :
  createAccessToken rnd_id rnd_key t_created t_now agent scopes durationMs sdk =
    (Ok tok, sdk') →
  tokenId tok = Base64.encode rnd_id ∧
  expiresAt tok = t_now + durationMs ∧
  (∀ now, now ≤ t_now + durationMs →
     fst (validateToken now (tokenId tok) None sdk') = Valid tok) ∧
  (∀ now required, now ≤ t_now + durationMs →
     Scope.someScope scopes required = true →
     fst (validateToken now (tokenId tok) (Some required) sdk') = Valid tok) ∧
  (∀ now requiredScope, t_now + durationMs < now →
     fst (validateToken now (tokenId tok) requiredScope sdk') =
       Invalid "Token expired").
Proof.
  intros H. apply createAccessToken_ok in H as [-> ->].
  set (tok := mkToken _ _ _ _ _ _ _).
  assert (tokens (with_tokens (<[Base64.encode rnd_id := tok]> (tokens sdk)) sdk)
            !! tokenId tok = Some tok) as Hl by apply lookup_insert_eq.
  split; [done|]. split; [done|]. split; [|split].
  - intros now Hnow. by apply (TokenFacts.validateToken_valid _ _ _ _ tok).
  - intros now required Hnow Hs.
    apply (TokenFacts.validateToken_valid _ _ _ _ tok); try done. by right.
  - intros now requiredScope Hnow.
    by apply (TokenFacts.validateToken_expired _ _ _ _ tok).
Qed.

Lemma created_token_validates_until_expiry_witness :
  fst (validateToken 1700001800000 "AQID" (Some "health/steps/2023-11")
         (snd Samples.created)) = Valid Samples.created_token.
Proof.
  assert (createAccessToken [1; 2; 3] [4; 5; 6] 1700000000000 1700000000000
            "agent-A" ["health/steps/*"] 3600000 new_sdk =
          (Ok Samples.created_token, snd Samples.created)) as H
    by (vm_compute; reflexivity).
  destruct (created_token_validates_until_expiry _ _ _ _ _ _ _ _ _ _ H)
    as (_ & _ & _ & Hs & _).
  apply (Hs 1700001800000 "health/steps/2023-11"); [lia | reflexivity].
Defined.

(** X2. [createAccessToken] needs two dates it can print: when the
    creation time and the clock reading plus the duration are both within
    8.64e15 ms of the epoch it returns a live token and stores it;
    otherwise [toISOString] raises [RangeError: Invalid time value] and
    the instance is left as it was, with no token stored. *)
Theorem createAccessToken_needs_valid_dates rnd_id rnd_key t_created t_now
    agent scopes durationMs (sdk : ProofiSDK) :
  let out := createAccessToken rnd_id rnd_key t_created t_now agent scopes
               durationMs sdk in
  if JsDate.valid_time t_created && JsDate.valid_time (t_now + durationMs)
  then ∃ tok, fst out = Ok tok ∧ tokens (snd out) !! tokenId tok = Some tok ∧
              revoked tok = false
  else out = (Throw (RangeError "Invalid time value"), sdk).
Proof.
  intros out. unfold out. clear out.
  destruct (JsDate.valid_time t_created) eqn:H1; simpl.
  - destruct (KeysFacts.toISOString_valid _ H1) as [s1 Hs1].
    destruct (JsDate.valid_time (t_now + durationMs)) eqn:H2.
    + destruct (KeysFacts.toISOString_valid _ H2) as [s2 Hs2].
      unfold createAccessToken. rewrite Hs1, Hs2.
      eexists. split; [reflexivity|]. simpl. split; [|done]. apply lookup_insert_eq.
    + unfold createAccessToken. rewrite Hs1.
      unfold JsDate.toISOString. by rewrite H2.
  - unfold createAccessToken, JsDate.toISOString. by rewrite H1.
Qed.

(** X3. [revokeToken] is targeted and idempotent: on an unknown
    identifier it changes nothing, a second call changes nothing more,
    the verdict on every other token stays what it was, the revoked
    token is refused as [Token revoked] at every time and for every
    scope, and the audit chain is not written to. *)
Theorem revocation_is_targeted_and_idempotent (tokenId : string) (sdk : ProofiSDK) :
  (tokens sdk !! tokenId = None → revokeToken tokenId sdk = sdk) ∧
  revokeToken tokenId (revokeToken tokenId sdk) = revokeToken tokenId sdk ∧
  (∀ other now requiredScope, other ≠ tokenId →
     fst (validateToken now other requiredScope (revokeToken tokenId sdk)) =
     fst (validateToken now other requiredScope sdk)) ∧
  (∀ now requiredScope, is_Some (tokens sdk !! tokenId) →
     fst (validateToken now tokenId requiredScope (revokeToken tokenId sdk)) =
       Invalid "Token revoked") ∧
  auditChain (revokeToken tokenId sdk) = auditChain sdk.
Proof.
  split; [|split; [|split; [|split]]].
  - intros H. unfold revokeToken. by rewrite H.
  - unfold revokeToken. destruct (tokens sdk !! tokenId) as [t|] eqn:Ht.
    + simpl. rewrite lookup_insert_eq. simpl. f_equal. apply insert_insert_eq.
    + by rewrite Ht.
  - intros other now requiredScope Hne. unfold revokeToken.
    destruct (tokens sdk !! tokenId) as [t|]; [|done].
    unfold validateToken. simpl. rewrite lookup_insert_ne by done.
    destruct (tokens sdk !! other) as [t'|]; [|done].
    destruct (revoked t'); [done|]. destruct (expiresAt t' <? now); [done|].
    destruct requiredScope as [r|]; [|done].
    by destruct (negb (String.eqb r EmptyString) && negb (Scope.someScope (scopes t') r)).
  - intros now requiredScope [t Ht].
    apply (TokenFacts.validateToken_revoked _ _ _ _ (revoke t)); [|done].
    unfold revokeToken. rewrite Ht. simpl. apply lookup_insert_eq.
  - apply AgentFacts.revokeToken_chain.
Qed.

Lemma revocation_is_targeted_and_idempotent_witness :
  fst (validateToken 1800000 "tok" None (revokeToken "other" Samples.sdk_A)) =
  fst (validateToken 1800000 "tok" None Samples.sdk_A).
Proof.
  apply (proj1 (proj2 (proj2 (revocation_is_targeted_and_idempotent "other"
                                Samples.sdk_A))) "tok" 1800000 None).
  intros H. discriminate H.
Defined.

(** X4. The scope check of [validateToken], for a stored token that is
    neither revoked nor expired: a required scope is granted exactly when
    it is the empty string (which skips the check), or equals one of the
    token's patterns, or one of the patterns is [q/*] and the required
    scope begins with the characters of [q]. Every other required scope
    is refused with [Scope ... not granted]. *)
Theorem validateToken_scope_semantics (now : Z) (tokenId required : string)
    (sdk : ProofiSDK) (t : Token) :
  tokens sdk !! tokenId = Some t → revoked t = false → now ≤ expiresAt t →
  (fst (validateToken now tokenId (Some required) sdk) = Valid t ↔
   required = EmptyString ∨
   ∃ s, In s (scopes t) ∧
     (s = required ∨ ∃ q rest, s = q +:+ "/*" ∧ required = q +:+ rest)) ∧
  (fst (validateToken now tokenId (Some required) sdk) ≠ Valid t →
   fst (validateToken now tokenId (Some required) sdk) =
     Invalid ("Scope " +:+ required +:+ " not granted")).
Proof.
  intros Ht Hr He.
  assert (Scope.someScope (scopes t) required = true ↔
          ∃ s, In s (scopes t) ∧
            (s = required ∨ ∃ q rest, s = q +:+ "/*" ∧ required = q +:+ rest)) as Hsome.
  { unfold Scope.someScope. rewrite existsb_exists.
    split; intros (s & Hin & Hm); exists s; (split; [done|]);
      by apply ScopeFacts.matchScope_spec. }
  unfold validateToken. rewrite Ht, Hr.
  apply Z.ltb_ge in He. rewrite He.
  destruct (String.eqb_spec required EmptyString) as [->|Hne]; simpl.
  - split; [|done]. split; [by left | done].
  - destruct (Scope.someScope (scopes t) required) eqn:Hs; simpl.
    + split; [|done]. split; [intros _; right; by apply Hsome | done].
    + split; [|done]. split; [done|].
      intros [? | Hex]; [done|]. apply Hsome in Hex. congruence.
Qed.

Lemma validateToken_scope_semantics_witness :
  fst (validateToken 1800000 "tok" (Some "health/steps/2023-11") Samples.sdk_A) =
    Valid Samples.token_A.
Proof.
  apply (proj1 (validateToken_scope_semantics 1800000 "tok"
                  "health/steps/2023-11" Samples.sdk_A Samples.token_A
                  ltac:(reflexivity) ltac:(reflexivity) ltac:(simpl; lia))).
  right. exists "health/steps/*". split; [by left|]. right.
  by exists "health/steps", "/2023-11".
Defined.

End LifecycleFacts.

(** ** Access durations *)

Module DurationFacts.

Import Sdk JsStringFacts.

Lemma is_digit_pretty_N_char (x : N) : is_digit (pretty_N_char x) = true.
Proof. unfold pretty_N_char. by repeat case_match. Qed.

Lemma pretty_N_char_value (x : N) :
  (x < 10)%N → Z.of_nat (nat_of_ascii (pretty_N_char x)) - 48 = Z.of_N x.
Proof.
  intros Hx. destruct x as [|p]; [reflexivity|].
  do 4 (try destruct p as [p|p|]; try reflexivity; try lia).
Qed.

Lemma all_digits_pretty_N_go (x : N) (s : string) :
  all_digits s = true → all_digits (pretty_N_go x s) = true.
Proof.
  revert s. induction (N.lt_wf_0 x) as [x _ IH]. intros s Hs.
  destruct (decide (x = 0)%N) as [->|Hx]; [by rewrite pretty_N_go_0|].
  rewrite pretty_N_go_step by lia. apply IH.
  - apply N.div_lt; lia.
  - simpl. by rewrite is_digit_pretty_N_char, Hs.
Qed.

Lemma parse_digits_pretty_N_go (x : N) (s : string) :
  parse_digits (pretty_N_go x s) 0 = parse_digits s (Z.of_N x).
Proof.
  revert s. induction (N.lt_wf_0 x) as [x _ IH]. intros s.
  destruct (decide (x = 0)%N) as [->|Hx]; [by rewrite pretty_N_go_0|].
  rewrite pretty_N_go_step by lia. rewrite IH by (apply N.div_lt; lia).
  simpl. f_equal. rewrite pretty_N_char_value by (apply N.mod_lt; lia).
  rewrite N2Z.inj_div, N2Z.inj_mod. change (Z.of_N 10) with 10.
  pose proof (Z.div_mod (Z.of_N x) 10). lia.
Qed.

Lemma pretty_N_digits (x : N) :
  all_digits (pretty x) = true ∧ parse_digits (pretty x) 0 = Z.of_N x ∧
  pretty x ≠ EmptyString.
Proof.
  unfold pretty, pretty_N. case_decide as Hx; [by subst|].
  split; [by apply all_digits_pretty_N_go|]. split.
  - by rewrite parse_digits_pretty_N_go.
  - rewrite pretty_N_go_step by lia. by apply JsonFacts.pretty_N_go_nonempty.
Qed.

Lemma pretty_nonneg_digits (n : Z) :
  0 ≤ n →
  all_digits (pretty n) = true ∧ parse_digits (pretty n) 0 = n ∧
  pretty n ≠ EmptyString.
Proof.
  intros Hn. destruct n as [|p|p]; [done| |lia].
  unfold pretty, pretty_Z. apply (pretty_N_digits (N.pos p)).
Qed.

Lemma parseDuration_digits (digits unit : string) :
  digits ≠ EmptyString → all_digits digits = true → String.length unit = 1%nat →
  parseDuration (Some (digits +:+ unit)) =
    if String.eqb unit "h" then parse_digits digits 0 * 3600000
    else if String.eqb unit "m" then parse_digits digits 0 * 60000
    else if String.eqb unit "s" then parse_digits digits 0 * 1000
    else 3600000.
Proof.
  intros Hne Hd Hu. unfold parseDuration.
  rewrite length_append, Hu.
  replace (String.length digits + 1 - 1)%nat with (String.length digits) by lia.
  rewrite substring_app_l.
  assert (substring (String.length digits) 1 (digits +:+ unit) = unit) as ->
    by (rewrite <- Hu; apply substring_app_r).
  rewrite Hd.
  replace (2 <=? String.length digits + 1)%nat with true; [done|].
  symmetry. apply Nat.leb_le. destruct digits; [done | simpl; lia].
Qed.

(** X5. [parseDuration] reads back a duration written as a decimal
    number and a unit letter: for [n >= 0] and the unit [h], [m] or [s],
    the text of [n] followed by the unit gives [n] times 3600000, 60000
    or 1000 milliseconds (for products below 2^53, where JavaScript
    numbers are exact). *)
Theorem parseDuration_reads_back (n : Z) (unit : string) (ms : Z) :
  In (unit, ms) [("h", 3600000); ("m", 60000); ("s", 1000)] →
  0 ≤ n → n * ms < 2 ^ 53 →
  parseDuration (Some (pretty n +:+ unit)) = n * ms.
Proof.
  intros Hu Hn _. destruct (pretty_nonneg_digits n Hn) as (Hd & Hp & Hne).
  simpl in Hu.
  destruct Hu as [[= <- <-] | [[= <- <-] | [[= <- <-] | []]]];
    rewrite parseDuration_digits by done; simpl; by rewrite Hp.
Qed.

Lemma parseDuration_reads_back_witness :
  parseDuration (Some "90m") = 90 * 60000.
Proof.
  apply (parseDuration_reads_back 90 "m" 60000).
  - right. left. reflexivity.
  - lia.
  - reflexivity.
Defined.

Lemma parse_digits_nonneg (s : string) (acc : Z) :
  all_digits s = true → 0 ≤ acc → 0 ≤ parse_digits s acc.
Proof.
  revert acc. induction s as [|c s IH]; intros acc Hs Hacc; simpl in *; [done|].
  apply andb_true_iff in Hs as [Hc Hs]. apply IH; [done|].
  unfold is_digit in Hc. apply andb_true_iff in Hc as [Hc _].
  apply Nat.leb_le in Hc. lia.
Qed.

(** X6. [parseDuration] never returns a negative duration, and it
    returns the default of one hour (3600000 ms) for a missing string and
    for every string that is not one or more decimal digits followed by
    [h], [m] or [s]: any other result comes from a string of that form. *)
Theorem parseDuration_default_and_sign (str : option string) :
  0 ≤ parseDuration str ∧
  (parseDuration str ≠ 3600000 →
   ∃ digits unit,
     str = Some (digits +:+ unit) ∧ digits ≠ EmptyString ∧
     all_digits digits = true ∧ (unit = "h" ∨ unit = "m" ∨ unit = "s")).
Proof.
  destruct str as [s|]; [|split; [done | intros H; done]].
  unfold parseDuration.
  set (n := String.length s).
  set (digits := substring 0 (n - 1) s).
  set (unit := substring (n - 1) 1 s).
  destruct (Nat.leb_spec 2 n) as [Hn|Hn]; simpl; [|split; [done | intros H; done]].
  destruct (all_digits digits) eqn:Hd; simpl; [|split; [done | intros H; done]].
  assert (s = digits +:+ unit) as Hs.
  { pose proof (substring_split s (n - 1)) as H. fold n in H.
    replace (n - (n - 1))%nat with 1%nat in H by lia. apply H. lia. }
  assert (digits ≠ EmptyString) as Hne.
  { intros H. apply (f_equal String.length) in Hs.
    rewrite length_append, H in Hs. fold n in Hs. simpl in Hs.
    assert (String.length unit ≤ 1)%nat; [|lia].
    unfold unit. clear. generalize (n - 1)%nat. induction s as [|a s IH]; intros k.
    - destruct k; simpl; lia.
    - destruct k; simpl; [destruct s; simpl; lia | apply IH]. }
  pose proof (parse_digits_nonneg digits 0 Hd ltac:(done)) as Hp.
  assert (unit = "h" ∨ unit = "m" ∨ unit = "s" →
          ∃ digits0 unit0,
            Some s = Some (digits0 +:+ unit0) ∧ digits0 ≠ EmptyString ∧
            all_digits digits0 = true ∧
            (unit0 = "h" ∨ unit0 = "m" ∨ unit0 = "s")) as Hform.
  { intros Hu. exists digits, unit. split; [by f_equal|]. done. }
  destruct (String.eqb_spec unit "h") as [Hu|_].
  { split; [lia|]. intros _. apply Hform. by left. }
  destruct (String.eqb_spec unit "m") as [Hu|_].
  { split; [lia|]. intros _. apply Hform. right. by left. }
  destruct (String.eqb_spec unit "s") as [Hu|_].
  { split; [lia|]. intros _. apply Hform. right. by right. }
  split; [done | intros H; done].
Qed.

Lemma parseDuration_default_and_sign_witness :
  ∃ digits unit,
    Some "45s" = Some (digits +:+ unit) ∧ digits ≠ EmptyString ∧
    all_digits digits = true ∧ (unit = "h" ∨ unit = "m" ∨ unit = "s").
Proof.
  apply (proj2 (parseDuration_default_and_sign (Some "45s"))).
  vm_compute. intros H. discriminate H.
Defined.

End DurationFacts.

(** ** What [verifyChain] decides *)

Module ChainFacts.

Import Json Sdk Props.

Lemma passes_check (chain : list AuditEntry) (i : nat) :
  (i < length chain)%nat → (check_entry chain i = None ↔ passes chain i).
Proof.
  intros Hi. destruct (lookup_lt_is_Some_2 chain i Hi) as [e He].
  rewrite (AuditFacts.check_entry_none chain i e He). unfold passes. split.
  - intros H e' He'. rewrite He in He'. by injection He' as <-.
  - intros H. by apply H.
Qed.

Lemma check_entry_reason (chain : list AuditEntry) (i : nat) (reason : string) :
  check_entry chain i = Some reason ↔
  ∃ e, chain !! i = Some e ∧
    (prevHash e ≠ expected_prev chain i ∧ reason = "prevHash mismatch" ∨
     prevHash e = expected_prev chain i ∧ hash e ≠ sha256_b64 (rest_json e) ∧
     reason = "Hash mismatch").
Proof.
  unfold check_entry. fold (expected_prev chain i).
  destruct (chain !! i) as [e|]; [|split; [done | by intros (? & ? & _)]].
  destruct (String.eqb_spec (prevHash e) (expected_prev chain i)) as [Hp|Hp]; simpl.
  - destruct (String.eqb_spec (sha256_b64 (rest_json e)) (hash e)) as [Hh|Hh]; simpl.
    + split; [done|]. intros (e' & [= <-] & [[? _] | (_ & ? & _)]); congruence.
    + split.
      * intros [= <-]. exists e. split; [done|]. right. repeat split; congruence.
      * intros (e' & [= <-] & [[? _] | (_ & _ & ->)]); [congruence | done].
  - split.
    + intros [= <-]. exists e. split; [done|]. by left.
    + intros (e' & [= <-] & [[_ ->] | (? & _)]); [done | congruence].
Qed.

Lemma verify_loop_valid_inv (chain : list AuditEntry) (n i m : nat) :
  verify_loop chain n i = ChainValid m →
  m = length chain ∧ ∀ j, (i ≤ j < i + n)%nat → check_entry chain j = None.
Proof.
  revert i. induction n as [|n IH]; intros i H; simpl in H.
  - injection H as <-. split; [done|]. intros j Hj. lia.
  - destruct (check_entry chain i) eqn:Hc; [done|].
    destruct (IH _ H) as [-> Hrest]. split; [done|].
    intros j Hj. destruct (decide (j = i)) as [->|Hne]; [done|].
    apply Hrest. lia.
Qed.

Lemma verify_loop_broken_inv (chain : list AuditEntry) (n i k : nat) (reason : string) :
  verify_loop chain n i = ChainBroken k reason →
  (i ≤ k < i + n)%nat ∧ (∀ j, (i ≤ j < k)%nat → check_entry chain j = None) ∧
  check_entry chain k = Some reason.
Proof.
  revert i. induction n as [|n IH]; intros i H; simpl in H; [done|].
  destruct (check_entry chain i) eqn:Hc.
  - injection H as <- <-. split; [lia|]. split; [|done]. intros j Hj. lia.
  - destruct (IH _ H) as (Hk & Hbefore & Hat). split; [lia|]. split; [|done].
    intros j Hj. destruct (decide (j = i)) as [->|Hne]; [done|].
    apply Hbefore. lia.
Qed.

Lemma verifyChain_valid_linked (sdk : ProofiSDK) (n : nat) :
  verifyChain sdk = ChainValid n →
  n = length (auditChain sdk) ∧ linked (auditChain sdk).
Proof.
  intros H. apply verify_loop_valid_inv in H as [-> Hall]. split; [done|].
  intros i e He. apply (AuditFacts.check_entry_none _ _ _ He).
  apply Hall. apply lookup_lt_Some in He. lia.
Qed.

Lemma verifyChain_broken_inv (sdk : ProofiSDK) (k : nat) (reason : string) :
  verifyChain sdk = ChainBroken k reason →
  (∀ j, (j < k)%nat → passes (auditChain sdk) j) ∧
  ∃ e, auditChain sdk !! k = Some e ∧
    (prevHash e ≠ expected_prev (auditChain sdk) k ∧ reason = "prevHash mismatch" ∨
     prevHash e = expected_prev (auditChain sdk) k ∧
     hash e ≠ sha256_b64 (rest_json e) ∧ reason = "Hash mismatch").
Proof.
  intros H. apply verify_loop_broken_inv in H as (Hk & Hbefore & Hat).
  split; [|by apply check_entry_reason].
  intros j Hj. apply passes_check; [lia|]. apply Hbefore. lia.
Qed.

Lemma verifyChain_broken_intro (sdk : ProofiSDK) (k : nat) (reason : string) :
  (∀ j, (j < k)%nat → passes (auditChain sdk) j) →
  (∃ e, auditChain sdk !! k = Some e ∧
    (prevHash e ≠ expected_prev (auditChain sdk) k ∧ reason = "prevHash mismatch" ∨
     prevHash e = expected_prev (auditChain sdk) k ∧
     hash e ≠ sha256_b64 (rest_json e) ∧ reason = "Hash mismatch")) →
  verifyChain sdk = ChainBroken k reason.
Proof.
  intros Hbefore Hat. apply check_entry_reason in Hat.
  assert (k < length (auditChain sdk))%nat as Hk.
  { unfold check_entry in Hat. destruct (auditChain sdk !! k) eqn:He; [|done].
    by apply lookup_lt_Some in He. }
  apply AuditFacts.verify_loop_broken; [lia| |done].
  intros j Hj. apply passes_check; [lia|]. apply Hbefore. lia.
Qed.

(** X7. [verifyChain] is sound and complete: it answers [valid] exactly
    when every entry's [prevHash] is the hash of the entry before it (64
    zeros for the first) and every entry's [hash] is the digest of its
    own serialization; the [entries] it then reports is the length of the
    chain. *)
Theorem verifyChain_valid_iff_linked (sdk : ProofiSDK) (n : nat) :
  verifyChain sdk = ChainValid n ↔
  n = length (auditChain sdk) ∧ linked (auditChain sdk).
Proof.
  split; [apply verifyChain_valid_linked|].
  intros [-> Hl]. by apply AuditFacts.linked_verify.
Qed.

Lemma verifyChain_valid_iff_linked_witness :
  linked (auditChain Samples.chain_sdk).
Proof.
  apply (proj1 (verifyChain_valid_iff_linked Samples.chain_sdk 3)).
  vm_compute. reflexivity.
Defined.

(** X8. When [verifyChain] reports a break, [brokenAt] is the first entry
    that fails a check: every entry before it passes both checks, and
    the reason is [prevHash mismatch] when that entry's [prevHash] is not
    the expected one, and [Hash mismatch] when the [prevHash] is right
    but the stored hash is not the digest of the entry. The converse
    holds as well. *)
Theorem verifyChain_reports_first_break (sdk : ProofiSDK) (k : nat) (reason : string) :
  verifyChain sdk = ChainBroken k reason ↔
  (∀ j, (j < k)%nat → passes (auditChain sdk) j) ∧
  ∃ e, auditChain sdk !! k = Some e ∧
    (prevHash e ≠ expected_prev (auditChain sdk) k ∧ reason = "prevHash mismatch" ∨
     prevHash e = expected_prev (auditChain sdk) k ∧
     hash e ≠ sha256_b64 (rest_json e) ∧ reason = "Hash mismatch").
Proof.
  split; [apply verifyChain_broken_inv|].
  intros [Hbefore Hat]. by apply verifyChain_broken_intro.
Qed.

Lemma verifyChain_reports_first_break_witness :
  ∃ e, auditChain (tamper 1 Samples.forged_details Samples.chain_sdk) !! 1%nat = Some e ∧
       hash e ≠ sha256_b64 (rest_json e).
Proof.
  assert (verifyChain (tamper 1 Samples.forged_details Samples.chain_sdk) =
          ChainBroken 1 "Hash mismatch") as H by (vm_compute; reflexivity).
  destruct (proj1 (verifyChain_reports_first_break _ _ _) H)
    as (_ & e & He & [[_ Hr] | (_ & Hh & _)]).
  - discriminate Hr.
  - exists e. split; [exact He | exact Hh].
Defined.

Lemma sha256_b64_length (data : string) : String.length (sha256_b64 data) = 44%nat.
Proof.
  with_strategy transparent [sha256_b64] unfold sha256_b64.
  unfold Sha256.digest.
  generalize (fold_left Sha256.compress
                (Sha256.chunks (length (Sha256.pad (Bytes.of_string data))) 64
                   (Sha256.pad (Bytes.of_string data))) Sha256.init).
  intros r. reflexivity.
Qed.

Lemma hash_not_genesis (data : string) : sha256_b64 data ≠ genesis.
Proof.
  intros H. apply (f_equal String.length) in H.
  rewrite sha256_b64_length in H. vm_compute in H. discriminate H.
Qed.

Lemma expected_prev_take (chain : list AuditEntry) (m j : nat) :
  (j < m)%nat → expected_prev (take m chain) j = expected_prev chain j.
Proof.
  intros Hj. unfold expected_prev. destruct (j =? 0)%nat; [done|].
  by rewrite lookup_take_lt by lia.
Qed.

Lemma linked_take (chain : list AuditEntry) (m : nat) :
  linked chain → linked (take m chain).
Proof.
  intros Hl i e He.
  assert (i < m)%nat as Hi.
  { apply lookup_lt_Some in He. rewrite length_take in He. lia. }
  rewrite lookup_take_lt in He by done. rewrite expected_prev_take by done.
  by apply Hl.
Qed.

(** X9. Removing entries from the end of a valid chain is not detected:
    for a chain that [verifyChain] accepts, every prefix of it is
    accepted too, with its own length as [entries]. *)
Theorem truncated_chain_still_verifies (sdk : ProofiSDK) (n m : nat) :
  verifyChain sdk = ChainValid n →
  verifyChain (with_chain (take m (auditChain sdk)) sdk) = ChainValid (m `min` n).
Proof.
  intros H. apply verifyChain_valid_linked in H as [-> Hl].
  rewrite (AuditFacts.linked_verify (with_chain (take m (auditChain sdk)) sdk))
    by (by apply linked_take).
  simpl. by rewrite length_take.
Qed.

Lemma truncated_chain_still_verifies_witness :
  verifyChain (with_chain (take 2 (auditChain Samples.chain_sdk)) Samples.chain_sdk) =
    ChainValid 2.
Proof.
  apply (truncated_chain_still_verifies Samples.chain_sdk 3 2).
  vm_compute. reflexivity.
Defined.

(** X10. Removing entries from the front of a valid chain is detected:
    if a chain of [n] entries verifies and its first [m] entries are
    dropped, with [0 < m < n], [verifyChain] reports it broken at index 0
    with [prevHash mismatch] (a base64 digest has 44 characters and is
    never the 64 zeros expected at index 0). *)
Theorem dropped_head_is_detected (sdk : ProofiSDK) (n m : nat) :
  verifyChain sdk = ChainValid n → (0 < m < n)%nat →
  verifyChain (with_chain (drop m (auditChain sdk)) sdk) =
    ChainBroken 0 "prevHash mismatch".
Proof.
  intros H Hm. apply verifyChain_valid_linked in H as [-> Hl].
  destruct (lookup_lt_is_Some_2 (auditChain sdk) m) as [e He]; [lia|].
  destruct (lookup_lt_is_Some_2 (auditChain sdk) (m - 1)) as [p Hp]; [lia|].
  apply verifyChain_broken_intro; simpl; [intros j Hj; lia|].
  exists e. split.
  - rewrite lookup_drop. by rewrite Nat.add_0_r.
  - left. split; [|done].
    destruct (Hl _ _ He) as [-> _]. destruct (Hl _ _ Hp) as [_ Hh].
    unfold expected_prev at 1. replace (m =? 0)%nat with false
      by (symmetry; apply Nat.eqb_neq; lia).
    rewrite Hp, Hh. apply hash_not_genesis.
Qed.

Lemma dropped_head_is_detected_witness :
  verifyChain (with_chain (drop 1 (auditChain Samples.chain_sdk)) Samples.chain_sdk) =
    ChainBroken 0 "prevHash mismatch".
Proof.
  apply (dropped_head_is_detected Samples.chain_sdk 3 1).
  - vm_compute. reflexivity.
  - lia.
Defined.

Lemma passes_app (chain : list AuditEntry) (e : AuditEntry) (j : nat) :
  (j < length chain)%nat → (passes (chain ++ [e]) j ↔ passes chain j).
Proof.
  intros Hj. unfold passes.
  rewrite lookup_app_l by done. by rewrite AuditFacts.expected_prev_app by done.
Qed.

Lemma append_valid (now : Z) (action : string) (details : val)
    (sdk : ProofiSDK) (n : nat) :
  verifyChain sdk = ChainValid n →
  verifyChain (snd (addAuditEntry now action details sdk)) = ChainValid (S n).
Proof.
  intros H. apply verifyChain_valid_linked in H as [-> Hl].
  rewrite (AuditFacts.linked_verify _ (AuditFacts.addAuditEntry_linked _ _ _ _ Hl)).
  rewrite AuditFacts.addAuditEntry_chain, length_app. simpl. f_equal. lia.
Qed.

Lemma append_broken (now : Z) (action : string) (details : val)
    (sdk : ProofiSDK) (k : nat) (reason : string) :
  verifyChain sdk = ChainBroken k reason →
  verifyChain (snd (addAuditEntry now action details sdk)) = ChainBroken k reason.
Proof.
  intros H. apply verifyChain_broken_inv in H as (Hbefore & e & He & Hat).
  pose proof (lookup_lt_Some _ _ _ He) as Hk.
  apply verifyChain_broken_intro; rewrite AuditFacts.addAuditEntry_chain.
  - intros j Hj. apply passes_app; [lia|]. by apply Hbefore.
  - exists e. rewrite lookup_app_l by done.
    by rewrite AuditFacts.expected_prev_app by done.
Qed.

(** X11. [addAuditEntry] neither repairs nor breaks a chain: after an
    append a valid chain of [n] entries is valid with [n + 1], and a
    chain broken at index [k] is still reported broken at [k] with the
    same reason. *)
Theorem append_keeps_the_verdict (now : Z) (action : string) (details : val)
    (sdk : ProofiSDK) :
  let sdk' := snd (addAuditEntry now action details sdk) in
  (∀ n, verifyChain sdk = ChainValid n → verifyChain sdk' = ChainValid (S n)) ∧
  (∀ k reason, verifyChain sdk = ChainBroken k reason →
               verifyChain sdk' = ChainBroken k reason).
Proof.
  split; [intros n; apply append_valid | intros k reason; apply append_broken].
Qed.

Lemma append_keeps_the_verdict_witness :
  verifyChain (snd (addAuditEntry 1700000010000 "TOKEN_REVOKED" VNull
                      (tamper 1 Samples.forged_details Samples.chain_sdk))) =
    ChainBroken 1 "Hash mismatch".
Proof.
  apply (proj2 (append_keeps_the_verdict 1700000010000 "TOKEN_REVOKED" VNull
                  (tamper 1 Samples.forged_details Samples.chain_sdk))).
  vm_compute. reflexivity.
Defined.

Lemma expected_prev_alter_le (f : AuditEntry → AuditEntry)
    (chain : list AuditEntry) (i j : nat) :
  (j ≤ i)%nat → expected_prev (alter f i chain) j = expected_prev chain j.
Proof.
  intros Hj. unfold expected_prev. destruct (Nat.eqb_spec j 0); [done|].
  by rewrite list_lookup_alter_ne by lia.
Qed.

Lemma passes_alter_lt (f : AuditEntry → AuditEntry)
    (chain : list AuditEntry) (i j : nat) :
  (j < i)%nat → (passes (alter f i chain) j ↔ passes chain j).
Proof.
  intros Hj. unfold passes.
  rewrite list_lookup_alter_ne by lia. by rewrite expected_prev_alter_le by lia.
Qed.

(** X12. An edit of the stored [hash] or [prevHash] of an entry of a
    valid chain is always detected at that entry: a different [hash]
    gives [Hash mismatch] and a different [prevHash] gives [prevHash
    mismatch], both with [brokenAt] the index of the edited entry. *)
Theorem edited_hash_is_detected (sdk : ProofiSDK) (n i : nat) (e : AuditEntry)
    (s : string) :
  verifyChain sdk = ChainValid n → auditChain sdk !! i = Some e →
  (s ≠ hash e →
   verifyChain (edit (set_hash s) i sdk) = ChainBroken i "Hash mismatch") ∧
  (s ≠ prevHash e →
   verifyChain (edit (set_prevHash s) i sdk) = ChainBroken i "prevHash mismatch").
Proof.
  intros H He. apply verifyChain_valid_linked in H as [-> Hl].
  destruct (Hl _ _ He) as [Hp Hh].
  split; intros Hs; apply verifyChain_broken_intro; simpl.
  - intros j Hj. apply passes_alter_lt; [done|]. intros e'. apply Hl.
  - exists (set_hash s e). rewrite list_lookup_alter_eq, He. split; [done|].
    right. rewrite expected_prev_alter_le by done. simpl.
    repeat split; [done|]. change (rest_json (set_hash s e)) with (rest_json e).
    congruence.
  - intros j Hj. apply passes_alter_lt; [done|]. intros e'. apply Hl.
  - exists (set_prevHash s e). rewrite list_lookup_alter_eq, He. split; [done|].
    left. rewrite expected_prev_alter_le by done. simpl. split; [congruence | done].
Qed.

Lemma edited_hash_is_detected_witness :
  verifyChain (edit (set_hash "AAAA") 1 Samples.chain_sdk) =
    ChainBroken 1 "Hash mismatch".
Proof.
  assert (verifyChain Samples.chain_sdk = ChainValid 3) as Hv
    by (vm_compute; reflexivity).
  assert (auditChain Samples.chain_sdk !! 1%nat = Some Samples.second_entry) as He
    by (vm_compute; reflexivity).
  apply (proj1 (edited_hash_is_detected Samples.chain_sdk 3 1 Samples.second_entry
                  "AAAA" Hv He)).
  intros H. vm_compute in H. discriminate H.
Defined.

End ChainFacts.

(** ** The audit trail of a run *)

Module RunFacts.

Import Json Sdk Props.

Lemma append_assoc (a b c : string) : (a +:+ b) +:+ c = a +:+ b +:+ c.
Proof.
  induction a as [|x a IH]; [done|].
  rewrite !JsStringFacts.append_cons. by rewrite IH.
Qed.

Lemma verifyChain_chain (a b : ProofiSDK) :
  auditChain a = auditChain b → verifyChain a = verifyChain b.
Proof. unfold verifyChain. by intros ->. Qed.

Lemma append_chain_valid (now : Z) (action : string) (details : val) (sdk : ProofiSDK) :
  chain_valid (verifyChain (snd (addAuditEntry now action details sdk))) =
  chain_valid (verifyChain sdk).
Proof.
  destruct (verifyChain sdk) as [n|k reason] eqn:H.
  - by rewrite (ChainFacts.append_valid _ _ _ _ _ H).
  - by rewrite (ChainFacts.append_broken _ _ _ _ _ _ H).
Qed.

(** One awaited [addAuditEntry]: what it leaves behind. *)
Lemma addAuditEntry_step (now : Z) (a : string) (d : val)
    (sdk sdk' : ProofiSDK) (e : AuditEntry) :
  addAuditEntry now a d sdk = (e, sdk') →
  auditChain sdk' = auditChain sdk ++ [e] ∧ action e = a ∧
  tokens sdk' = tokens sdk ∧
  chain_valid (verifyChain sdk') = chain_valid (verifyChain sdk).
Proof.
  intros H. pose proof (append_chain_valid now a d sdk) as Hv.
  rewrite H in Hv. injection H as <- <-. done.
Qed.

Lemma createAccessToken_valid rnd_id rnd_key t_created t_now agent scopes
    durationMs (sdk : ProofiSDK) :
  JsDate.valid_time t_created = true →
  JsDate.valid_time (t_now + durationMs) = true →
  is_ok (fst (createAccessToken rnd_id rnd_key t_created t_now agent scopes
                durationMs sdk)) = true.
Proof.
  intros H1 H2. unfold createAccessToken.
  destruct (KeysFacts.toISOString_valid _ H1) as [s1 ->].
  by destruct (KeysFacts.toISOString_valid _ H2) as [s2 ->].
Qed.

Lemma sign_chain_step (env : Env) (w : option WalletState)
    (sdk sdk' : ProofiSDK) (signature : option string) :
  sign_chain env w sdk = (signature, sdk') →
  tokens sdk' = tokens sdk ∧
  chain_valid (verifyChain sdk') = chain_valid (verifyChain sdk) ∧
  (signature = None ∧ auditChain sdk' = auditChain sdk ∨
   ∃ e, is_Some signature ∧ is_Some w ∧ action e = "CHAIN_SIGNED" ∧
        auditChain sdk' = auditChain sdk ++ [e]).
Proof.
  unfold sign_chain. destruct w as [wallet|]; [|intros [= <- <-]; auto].
  destruct (extension env) as [ext|]; [|intros [= <- <-]; auto].
  destruct (signMessage ext) as [sign|]; [|intros [= <- <-]; auto].
  destruct (sign _) as [s|err]; [|intros [= <- <-]; auto].
  destruct (addAuditEntry _ _ _ sdk) as [e7 sdk7] eqn:H7.
  apply addAuditEntry_step in H7 as (C7 & A7 & T7 & V7).
  intros [= <- <-]. split; [done|]. split; [done|]. right. by exists e7.
Qed.

(** X14. A run of [executeAgent] that throws after the token was
    created never revokes it: the token is still stored and live,
    [validateToken] accepts it until it expires, without a scope and for
    every path under [health/<d>/] of a required or optional data type
    [d], and the audit chain has gained exactly the entries
    [WALLET_CONNECTED], [TOKEN_CREATED] and [AGENT_EXECUTED]. (The dates
    of the token are assumed printable, so that it was created.) *)
Theorem failed_run_leaves_token_live (env : Env) (agentMeta : AgentMeta)
    (healthData : list (string * list val)) (goals : val)
    (ollamaEndpoint : string) (sdk sdk' : ProofiSDK) (e : Exn) :
  executeAgent env agentMeta healthData goals ollamaEndpoint sdk = (Throw e, sdk') →
  JsDate.valid_time (clock env 1) = true →
  JsDate.valid_time (clock env 2 + parseDuration (accessDuration agentMeta)) = true →
  ∃ tok,
    tokens sdk' !! Base64.encode (random env 0 16) = Some tok ∧
    tokenId tok = Base64.encode (random env 0 16) ∧
    revoked tok = false ∧
    (∀ now, now ≤ clock env 2 + parseDuration (accessDuration agentMeta) →
       fst (validateToken now (tokenId tok) None sdk') = Valid tok) ∧
    (∀ now d rest, now ≤ clock env 2 + parseDuration (accessDuration agentMeta) →
       In d (requiredData agentMeta ++ optionalData agentMeta) →
       fst (validateToken now (tokenId tok) (Some ("health/" +:+ d +:+ "/" +:+ rest)) sdk') =
         Valid tok) ∧
    appended_actions sdk sdk' = ["WALLET_CONNECTED"; "TOKEN_CREATED"; "AGENT_EXECUTED"].
Proof.
  intros H V1 V2. revert H. unfold executeAgent.
  destruct (addAuditEntry (clock env 0) _ _ sdk) as [e0 sdk0] eqn:H0.
  apply addAuditEntry_step in H0 as (C0 & A0 & T0 & _).
  set (scopes := _ ++ _).
  pose proof (createAccessToken_valid (random env 0 16) (random env 1 15)
    (clock env 1) (clock env 2) (id agentMeta) scopes
    (parseDuration (accessDuration agentMeta)) sdk0 V1 V2) as Hok.
  destruct (createAccessToken _ _ _ _ _ _ _ sdk0) as [[tok|err] sdk1] eqn:Hc;
    [|done].
  apply LifecycleFacts.createAccessToken_ok in Hc as [-> ->]. clear Hok.
  set (tok := mkToken _ _ _ _ _ _ _).
  destruct (addAuditEntry (clock env 3) _ _ _) as [e3 sdk3] eqn:H3.
  apply addAuditEntry_step in H3 as (C3 & A3 & T3 & _). simpl in C3, T3.
  destruct (addAuditEntry (clock env 4) _ _ sdk3) as [e4 sdk4] eqn:H4.
  apply addAuditEntry_step in H4 as (C4 & A4 & T4 & _).
  assert (∀ err, (@Throw ExecResult err, sdk4) = (Throw e, sdk') →
    ∃ tok0,
      tokens sdk' !! Base64.encode (random env 0 16) = Some tok0 ∧
      tokenId tok0 = Base64.encode (random env 0 16) ∧
      revoked tok0 = false ∧
      (∀ now, now ≤ clock env 2 + parseDuration (accessDuration agentMeta) →
         fst (validateToken now (tokenId tok0) None sdk') = Valid tok0) ∧
      (∀ now d rest, now ≤ clock env 2 + parseDuration (accessDuration agentMeta) →
         In d (requiredData agentMeta ++ optionalData agentMeta) →
         fst (validateToken now (tokenId tok0)
                (Some ("health/" +:+ d +:+ "/" +:+ rest)) sdk') = Valid tok0) ∧
      appended_actions sdk sdk' =
        ["WALLET_CONNECTED"; "TOKEN_CREATED"; "AGENT_EXECUTED"]) as Hthrow.
  { intros err' [= _ <-].
    assert (tokens sdk4 !! Base64.encode (random env 0 16) = Some tok) as Hl.
    { rewrite T4, T3. apply lookup_insert_eq. }
    exists tok. split; [done|]. split; [done|]. split; [done|].
    split; [|split].
    - intros now Hnow. by apply (TokenFacts.validateToken_valid _ _ _ _ tok).
    - intros now d rest Hnow Hd.
      apply (TokenFacts.validateToken_valid _ _ _ _ tok); try done.
      right. simpl. unfold Scope.someScope. apply existsb_exists.
      exists ("health/" +:+ d +:+ "/*"). split.
      + unfold scopes. rewrite <- map_app. apply in_map_iff. by exists d.
      + apply ScopeFacts.matchScope_spec. right.
        exists ("health/" +:+ d), ("/" +:+ rest). by rewrite !append_assoc.
    - unfold appended_actions. rewrite C4, C3, C0, <- !app_assoc.
      rewrite drop_app_length. simpl. by rewrite A0, A3, A4. }
  destruct (fetch_json env _ _) as [result|err]; [|apply Hthrow].
  match goal with |- context [mbind ?f ?m] => destruct (mbind f m) as [details|err] end;
    [|apply Hthrow].
  destruct (addAuditEntry (clock env 5) _ _ sdk4) as [e5 sdk5].
  destruct (addAuditEntry (clock env 6) _ _ _) as [e6 sdk6].
  destruct (sign_chain env (getWalletState env) sdk6) as [signature sdk7].
  intros H. discriminate H.
Qed.

Lemma failed_run_leaves_token_live_witness :
  ∃ tok,
    tokens (snd Samples.offline_run) !! "BwcHBwcHBwcHBwcHBwcHBw==" = Some tok ∧
    revoked tok = false.
Proof.
  assert (executeAgent Samples.offline_env Samples.sample_meta Samples.sample_health
            (VArr [VStr "sleep better"]) "http://localhost:3000" new_sdk =
          (Throw (TypeError "Failed to fetch"), snd Samples.offline_run)) as Hrun
    by (vm_compute; reflexivity).
  destruct (failed_run_leaves_token_live _ _ _ _ _ _ _ _ Hrun
              ltac:(reflexivity) ltac:(reflexivity))
    as (tok & Hl & _ & Hr & _).
  exists tok. split; [exact Hl | exact Hr].
Defined.

(** What a completed run leaves behind. *)
Lemma executeAgent_trace (env : Env) (agentMeta : AgentMeta)
    (healthData : list (string * list val)) (goals : val)
    (ollamaEndpoint : string) (sdk sdk' : ProofiSDK) (r : ExecResult) :
  executeAgent env agentMeta healthData goals ollamaEndpoint sdk = (Ok r, sdk') →
  ∃ tail,
    appended_actions sdk sdk' =
      ["WALLET_CONNECTED"; "TOKEN_CREATED"; "AGENT_EXECUTED"; "ANALYSIS_COMPLETE";
       "TOKEN_REVOKED"] ++ tail ∧
    (tail = [] ∨ tail = ["CHAIN_SIGNED"] ∧ is_Some (getWalletState env)) ∧
    (audit_signed r = true → tail = ["CHAIN_SIGNED"]) ∧
    audit_entries r = length (auditChain sdk') ∧
    length (auditChain sdk') = (length (auditChain sdk) + 5 + length tail)%nat ∧
    audit_chainValid r = chain_valid (verifyChain sdk) ∧
    audit_chainValid r = chain_valid (verifyChain sdk').
Proof.
  unfold executeAgent.
  destruct (addAuditEntry (clock env 0) _ _ sdk) as [e0 sdk0] eqn:H0.
  apply addAuditEntry_step in H0 as (C0 & A0 & _ & V0).
  set (scopes := _ ++ _).
  destruct (createAccessToken _ _ _ _ _ _ _ sdk0) as [[tok|err] sdk1] eqn:Hc;
    [|done].
  pose proof (AgentFacts.createAccessToken_chain (random env 0 16) (random env 1 15)
    (clock env 1) (clock env 2) (id agentMeta) scopes
    (parseDuration (accessDuration agentMeta)) sdk0) as C1.
  rewrite Hc in C1. simpl in C1.
  destruct (addAuditEntry (clock env 3) _ _ sdk1) as [e3 sdk3] eqn:H3.
  apply addAuditEntry_step in H3 as (C3 & A3 & _ & V3).
  destruct (addAuditEntry (clock env 4) _ _ sdk3) as [e4 sdk4] eqn:H4.
  apply addAuditEntry_step in H4 as (C4 & A4 & _ & V4).
  destruct (fetch_json env _ _) as [result|err]; [|done].
  match goal with |- context [mbind ?f ?m] => destruct (mbind f m) as [details|err] end;
    [|done].
  destruct (addAuditEntry (clock env 5) _ _ sdk4) as [e5 sdk5] eqn:H5.
  apply addAuditEntry_step in H5 as (C5 & A5 & _ & V5).
  destruct (addAuditEntry (clock env 6) _ _ (revokeToken (tokenId tok) sdk5))
    as [e6 sdk6] eqn:H6.
  apply addAuditEntry_step in H6 as (C6 & A6 & _ & V6).
  rewrite AgentFacts.revokeToken_chain in C6.
  rewrite (verifyChain_chain (revokeToken (tokenId tok) sdk5) sdk5) in V6
    by apply AgentFacts.revokeToken_chain.
  rewrite (verifyChain_chain sdk1 sdk0 C1) in V3.
  destruct (sign_chain env (getWalletState env) sdk6) as [signature sdk7] eqn:H7.
  apply sign_chain_step in H7 as (_ & V7 & Hs).
  intros [= <- <-]. simpl.
  assert (auditChain sdk6 = auditChain sdk ++ [e0; e3; e4; e5; e6]) as C.
  { rewrite C6, C5, C4, C3, C1, C0, <- !app_assoc. done. }
  assert (chain_valid (verifyChain sdk7) = chain_valid (verifyChain sdk)) as V
    by congruence.
  destruct Hs as [[-> C7] | (e7 & Hsig & Hw & A7 & C7)].
  - exists []. unfold appended_actions. rewrite C7, C.
    rewrite drop_app_length, length_app. simpl. rewrite A0, A3, A4, A5, A6.
    split; [done|]. split; [by left|]. split; [done|]. split; [done|].
    split; [lia|]. split; done.
  - exists ["CHAIN_SIGNED"]. unfold appended_actions. rewrite C7, C, <- app_assoc.
    rewrite drop_app_length, !length_app. simpl. rewrite A0, A3, A4, A5, A6, A7.
    split; [done|]. split; [by right|]. split; [done|]. split; [done|].
    split; [lia|]. split; done.
Qed.

(** X15. The [chainValid] that a completed run of [executeAgent]
    returns is the validity of the chain the instance had before the run:
    a run on a valid chain reports [true], a run on a broken chain
    reports [false], and that is also what [verifyChain] says of the
    chain after the run. *)
Theorem run_reports_the_chain_it_started_with (env : Env) (agentMeta : AgentMeta)
    (healthData : list (string * list val)) (goals : val)
    (ollamaEndpoint : string) (sdk sdk' : ProofiSDK) (r : ExecResult) :
  executeAgent env agentMeta healthData goals ollamaEndpoint sdk = (Ok r, sdk') →
  audit_chainValid r = chain_valid (verifyChain sdk) ∧
  audit_chainValid r = chain_valid (verifyChain sdk').
Proof.
  intros H.
  destruct (executeAgent_trace _ _ _ _ _ _ _ _ H) as (tail & _ & _ & _ & _ & _ & V & V').
  done.
Qed.

Lemma run_reports_the_chain_it_started_with_witness :
  audit_chainValid Samples.sample_result = chain_valid (verifyChain new_sdk).
Proof.
  assert (executeAgent Samples.sample_env Samples.sample_meta Samples.sample_health
            (VArr [VStr "sleep better"]) "http://localhost:3000" new_sdk =
          (Ok Samples.sample_result, snd Samples.sample_run)) as Hrun
    by (vm_compute; reflexivity).
  exact (proj1 (run_reports_the_chain_it_started_with _ _ _ _ _ _ _ _ Hrun)).
Defined.

(** X16. A completed run of [executeAgent] appends to the audit chain, in
    this order, [WALLET_CONNECTED], [TOKEN_CREATED], [AGENT_EXECUTED],
    [ANALYSIS_COMPLETE] and [TOKEN_REVOKED], followed by [CHAIN_SIGNED]
    only if a wallet is connected; a run that returns [signed: true] has
    appended [CHAIN_SIGNED], and the [entries] it returns is the old
    length of the chain plus the five or six new entries. *)
Theorem completed_run_audit_trail (env : Env) (agentMeta : AgentMeta)
    (healthData : list (string * list val)) (goals : val)
    (ollamaEndpoint : string) (sdk sdk' : ProofiSDK) (r : ExecResult) :
  executeAgent env agentMeta healthData goals ollamaEndpoint sdk = (Ok r, sdk') →
  ∃ tail,
    appended_actions sdk sdk' =
      ["WALLET_CONNECTED"; "TOKEN_CREATED"; "AGENT_EXECUTED"; "ANALYSIS_COMPLETE";
       "TOKEN_REVOKED"] ++ tail ∧
    (tail = [] ∨ tail = ["CHAIN_SIGNED"] ∧ is_Some (getWalletState env)) ∧
    (audit_signed r = true → tail = ["CHAIN_SIGNED"]) ∧
    audit_entries r = (length (auditChain sdk) + 5 + length tail)%nat.
Proof.
  intros H.
  destruct (executeAgent_trace _ _ _ _ _ _ _ _ H)
    as (tail & Ha & Ht & Hs & He & Hl & _).
  exists tail. rewrite He, Hl. done.
Qed.

Lemma completed_run_audit_trail_witness :
  ∃ tail,
    appended_actions new_sdk (snd Samples.sample_run) =
      ["WALLET_CONNECTED"; "TOKEN_CREATED"; "AGENT_EXECUTED"; "ANALYSIS_COMPLETE";
       "TOKEN_REVOKED"] ++ tail ∧
    (tail = [] ∨ tail = ["CHAIN_SIGNED"] ∧ is_Some (getWalletState Samples.sample_env)) ∧
    (audit_signed Samples.sample_result = true → tail = ["CHAIN_SIGNED"]) ∧
    audit_entries Samples.sample_result =
      (length (auditChain new_sdk) + 5 + length tail)%nat.
Proof.
  assert (executeAgent Samples.sample_env Samples.sample_meta Samples.sample_health
            (VArr [VStr "sleep better"]) "http://localhost:3000" new_sdk =
          (Ok Samples.sample_result, snd Samples.sample_run)) as Hrun
    by (vm_compute; reflexivity).
  exact (completed_run_audit_trail _ _ _ _ _ _ _ _ Hrun).
Defined.

End RunFacts.

(** ** Export and DDC access *)

Module ExportFacts.

Import Json Sdk Props.

(** X13. [exportAudit] does not verify the chain it exports: whatever
    the chain is, valid or not, the exported [verification] block says
    [chainValid: true], with [finalHash] the stored hash of the last
    entry ([null] for an empty chain) and [entries] the chain itself.
    The properties of [meta] appear in the export, except that [meta]
    cannot replace [entries] and [verification]. *)
Theorem exportAudit_never_verifies (now : Z) (meta : gmap string val)
    (sdk : ProofiSDK) (out : gmap string val) :
  exportAudit now meta sdk = Ok out →
  out !! "verification" =
    Some (VObj [("algorithm", VStr "SHA-256"); ("chainValid", VBool true);
                ("finalHash", match last (auditChain sdk) with
                              | Some e => VStr (hash e)
                              | None => VNull
                              end)]) ∧
  out !! "entries" = Some (VArr (map entry_val (auditChain sdk))) ∧
  (∀ k v, meta !! k = Some v → k ≠ "entries" → k ≠ "verification" →
          out !! k = Some v).
Proof.
  unfold exportAudit. destruct (JsDate.toISOString now) as [exportedAt|]; [|done].
  simpl. intros [= <-]. split; [apply lookup_insert_eq|]. split.
  - rewrite lookup_insert_ne by done. apply lookup_insert_eq.
  - intros k v Hk H1 H2. rewrite !lookup_insert_ne by done.
    apply lookup_union_Some_l, Hk.
Qed.

Lemma exportAudit_never_verifies_witness :
  chain_valid (verifyChain (tamper 1 Samples.forged_details Samples.chain_sdk)) = false ∧
  ∃ finalHash,
    Samples.exported !! "verification" =
      Some (VObj [("algorithm", VStr "SHA-256"); ("chainValid", VBool true);
                  ("finalHash", finalHash)]).
Proof.
  assert (exportAudit 1700000010000 ∅
            (tamper 1 Samples.forged_details Samples.chain_sdk) =
          Ok Samples.exported) as H by (vm_compute; reflexivity).
  split; [vm_compute; reflexivity|].
  eexists. exact (proj1 (exportAudit_never_verifies _ _ _ _ H)).
Defined.

(** X17. [fetchFromDDC] prefers the Cere CDN: a body served there with
    an [ok] response is the result, whatever the fallback would answer. A
    result is always a body that one of the two addresses served; and
    when neither serves one, the only error raised is [Failed to fetch
    from DDC] with the bucket and the content identifier, never the
    network error itself. *)
Theorem fetchFromDDC_outcomes (fetch : string → Outcome Response)
    (bucketId cid : string) :
  let cere := "https://cdn.cere.network/" +:+ bucketId +:+ "/" +:+ cid in
  let dragon := "https://cdn.ddc-dragon.com/" +:+ bucketId +:+ "/" +:+ cid in
  let served url body :=
    ∃ res, fetch url = Ok res ∧ ok res = true ∧ text res = Ok body in
  (∀ body, served cere body → fetchFromDDC fetch bucketId cid = Ok body) ∧
  (∀ body, fetchFromDDC fetch bucketId cid = Ok body →
           served cere body ∨ served dragon body) ∧
  (∀ e, fetchFromDDC fetch bucketId cid = Throw e →
        e = Error ("Failed to fetch from DDC: bucket=" +:+ bucketId +:+
                   ", cid=" +:+ cid) ∧
        (∀ body, ¬ served cere body) ∧ (∀ body, ¬ served dragon body)).
Proof.
  intros cere dragon served.
  assert (∀ url body, served url body ↔ try_urls fetch [url] = Some body) as Hs.
  { intros url body. unfold served. simpl. destruct (fetch url) as [res|e].
    - destruct (ok res) eqn:Hok.
      + destruct (text res) as [b|e] eqn:Ht.
        * split; [intros (r & [= <-] & _ & H); congruence|].
          intros [= <-]. by exists res.
        * split; [intros (r & [= <-] & _ & H); congruence | done].
      + split; [intros (r & [= <-] & H & _); congruence | done].
    - split; [intros (r & H & _); done | done]. }
  assert (fetchFromDDC fetch bucketId cid =
          match try_urls fetch [cere] with
          | Some body => Ok body
          | None =>
              match try_urls fetch [dragon] with
              | Some body => Ok body
              | None => Throw (Error ("Failed to fetch from DDC: bucket=" +:+
                                      bucketId +:+ ", cid=" +:+ cid))
              end
          end) as ->.
  { unfold fetchFromDDC, ddc_urls. fold cere dragon. simpl.
    destruct (fetch cere) as [res|e]; [|done].
    destruct (ok res); [|done]. by destruct (text res). }
  split; [|split].
  - intros body H. apply Hs in H. by rewrite H.
  - intros body. destruct (try_urls fetch [cere]) eqn:H1.
    + intros [= <-]. left. by apply Hs.
    + destruct (try_urls fetch [dragon]) eqn:H2; [|done].
      intros [= <-]. right. by apply Hs.
  - intros e. destruct (try_urls fetch [cere]) eqn:H1; [done|].
    destruct (try_urls fetch [dragon]) eqn:H2; [done|].
    intros [= <-]. split; [done|].
    split; intros body H; apply Hs in H; congruence.
Qed.

Lemma fetchFromDDC_outcomes_witness :
  fetchFromDDC Samples.sample_fetch "bucket-1" "cid-1" = Ok "payload".
Proof.
  apply (proj1 (fetchFromDDC_outcomes Samples.sample_fetch "bucket-1" "cid-1")).
  exists (mkResponse true (Ok "payload")). repeat split; reflexivity.
Defined.

End ExportFacts.

(** ** The keypair across restarts *)

Module KeyStoreFacts.

Import Json Keys.

Lemma generateKeypair_eq (p : Platform) : generateKeypair p = box_keyPair p.
Proof. unfold generateKeypair. by destruct (box_keyPair p). Qed.

Lemma read_keypair_stored (p : Platform) (keypair : AgentKeypair)
    (createdAt algorithm : string) :
  Forall Bytes.byte_ok (publicKey keypair) →
  Forall Bytes.byte_ok (privateKey keypair) →
  JSON_parse p (stored_json (Base64.encode (publicKey keypair))
                            (Base64.encode (privateKey keypair))
                            createdAt algorithm) =
    Ok (VObj [("publicKey", VStr (Base64.encode (publicKey keypair)));
              ("privateKey", VStr (Base64.encode (privateKey keypair)));
              ("createdAt", VStr createdAt); ("algorithm", VStr algorithm)]) →
  read_keypair p (stored_json (Base64.encode (publicKey keypair))
                              (Base64.encode (privateKey keypair))
                              createdAt algorithm) = Ok keypair.
Proof.
  intros Hpk Hsk Hparse. unfold read_keypair. rewrite Hparse. simpl.
  rewrite !Base64Facts.decodeBase64_encode by done. simpl. by destruct keypair.
Qed.

(** X18. The keypair survives a restart: when no key file exists,
    [getOrCreateKeypair] returns the generated keypair and saves it; a
    later call, on a platform with another clock and another keypair in
    its generator, whose [JSON.parse] reads the saved file, returns the
    same keypair and leaves the disk as it is. (Keys are byte arrays.) *)
Theorem keypair_survives_restart (p p' : Platform) (w : World) (createdAt : string) :
  keypair_file (fs w) = None →
  JsDate.toISOString (date_now p) = Ok createdAt →
  Forall Bytes.byte_ok (publicKey (box_keyPair p)) →
  Forall Bytes.byte_ok (privateKey (box_keyPair p)) →
  JSON_parse p' (stored_json (Base64.encode (publicKey (box_keyPair p)))
                             (Base64.encode (privateKey (box_keyPair p)))
                             createdAt "X25519") =
    Ok (VObj [("publicKey", VStr (Base64.encode (publicKey (box_keyPair p))));
              ("privateKey", VStr (Base64.encode (privateKey (box_keyPair p))));
              ("createdAt", VStr createdAt); ("algorithm", VStr "X25519")]) →
  let w1 := snd (getOrCreateKeypair p w) in
  fst (getOrCreateKeypair p w) = Ok (box_keyPair p) ∧
  fst (getOrCreateKeypair p' w1) = Ok (box_keyPair p) ∧
  fs (snd (getOrCreateKeypair p' w1)) = fs w1.
Proof.
  intros Hfile Ht Hpk Hsk Hparse w1.
  assert (JsDate.valid_time (date_now p) = true) as Hvalid.
  { unfold JsDate.toISOString in Ht. by destruct (JsDate.valid_time _). }
  destruct (KeysFacts.getOrCreateKeypair_generates p w w
              (KeysFacts.loadKeypair_absent p w Hfile) Hvalid)
    as (createdAt' & Ht' & Hok & Hsaved & _).
  rewrite Ht in Ht'. injection Ht' as <-.
  rewrite generateKeypair_eq in Hok, Hsaved.
  split; [done|].
  pose proof (read_keypair_stored p' (box_keyPair p) createdAt "X25519" Hpk Hsk Hparse)
    as Hread.
  unfold getOrCreateKeypair.
  rewrite (KeysFacts.loadKeypair_decoded p' w1 _ _ Hsaved Hread). done.
Qed.

Lemma keypair_survives_restart_witness :
  fst (getOrCreateKeypair Samples.restarted_platform
         (snd (getOrCreateKeypair sample_platform Samples.empty_disk))) =
    Ok (mkKeypair [1; 2; 3] [4; 5; 6]).
Proof.
  apply (proj1 (proj2 (keypair_survives_restart sample_platform
                         Samples.restarted_platform Samples.empty_disk
                         "2023-11-14T22:13:20.000Z" ltac:(reflexivity)
                         ltac:(vm_compute; reflexivity) ltac:(compute_done)
                         ltac:(compute_done) ltac:(vm_compute; reflexivity)))).
Defined.

(** X19. [deleteKeypair] returns [true] exactly when a key file existed.
    Afterwards there is no key file, the keys directory is as before, a
    second call returns [false] and changes nothing, [loadKeypair]
    returns [null] without logging, and [getOrCreateKeypair] generates a
    new keypair. *)
Theorem deleteKeypair_forgets_the_identity (p : Platform) (w : World) :
  let w' := snd (deleteKeypair w) in
  fst (deleteKeypair w) = bool_decide (is_Some (keypair_file (fs w))) ∧
  keypair_file (fs w') = None ∧
  keys_dir (fs w') = keys_dir (fs w) ∧
  deleteKeypair w' = (false, w') ∧
  loadKeypair p w' = (None, w') ∧
  (JsDate.valid_time (date_now p) = true →
   fst (getOrCreateKeypair p w') = Ok (generateKeypair p)).
Proof.
  intros w'.
  assert (keypair_file (fs w') = None) as Hnone.
  { unfold w', deleteKeypair. by destruct (keypair_file (fs w)) eqn:H. }
  split; [|split; [done|split; [|split; [|split]]]].
  - unfold deleteKeypair. by destruct (keypair_file (fs w)).
  - unfold w', deleteKeypair. by destruct (keypair_file (fs w)).
  - unfold deleteKeypair at 1. by rewrite Hnone.
  - by apply KeysFacts.loadKeypair_absent.
  - intros Hvalid.
    destruct (KeysFacts.getOrCreateKeypair_generates p w' w'
                (KeysFacts.loadKeypair_absent p w' Hnone) Hvalid)
      as (_ & _ & Hok & _). done.
Qed.

Lemma deleteKeypair_forgets_the_identity_witness :
  fst (getOrCreateKeypair sample_platform
         (snd (deleteKeypair (mkWorld (mkFS true (Some "{}") (Some 384)) [])))) =
    Ok (generateKeypair sample_platform).
Proof.
  apply (proj2 (proj2 (proj2 (proj2 (proj2
           (deleteKeypair_forgets_the_identity sample_platform
              (mkWorld (mkFS true (Some "{}") (Some 384)) []))))))).
  reflexivity.
Defined.

Lemma encode_aux_length (fuel : nat) (b : list Z) :
  (length b < fuel)%nat →
  String.length (Base64.encode_aux fuel b) = (4 * ((length b + 2) / 3))%nat.
Proof.
  revert b. induction fuel as [|fuel IH]; intros b Hlen; [lia|].
  destruct b as [|x [|y [|z r]]]; try reflexivity.
  cbn [Base64.encode_aux String.length length].
  rewrite IH by (simpl in Hlen; lia).
  replace (S (S (S (length r))) + 2)%nat with (1 * 3 + (length r + 2))%nat by lia.
  rewrite Nat.div_add_l by done. lia.
Qed.

(** X20. The strings of [getPublicKeyBase64] and [getPrivateKeyBase64]
    decode back, through [decodeBase64], to the keys they were made
    from; the public key string has four characters for every three
    bytes, rounded up, which is 44 characters for a 32-byte key. *)
Theorem published_key_decodes_back (keypair : AgentKeypair) :
  Forall Bytes.byte_ok (publicKey keypair) →
  Forall Bytes.byte_ok (privateKey keypair) →
  Base64.decodeBase64 (getPublicKeyBase64 keypair) = Ok (publicKey keypair) ∧
  Base64.decodeBase64 (getPrivateKeyBase64 keypair) = Ok (privateKey keypair) ∧
  String.length (getPublicKeyBase64 keypair) =
    (4 * ((length (publicKey keypair) + 2) / 3))%nat ∧
  (length (publicKey keypair) = 32%nat →
   String.length (getPublicKeyBase64 keypair) = 44%nat).
Proof.
  intros Hpk Hsk. unfold getPublicKeyBase64, getPrivateKeyBase64.
  rewrite !Base64Facts.decodeBase64_encode by done.
  split; [done|]. split; [done|].
  unfold Base64.encode. rewrite encode_aux_length by lia.
  split; [done|]. by intros ->.
Qed.

Lemma published_key_decodes_back_witness :
  Base64.decodeBase64 (getPublicKeyBase64 (mkKeypair [1; 2; 3] [4; 5; 6])) =
    Ok [1; 2; 3].
Proof.
  apply (proj1 (published_key_decodes_back (mkKeypair [1; 2; 3] [4; 5; 6])
                  ltac:(compute_done) ltac:(compute_done))).
Defined.

End KeyStoreFacts.

(** ** Signatures, payloads and expiry of capability tokens *)

Module SignatureFacts.

Import Json Crypto Props.

Lemma verifyTokenSignature_result (prim : Primitives) (token : nat)
    (issuerPublicKey : list Z) (h : gmap nat (list (string * val)))
    (fields : list (string * val)) :
  h !! token = Some fields →
  fst (verifyTokenSignature prim token issuerPublicKey h) =
    (signature ← decodeBase64 prim (lookup_field "sig" fields);
     sign_verify prim (Bytes.of_string (stringify_obj (signed_fields fields)))
       signature issuerPublicKey).
Proof.
  intros Ht. unfold verifyTokenSignature. rewrite Ht. simpl.
  assert (token ≠ fresh_loc h) as Hne.
  { intros ->. rewrite CryptoFacts.fresh_loc_fresh in Ht. discriminate Ht. }
  rewrite !lookup_alter_eq, lookup_insert_eq.
  rewrite !lookup_alter_ne, lookup_insert_ne by done. rewrite Ht. done.
Qed.

Lemma delete_field_comm (a b : string) (o : list (string * val)) :
  delete_field a (delete_field b o) = delete_field b (delete_field a o).
Proof.
  unfold delete_field. induction o as [|[k x] o IH]; [done|].
  rewrite !filter_cons. simpl.
  destruct (decide (k ≠ b)), (decide (k ≠ a)); rewrite ?filter_cons; simpl;
    repeat case_decide; try done; by rewrite IH.
Qed.

Lemma lookup_delete_field_ne (a k : string) (o : list (string * val)) :
  k ≠ a → lookup_field k (delete_field a o) = lookup_field k o.
Proof.
  intros Hne. unfold delete_field. induction o as [|[k' x] o IH]; [done|].
  rewrite filter_cons. simpl. destruct (String.eqb_spec k k') as [<-|Hk].
  - rewrite decide_True by done. simpl. by rewrite String.eqb_refl.
  - case_decide; [|done]. simpl.
    destruct (String.eqb_spec k k'); [done|]. exact IH.
Qed.

(** X22. [verifyTokenSignature] ignores [sigAlg]: two token objects
    that are the same once their [sigAlg] property is left out get the
    same result, so the algorithm a token names is neither checked nor
    covered by the signature. *)
Theorem signature_check_ignores_sigAlg (prim : Primitives) (token : nat)
    (issuerPublicKey : list Z) (h1 h2 : gmap nat (list (string * val)))
    (fields1 fields2 : list (string * val)) :
  h1 !! token = Some fields1 → h2 !! token = Some fields2 →
  delete_field "sigAlg" fields1 = delete_field "sigAlg" fields2 →
  fst (verifyTokenSignature prim token issuerPublicKey h1) =
  fst (verifyTokenSignature prim token issuerPublicKey h2).
Proof.
  intros H1 H2 Heq.
  rewrite (verifyTokenSignature_result prim token issuerPublicKey h1 fields1 H1).
  rewrite (verifyTokenSignature_result prim token issuerPublicKey h2 fields2 H2).
  unfold signed_fields. rewrite !(delete_field_comm "sigAlg" "sig"), Heq.
  rewrite <- (lookup_delete_field_ne "sigAlg" "sig" fields1) by done.
  rewrite <- (lookup_delete_field_ne "sigAlg" "sig" fields2) by done.
  by rewrite Heq.
Qed.

Lemma signature_check_ignores_sigAlg_witness :
  fst (verifyTokenSignature sample_primitives 0 [7; 7] Samples.heap_A) =
  fst (verifyTokenSignature sample_primitives 0 [7; 7]
         {[ 0%nat := delete_field "sigAlg" Samples.capability ]}).
Proof.
  apply (signature_check_ignores_sigAlg sample_primitives 0 [7; 7] Samples.heap_A
           {[ 0%nat := delete_field "sigAlg" Samples.capability ]}
           Samples.capability (delete_field "sigAlg" Samples.capability));
    vm_compute; reflexivity.
Defined.

Lemma of_string_inj (s t : string) : Bytes.of_string s = Bytes.of_string t → s = t.
Proof.
  unfold Bytes.of_string. intros H. apply JsonFacts.chars_inj.
  revert H. generalize (list_ascii_of_string t).
  induction (list_ascii_of_string s) as [|a l IH]; intros [|b l']; simpl; try done.
  intros [= Hab Hl]. f_equal; [|by apply IH].
  apply N2Z.inj in Hab.
  rewrite <- (ascii_N_embedding a), <- (ascii_N_embedding b). by rewrite Hab.
Qed.

Lemma plain_delete_field (k : string) (o : list (string * val)) :
  JsonSyntax.plain (VObj o) = true → JsonSyntax.plain (VObj (delete_field k o)) = true.
Proof.
  simpl. unfold delete_field. induction o as [|[k' x] o IH]; [done|].
  simpl. intros H. apply andb_true_iff in H as [Hx Ho].
  rewrite filter_cons. case_decide; simpl; [rewrite Hx|]; by apply IH.
Qed.

(** X23. What [verifyTokenSignature] verifies: the signature in [sig],
    decoded from base64, against the UTF-8 bytes of the JSON
    serialization of the token without [sig] and [sigAlg]. For tokens of
    plain JSON data those bytes determine every property that is left,
    its name, its value and its position: two tokens with the same
    signed bytes have the same signed properties. *)
Theorem signed_message_binds_the_payload (prim : Primitives) (token : nat)
    (issuerPublicKey : list Z) (h : gmap nat (list (string * val)))
    (fields : list (string * val)) :
  h !! token = Some fields →
  fst (verifyTokenSignature prim token issuerPublicKey h) =
    (signature ← decodeBase64 prim (lookup_field "sig" fields);
     sign_verify prim (Bytes.of_string (stringify_obj (signed_fields fields)))
       signature issuerPublicKey) ∧
  (∀ other, JsonSyntax.plain (VObj fields) = true →
     JsonSyntax.plain (VObj other) = true →
     Bytes.of_string (stringify_obj (signed_fields other)) =
       Bytes.of_string (stringify_obj (signed_fields fields)) →
     signed_fields other = signed_fields fields).
Proof.
  intros Ht. split; [by apply verifyTokenSignature_result|].
  intros other Hf Ho Heq. apply of_string_inj in Heq.
  assert (JsonSyntax.plain (VObj (signed_fields fields)) = true) as Pf
    by (by apply plain_delete_field, plain_delete_field).
  assert (JsonSyntax.plain (VObj (signed_fields other)) = true) as Po
    by (by apply plain_delete_field, plain_delete_field).
  unfold stringify_obj in Heq.
  rewrite (JsonFacts.plain_stringify _ Pf), (JsonFacts.plain_stringify _ Po) in Heq.
  simpl in Heq.
  assert (VObj (signed_fields other) = VObj (signed_fields fields)) as H.
  { apply JsonFacts.stringify_inj; [done..|].
    by rewrite (JsonFacts.plain_stringify _ Pf), (JsonFacts.plain_stringify _ Po), Heq. }
  by injection H.
Qed.

Lemma signed_message_binds_the_payload_witness :
  fst (verifyTokenSignature sample_primitives 0 [7; 7] Samples.heap_A) =
    (signature ← decodeBase64 sample_primitives (lookup_field "sig" Samples.capability);
     sign_verify sample_primitives
       (Bytes.of_string (stringify_obj (signed_fields Samples.capability)))
       signature [7; 7]).
Proof.
  apply (proj1 (signed_message_binds_the_payload sample_primitives 0 [7; 7]
                  Samples.heap_A Samples.capability ltac:(reflexivity))).
Defined.

(** X24. A token whose [sig] is not valid base64 makes
    [verifyTokenSignature] throw [TypeError: invalid encoding], whatever
    the primitives are; it does not return [false]. When [sig] decodes,
    the result is that of the signature primitive on the decoded bytes. *)
Theorem undecodable_signature_throws (prim : Primitives) (token : nat)
    (issuerPublicKey : list Z) (h : gmap nat (list (string * val)))
    (fields : list (string * val)) (s : string) :
  h !! token = Some fields → lookup_field "sig" fields = VStr s →
  (∀ e, Base64.decodeBase64 s = Throw e →
     fst (verifyTokenSignature prim token issuerPublicKey h) =
       Throw (TypeError "invalid encoding")) ∧
  (∀ signature, Base64.decodeBase64 s = Ok signature →
     fst (verifyTokenSignature prim token issuerPublicKey h) =
       sign_verify prim (Bytes.of_string (stringify_obj (signed_fields fields)))
         signature issuerPublicKey).
Proof.
  intros Ht Hs. rewrite (verifyTokenSignature_result prim token _ h fields Ht), Hs.
  simpl. split.
  - intros e He. destruct (CryptoFacts.decodeBase64_cases s) as [[b Hb] | ->]; [|done].
    congruence.
  - intros signature ->. done.
Qed.

Lemma undecodable_signature_throws_witness :
  fst (verifyTokenSignature sample_primitives 0 [7; 7]
         {[ 0%nat := Samples.capability_bad_sig ]}) =
    Throw (TypeError "invalid encoding").
Proof.
  assert (({[ 0%nat := Samples.capability_bad_sig ]} : gmap nat (list (string * val)))
            !! 0%nat = Some Samples.capability_bad_sig) as Ht
    by (vm_compute; reflexivity).
  apply (proj1 (undecodable_signature_throws sample_primitives 0 [7; 7] _
                  Samples.capability_bad_sig "not base64!" Ht eq_refl)
               (TypeError "invalid encoding")).
  reflexivity.
Defined.



(** X25. [isTokenExpired] in milliseconds: a token with [exp = e]
    (seconds) is reported expired exactly when [Date.now()] is at least
    [1000 * (e + 1)], so it still passes during the whole second that
    begins at [e]. A token object without an [exp] property is never
    reported expired. *)
Theorem isTokenExpired_in_milliseconds (date_now : Z) (token : nat)
    (h : gmap nat (list (string * val))) (fields : list (string * val)) :
  h !! token = Some fields →
  (∀ e, lookup_field "exp" fields = VNum e →
        fst (isTokenExpired date_now token h) =
          Ok (bool_decide (1000 * (e + 1) ≤ date_now))) ∧
  (lookup_field "exp" fields = VUndef →
   fst (isTokenExpired date_now token h) = Ok false).
Proof.
  intros Ht. split.
  - intros e He. rewrite (TokenFacts.isTokenExpired_spec _ _ _ _ _ Ht He).
    f_equal. apply bool_decide_ext. split; intros H.
    + pose proof (Z.mul_div_le date_now 1000). lia.
    + assert (e + 1 ≤ date_now `div` 1000) by (apply Z.div_le_lower_bound; lia). lia.
  - intros He. unfold isTokenExpired. rewrite Ht. simpl. by rewrite He.
Qed.

Lemma isTokenExpired_in_milliseconds_witness :
  fst (isTokenExpired 3600000999 0 Samples.heap_A) =
    Ok (bool_decide (1000 * (3600000 + 1) ≤ 3600000999)).
Proof.
  apply (proj1 (isTokenExpired_in_milliseconds 3600000999 0 Samples.heap_A
                  Samples.capability ltac:(reflexivity)) 3600000).
  reflexivity.
Defined.

End SignatureFacts.

(** ** The agent's audit log *)

Module AuditLogFacts.

Import Json Audit.

Lemma action_name_inj (a b : AuditAction) : action_name a = action_name b → a = b.
Proof. destruct a, b; simpl; intros H; try reflexivity; discriminate H. Qed.

Lemma count_of_bump (k k' : string) (o : list (string * Z)) :
  count_of k (bump k' o) = count_of k o + (if String.eqb k k' then 1 else 0).
Proof.
  induction o as [|[k0 n] o IH]; simpl.
  - destruct (String.eqb k k'); lia.
  - destruct (String.eqb_spec k' k0) as [->|Hne]; simpl.
    + destruct (String.eqb_spec k k0); [|lia]. destruct (Z.eqb_spec n 0); lia.
    + destruct (String.eqb_spec k k0) as [->|Hk]; [|exact IH].
      destruct (String.eqb_spec k0 k'); [congruence | lia].
Qed.

Lemma keys_bump (k : string) (o : list (string * Z)) :
  map fst (bump k o) = if bool_decide (k ∈ map fst o) then map fst o
                       else map fst o ++ [k].
Proof.
  induction o as [|[k0 n] o IH]; simpl; [done|].
  destruct (String.eqb_spec k k0) as [->|Hne]; simpl.
  - rewrite bool_decide_eq_true_2; [done | by left].
  - rewrite IH. destruct (decide (k ∈ map fst o)) as [Hin|Hin].
    + rewrite !bool_decide_eq_true_2; [done | by right | done].
    + rewrite !bool_decide_eq_false_2; [done | | done].
      intros [?|?]%elem_of_cons; done.
Qed.

Lemma NoDup_bump (k : string) (o : list (string * Z)) :
  NoDup (map fst o) → NoDup (map fst (bump k o)).
Proof.
  intros H. rewrite keys_bump. case_bool_decide as Hin; [done|].
  apply NoDup_app. split; [done|]. split; [|apply NoDup_singleton].
  intros x Hx Hk. apply list_elem_of_singleton in Hk as ->. done.
Qed.

Lemma sum_bump (k : string) (o : list (string * Z)) :
  fold_right Z.add 0 (map snd (bump k o)) = fold_right Z.add 0 (map snd o) + 1.
Proof.
  induction o as [|[k0 n] o IH]; simpl; [done|].
  destruct (String.eqb k k0); simpl; [destruct (Z.eqb_spec n 0); lia | lia].
Qed.

Lemma tally_facts (l : list AuditEntry) (acc : list (string * Z)) :
  let tally := fold_left (λ acc entry, bump (action_name (action entry)) acc) l acc in
  (NoDup (map fst acc) → NoDup (map fst tally)) ∧
  (∀ a, count_of (action_name a) tally =
        count_of (action_name a) acc +
        Z.of_nat (length (filter (λ e, action e = a) l))) ∧
  fold_right Z.add 0 (map snd tally) =
    fold_right Z.add 0 (map snd acc) + Z.of_nat (length l).
Proof.
  revert acc. induction l as [|e l IH]; intros acc; simpl.
  - repeat split; [done | intros a; lia | lia].
  - destruct (IH (bump (action_name (action e)) acc)) as (Hn & Hc & Hs).
    split; [|split].
    + intros H. by apply Hn, NoDup_bump.
    + intros a. rewrite Hc, count_of_bump, filter_cons.
      destruct (String.eqb_spec (action_name a) (action_name (action e))) as [Heq|Hne].
      * apply action_name_inj in Heq. rewrite decide_True by done. simpl. lia.
      * rewrite decide_False by congruence. lia.
    + rewrite Hs, sum_bump. lia.
Qed.

(** X26. The summary of the audit log counts every entry once:
    [totalOperations] is the number of entries, the [actions] object has
    one property per action that was logged, its value for an action is
    the number of entries with that action (and an action that was never
    logged reads as 0), and the values add up to [totalOperations]. *)
Theorem summary_counts_the_entries (w : World) :
  let s := getSummary w in
  totalOperations s = length (entries w) ∧
  NoDup (map fst (actions s)) ∧
  (∀ a, count_of (action_name a) (actions s) =
        Z.of_nat (length (filter (λ e, action e = a) (entries w)))) ∧
  fold_right Z.add 0 (map snd (actions s)) = Z.of_nat (totalOperations s).
Proof.
  intros s. destruct (tally_facts (entries w) []) as (Hn & Hc & Hs).
  cbv zeta in Hn, Hc, Hs.
  split; [done|]. split; [apply Hn, NoDup_nil_2|]. split.
  - intros a. unfold s, getSummary. simpl. rewrite (Hc a). simpl. lia.
  - unfold s, getSummary. simpl. rewrite Hs. simpl. lia.
Qed.

Lemma numbered_log (now : Z) (a : AuditAction) (d : list (string * val))
    (hs : Hashes) (w : World) :
  numbered w →
  numbered (snd (log now a d hs w)) ∧
  sessionId (snd (log now a d hs w)) = sessionId w ∧
  (length (entries w) ≤ length (entries (snd (log now a d hs w))))%nat.
Proof.
  intros Hw. unfold log. destruct (JsDate.toISOString now) as [ts|err]; [|done].
  simpl. split; [|split; [done | rewrite length_app; lia]].
  intros i e. simpl.
  destruct (decide (i < length (entries w))%nat) as [Hi|Hi].
  - rewrite lookup_app_l by done. apply Hw.
  - intros He. assert (i = length (entries w)) as ->.
    { apply lookup_lt_Some in He. rewrite length_app in He. simpl in He. lia. }
    rewrite list_lookup_middle in He by done. by injection He as <-.
Qed.

Lemma numbered_run_call (c : Call) (w : World) :
  numbered w → numbered (run_call c w) ∧ sessionId (run_call c w) = sessionId w.
Proof.
  intros Hw. destruct c as [now a d hs|now now' a start d hs]; simpl.
  - destruct (numbered_log now a d hs w Hw) as (H & Hs & _). done.
  - unfold logWithTiming.
    destruct (numbered_log now a d hs w Hw) as (H & Hs & _).
    destruct (log now a d hs w) as [[entry|err] w']; simpl in *; [|done].
    split; [|done]. intros i e. simpl.
    destruct (decide (length (entries w) = i)) as [<-|Hne].
    + rewrite list_lookup_alter_eq.
      destruct (entries w' !! length (entries w)) as [e'|] eqn:He'; simpl; [|done].
      intros [= <-]. simpl. by apply H.
    + rewrite list_lookup_alter_ne by done. apply H.
Qed.

Lemma numbered_run_calls (cs : list Call) (w : World) :
  numbered w → numbered (run_calls cs w) ∧ sessionId (run_calls cs w) = sessionId w.
Proof.
  revert w. induction cs as [|c cs IH]; intros w Hw; [done|]. simpl.
  destruct (numbered_run_call c w Hw) as [H Hs].
  destruct (IH _ H) as [H' Hs']. split; [done | congruence].
Qed.

(** X27. Within one session of the audit log, after [clear] and any
    sequence of [log] and [logWithTiming] calls, the entry at index [i]
    has the identifier [<sessionId>_<i>], so no two entries share an
    identifier, and the session name is the one [clear] chose. *)
Theorem session_ids_are_unique (now : Z) (rnd : string) (w : World)
    (calls : list Call) :
  let w' := run_calls calls (clear now rnd w) in
  sessionId w' = new_session now rnd ∧
  (∀ i e, entries w' !! i = Some e → id e = sessionId w' +:+ "_" +:+ pretty i) ∧
  NoDup (map id (entries w')).
Proof.
  intros w'.
  assert (numbered (clear now rnd w)) as H0.
  { intros i e He. simpl in He. by rewrite lookup_nil in He. }
  destruct (numbered_run_calls calls _ H0) as [H Hs].
  split; [done|]. split; [exact H|].
  apply NoDup_alt. intros i j x Hi Hj.
  rewrite list_lookup_fmap in Hi, Hj.
  destruct (entries w' !! i) as [ei|] eqn:Ei; [|done].
  destruct (entries w' !! j) as [ej|] eqn:Ej; [|done].
  simpl in Hi, Hj. injection Hi as <-. injection Hj as Hj.
  rewrite (H _ _ Ei), (H _ _ Ej) in Hj.
  apply String.app_inj, String.app_inj in Hj. by apply pretty_nat_inj in Hj.
Qed.

Lemma session_ids_are_unique_witness :
  map id (entries Samples.logged) =
    ["audit_1700000000000_k3j9x2ab_0"; "audit_1700000000000_k3j9x2ab_1";
     "audit_1700000000000_k3j9x2ab_2"] ∧
  NoDup (map id (entries Samples.logged)).
Proof.
  split; [vm_compute; reflexivity|].
  exact (proj2 (proj2 (session_ids_are_unique 1700000000000 "k3j9x2ab"
                         (new_log 1690000000000 "aaaaaaaa") _))).
Defined.

End AuditLogFacts.
